(** * Mask run-length codec, dice score and trajectory metrics

    A shallow embedding of
      - [cigarette_butt_segmentation/lib/utils.py]   ([encode_rle], [decode_rle]),
      - [cigarette_butt_segmentation/lib/metrics.py] ([dice], [get_dice]),
      - [trajectory_prediction/lib/preprocess.py]    ([extend_arr], [extend_data]),
      - [trajectory_prediction/lib/postprocess.py]   ([synchronize_trajectories],
                                                      [straighten_trajectories]),
      - [trajectory_prediction/lib/metrics.py]       ([rmse], [mie], [get_scores]),
      - [word2vec/lib/tagger.py], [word2vec/lib/lemmatizer.py]
                                                     ([transform_token],
                                                      [transform_string],
                                                      [transform]),
    together with the properties that the specification states about them. *)

From Stdlib Require Import Ascii String ZArith List Bool Lia.
From Stdlib Require Import Floats Reals Lra Sorted Permutation.
Import ListNotations.

Local Open Scope Z_scope.

(** ** Python values that the modules exchange *)

Module Py.

(** The exception classes that the embedded functions can raise. *)
Inductive exn : Type :=
| AssertionError
| TypeError
| ValueError
| KeyError
| IndexError
| OverflowError.

(** A Python call either returns a value or raises. *)
Inductive result (A : Type) : Type :=
| Ok (a : A)
| Raise (e : exn).

Arguments Ok {A} a.
Arguments Raise {A} e.

Definition bind {A B : Type} (r : result A) (k : A -> result B) : result B :=
  match r with
  | Ok a => k a
  | Raise e => Raise e
  end.

Definition is_ok {A : Type} (r : result A) : bool :=
  match r with
  | Ok _ => true
  | Raise _ => false
  end.

(** [mapM f l] runs [f] on the elements from left to right and stops at the
    first one that raises. *)
Fixpoint mapM {A B : Type} (f : A -> result B) (l : list A) : result (list B) :=
  match l with
  | [] => Ok []
  | a :: l' =>
      bind (f a) (fun b => bind (mapM f l') (fun bs => Ok (b :: bs)))
  end.

(** A [str] is its sequence of characters: here the code points below 256,
    one [ascii] each. *)
Definition str : Type := list ascii.

Definition lit (s : string) : str := list_ascii_of_string s.

(** The code points below 256 that [str.split()] and [str.isspace()] treat
    as white space: TAB, LF, VT, FF, CR, FS, GS, RS, US and the blank, then
    NEL (U+0085) and the no-break space (U+00A0). *)
Definition is_space (c : ascii) : bool :=
  let n := nat_of_ascii c in
  ((9 <=? n) && (n <=? 13) || (28 <=? n) && (n <=? 32)
   || (n =? 133) || (n =? 160))%nat.

(** [s.split()]: the maximal runs of characters that are not white space.
    [cur] is the token being read. *)
Fixpoint split_from (cur : str) (s : str) : list str :=
  match s with
  | [] => match cur with [] => [] | _ => [cur] end
  | c :: s' =>
      if is_space c
      then match cur with [] => split_from [] s' | _ => cur :: split_from [] s' end
      else split_from (cur ++ [c]) s'
  end.

Definition split (s : str) : list str := split_from [] s.

(** [sep.join(parts)]. *)
Fixpoint join (sep : str) (parts : list str) : str :=
  match parts with
  | [] => []
  | [p] => p
  | p :: ps => p ++ sep ++ join sep ps
  end.

(** *** [str(n)] for an integer *)

Definition digit_char (d : Z) : ascii := ascii_of_nat (48 + Z.to_nat d).

(** The decimal digits of [n >= 0], most significant first, pushed in front
    of [acc].  [fuel] bounds the number of digits. *)
Fixpoint digits_from (fuel : nat) (n : Z) (acc : str) : str :=
  match fuel with
  | O => acc
  | S fuel' =>
      let acc' := digit_char (n mod 10) :: acc in
      if n / 10 =? 0 then acc' else digits_from fuel' (n / 10) acc'
  end.

Definition str_of_nonneg (n : Z) : str :=
  digits_from (S (Z.to_nat (Z.log2 n))) n [].

Definition str_of_int (n : Z) : str :=
  if n <? 0 then "-"%char :: str_of_nonneg (- n) else str_of_nonneg n.

(** *** [int(s)] for a token without white space

    An optional sign, then decimal digits in which single underscores may
    separate digits. *)

Definition digit_of (c : ascii) : option Z :=
  let n := nat_of_ascii c in
  if ((48 <=? n) && (n <=? 57))%nat then Some (Z.of_nat n - 48) else None.

Fixpoint int_digits (acc : Z) (after_digit : bool) (s : str) : option Z :=
  match s with
  | [] => if after_digit then Some acc else None
  | c :: s' =>
      if Ascii.eqb c "_"%char
      then (if after_digit then int_digits acc false s' else None)
      else match digit_of c with
           | Some d => int_digits (acc * 10 + d) true s'
           | None => None
           end
  end.

Definition int_of_str (s : str) : option Z :=
  match s with
  | c :: s' =>
      if Ascii.eqb c "-"%char then option_map Z.opp (int_digits 0 false s')
      else if Ascii.eqb c "+"%char then int_digits 0 false s'
      else int_digits 0 false s
  | [] => None
  end.

(** *** 64-bit signed integers, the [int] dtype of numpy *)

Definition int64_min : Z := - 2 ^ 63.
Definition int64_max : Z := 2 ^ 63 - 1.

Definition in_int64 (z : Z) : bool := (int64_min <=? z) && (z <=? int64_max).

(** Two's complement wrap-around of an arithmetic result. *)
Definition wrap64 (z : Z) : Z := (z + 2 ^ 63) mod 2 ^ 64 - 2 ^ 63.

End Py.

(** ** The mask codec of [cigarette_butt_segmentation/lib/utils.py] *)

Module MaskCodec.
Import Py.

(** A two-dimensional numpy array of integers: its shape and its elements in
    row-major order, which is what [flatten] and [reshape] exchange. *)
Record ndarray : Type := mk_ndarray {
  nd_rows : nat;
  nd_cols : nat;
  nd_data : list Z
}.

Definition nd_wf (a : ndarray) : Prop :=
  length (nd_data a) = (nd_rows a * nd_cols a)%nat.

Definition shape (a : ndarray) : Z * Z :=
  (Z.of_nat (nd_rows a), Z.of_nat (nd_cols a)).

(** [a[::2]] *)
Fixpoint stride2 {A : Type} (l : list A) : list A :=
  match l with
  | [] => []
  | [a] => [a]
  | a :: _ :: l' => a :: stride2 l'
  end.

Fixpoint zip_with {A B C : Type} (f : A -> B -> C) (l : list A) (m : list B)
  : list C :=
  match l, m with
  | a :: l', b :: m' => f a b :: zip_with f l' m'
  | _, _ => []
  end.

(** [np.where(bs)[0]] counted from [i]. *)
Fixpoint where_from (i : Z) (bs : list bool) : list Z :=
  match bs with
  | [] => []
  | true :: bs' => i :: where_from (i + 1) bs'
  | false :: bs' => where_from (i + 1) bs'
  end.

(** [np.where(pixels[1:] != pixels[:-1])[0] + 1] *)
Definition boundaries (pixels : list Z) : list Z :=
  map (fun i => i + 1)
      (where_from 0 (zip_with (fun a b => negb (a =? b))
                              (tl pixels) (removelast pixels))).

(** The list with the elements of [evens] at the even and those of [odds] at
    the odd positions. *)
Fixpoint interleave {A : Type} (evens odds : list A) : list A :=
  match evens, odds with
  | e :: evens', o :: odds' => e :: o :: interleave evens' odds'
  | _, _ => evens
  end.

(** [runs[1::2] -= runs[::2]].  The right-hand side must broadcast to the
    shape of the left-hand side: equal lengths, or a single element. *)
Definition subtract_starts (runs : list Z) : result (list Z) :=
  let starts := stride2 runs in
  let ends := stride2 (tl runs) in
  if (length starts =? length ends)%nat
  then Ok (interleave starts (zip_with Z.sub ends starts))
  else if (length starts =? 1)%nat
       then Ok (interleave starts (map (fun e => e - hd 0 starts) ends))
       else Raise ValueError.

Definition encode_rle (mask : ndarray) : result str :=
  let pixels := nd_data mask in
  let pixels := [0] ++ pixels ++ [0] in
  let runs := boundaries pixels in
  bind (subtract_starts runs) (fun runs =>
  Ok (join (lit " ") (map str_of_int runs))).

(** [np.asarray(tokens, dtype=int)]: every token goes through [int()] and
    must fit the 64-bit element. *)
Definition int64_of_token (tok : str) : result Z :=
  match int_of_str tok with
  | None => Raise ValueError
  | Some z => if in_int64 z then Ok z else Raise OverflowError
  end.

Definition asarray_int (tokens : list str) : result (list Z) :=
  mapM int64_of_token tokens.

(** [a + b] on one-dimensional int64 arrays, with numpy's broadcasting. *)
Definition add_int64 (a b : list Z) : result (list Z) :=
  if (length a =? length b)%nat
  then Ok (zip_with (fun x y => wrap64 (x + y)) a b)
  else if (length a =? 1)%nat
       then Ok (map (fun y => wrap64 (hd 0 a + y)) b)
       else if (length b =? 1)%nat
            then Ok (map (fun x => wrap64 (x + hd 0 b)) a)
            else Raise ValueError.

(** A bound of the slice [img[low:high]] on an array of [n] elements: a
    negative bound counts from the end, and the result is clipped to
    [0..n]. *)
Definition slice_bound (n : Z) (i : Z) : Z :=
  let i := if i <? 0 then i + n else i in
  Z.max 0 (Z.min n i).

(** [img[low:high] = v] *)
Definition assign_slice (img : list Z) (low high : Z) (v : Z) : list Z :=
  let n := Z.of_nat (length img) in
  let lo := slice_bound n low in
  let hi := slice_bound n high in
  firstn (Z.to_nat lo) img
    ++ repeat v (Z.to_nat (hi - lo))
    ++ skipn (Z.to_nat (Z.max lo hi)) img.

Definition paint (img : list Z) (spans : list (Z * Z)) : list Z :=
  fold_left (fun img span => assign_slice img (fst span) (snd span) 255)
            spans img.

(** [np.zeros(n, dtype=np.uint8)] *)
Definition zeros (n : Z) : result (list Z) :=
  if n <? 0 then Raise ValueError else Ok (repeat 0 (Z.to_nat n)).

(** [img.reshape(shape)] for an array that has [shape[0]*shape[1]]
    elements: numpy takes a negative entry for the one dimension to infer,
    which fails here both for two of them and next to a zero. *)
Definition reshape (img : list Z) (shape : Z * Z) : result ndarray :=
  if (fst shape <? 0) || (snd shape <? 0)
  then Raise ValueError
  else Ok (mk_ndarray (Z.to_nat (fst shape)) (Z.to_nat (snd shape)) img).

Definition decode_rle (rle_mask : str) (shape : Z * Z) : result ndarray :=
  let s := split rle_mask in
  bind (asarray_int (stride2 s)) (fun starts =>
  bind (asarray_int (stride2 (tl s))) (fun lengths =>
  let starts := map (fun x => wrap64 (x - 1)) starts in
  bind (add_int64 starts lengths) (fun ends =>
  bind (zeros (fst shape * snd shape)) (fun img =>
  let img := paint img (combine starts ends) in
  reshape img shape)))).

(** The mask with every foreground pixel set to 255. *)
Definition binarize (mask : ndarray) : ndarray :=
  mk_ndarray (nd_rows mask) (nd_cols mask)
             (map (fun p => if p =? 0 then 0 else 255) (nd_data mask)).

(** All pixels are [0] or [v]. *)
Definition two_valued (v : Z) (mask : ndarray) : Prop :=
  Forall (fun p => p = 0 \/ p = v) (nd_data mask).

End MaskCodec.

(** ** Floating-point arithmetic

    The numeric code is written once over the operations of numpy's
    [float64] and read in two ways: [ieee] computes with the binary64
    numbers themselves, rounding and special values included; [exact]
    computes in the real numbers, which is what the float operations
    approximate. *)

Module Num.

Class Arith (F : Type) : Type := {
  of_Z : Z -> F;
  add : F -> F -> F;
  sub : F -> F -> F;
  mul : F -> F -> F;
  div : F -> F -> F;
  sqrt : F -> F;
  ltb : F -> F -> bool;
  eqb : F -> F -> bool;
  is_nan : F -> bool;
  is_inf : F -> bool
}.

(** The binary64 number nearest to an integer. *)
Definition float_of_Z (z : Z) : float :=
  SF2Prim (binary_normalize prec emax z 0 false).

#[export] Instance ieee : Arith float := {
  of_Z := float_of_Z;
  add := PrimFloat.add;
  sub := PrimFloat.sub;
  mul := PrimFloat.mul;
  div := PrimFloat.div;
  sqrt := PrimFloat.sqrt;
  ltb := PrimFloat.ltb;
  eqb := PrimFloat.eqb;
  is_nan := PrimFloat.is_nan;
  is_inf := PrimFloat.is_infinity
}.

(** Exact arithmetic has no NaN and no infinity; what a division by zero
    gives is only told by [ieee]. *)
#[export] Instance exact : Arith R := {
  of_Z := IZR;
  add := Rplus;
  sub := Rminus;
  mul := Rmult;
  div := Rdiv;
  sqrt := R_sqrt.sqrt;
  ltb := fun x y => if Rlt_dec x y then true else false;
  eqb := fun x y => if Req_dec_T x y then true else false;
  is_nan := fun _ => false;
  is_inf := fun _ => false
}.

Definition zero {F : Type} `{Arith F} : F := of_Z 0.

(** [a.sum()] of a one-dimensional array, accumulated from the left.  numpy
    adds long arrays in pairwise blocks, which is the same number in exact
    arithmetic and may round differently in binary64. *)
Definition sum {F : Type} `{Arith F} (l : list F) : F :=
  fold_left add l zero.

(** [x ** 2] *)
Definition square {F : Type} `{Arith F} (x : F) : F := mul x x.

End Num.

(** ** Binary64 numbers as real numbers

    The notions in which the rounding of the primitive operations is
    stated. *)

Module Binary64.

(** [2 ^ e] for an integer exponent. *)
Definition bpow (e : Z) : R := powerRZ 2 e.

(** [fexp] and the lowest exponent [emin] of binary64. *)
Definition fexp64 (e : Z) : Z := Z.max (e - 53) (-1074).

(** The sign of the number is not set: a zero, a positive finite number or
    the positive infinity. *)
Definition nonneg (f : spec_float) : Prop :=
  match f with
  | S754_zero _ => True
  | S754_finite s _ _ => s = false
  | S754_infinity s => s = false
  | S754_nan => False
  end.

(** The value of a number that is not negative; the infinity counts as
    [2 ^ 1024], which is above every finite number. *)
Definition value (f : spec_float) : R :=
  match f with
  | S754_finite _ m e => (IZR (Z.pos m) * bpow e)%R
  | S754_infinity _ => bpow 1024
  | _ => 0%R
  end.

(** Where [x] lies between [m * u] and [(m + 1) * u], as the round and
    sticky bits of a shifted mantissa tell it. *)
Definition located (x : R) (mrs : shr_record) (u : R) : Prop :=
  let m := IZR (shr_m mrs) in
  (0 <= shr_m mrs)
  /\ match shr_r mrs, shr_s mrs with
     | false, false => x = (m * u)%R
     | false, true => (m * u < x < (m + / 2) * u)%R
     | true, false => x = ((m + / 2) * u)%R
     | true, true => ((m + / 2) * u < x < (m + 1) * u)%R
     end.

(** A rounding of [x >= 0] that does not step over a binary64 number. *)
Definition rounds (x : R) (r : spec_float) : Prop :=
  forall f, valid_binary f = true ->
    ((value f <= x)%R -> (value f <= value r)%R)
    /\ ((x <= value f)%R -> (value r <= value f)%R).

(** [r] is a binary64 number nearest to [x >= 0]. *)
Definition nearest (x : R) (r : spec_float) : Prop :=
  forall f, valid_binary f = true ->
    (Rabs (x - value r) <= Rabs (x - value f))%R.

(** The sign [sx] of a number that is not a NaN. *)
Definition signed (sx : bool) (f : spec_float) : Prop :=
  match f with
  | S754_zero s | S754_infinity s | S754_finite s _ _ => s = sx
  | S754_nan => False
  end.

(** A zero or a finite number, of any sign. *)
Definition finite (f : spec_float) : Prop :=
  match f with
  | S754_zero _ | S754_finite _ _ _ => True
  | _ => False
  end.

(** A number that no comparison finds below zero: its sign is not set, or
    it is a NaN. *)
Definition not_negative (f : spec_float) : Prop :=
  f = S754_nan \/ signed false f.

(** The same notions for the primitive numbers. *)
Definition fval (f : float) : R := value (Prim2SF f).
Definition fnonneg (f : float) : Prop := nonneg (Prim2SF f).
Definition ffinite (f : float) : Prop := finite (Prim2SF f).
Definition fnot_negative (f : float) : Prop := not_negative (Prim2SF f).

End Binary64.

(** ** The dice score of [cigarette_butt_segmentation/lib/metrics.py] *)

Module Metrics.
Import Py MaskCodec Num.

Section Dice.
Context {F : Type} `{Arith F}.

(** [EPS = 1e-10]: in binary64 the quotient of 1 by 10^10, both of which
    are binary64 numbers, is the number nearest to 10^-10, the value of the
    literal. *)
Definition EPS : F := div (of_Z 1) (of_Z (10 ^ 10)).

(** [mask.astype(bool)] *)
Definition astype_bool (mask : ndarray) : list bool :=
  map (fun p => negb (p =? 0)) (nd_data mask).

(** [b.sum()] of a boolean array: the number of [True] entries. *)
Definition count_true (b : list bool) : Z :=
  Z.of_nat (length (filter (fun x => x) b)).

(** The length that two axes broadcast to. *)
Definition broadcast_axis (a b : nat) : option nat :=
  if (a =? b)%nat then Some a
  else if (a =? 1)%nat then Some b
  else if (b =? 1)%nat then Some a
  else None.

(** The entry at row [i], column [j] of a boolean array of shape
    [rows x cols] that is read at a broadcast shape. *)
Definition broadcast_get (rows cols : nat) (b : list bool) (i j : nat) : bool :=
  nth ((if (rows =? 1)%nat then 0 else i) * cols
       + (if (cols =? 1)%nat then 0 else j))%nat b false.

(** [true & pred] on the boolean arrays, in row-major order. *)
Definition logical_and (t p : ndarray) : result (list bool) :=
  let tb := astype_bool t in
  let pb := astype_bool p in
  if ((nd_rows t =? nd_rows p) && (nd_cols t =? nd_cols p))%nat
  then Ok (zip_with andb tb pb)
  else
    match broadcast_axis (nd_rows t) (nd_rows p),
          broadcast_axis (nd_cols t) (nd_cols p) with
    | Some rows, Some cols =>
        Ok (flat_map (fun i =>
              map (fun j =>
                     broadcast_get (nd_rows t) (nd_cols t) tb i j
                     && broadcast_get (nd_rows p) (nd_cols p) pb i j)
                  (seq 0 cols))
              (seq 0 rows))
    | _, _ => Raise ValueError
    end.

Definition dice (true pred : ndarray) : result F :=
  bind (logical_and true pred) (fun both =>
  let intersection := count_true both in
  let im_sum := count_true (astype_bool true) + count_true (astype_bool pred) in
  Ok (div (mul (of_Z 2) (of_Z intersection)) (add (of_Z im_sum) EPS))).

(** The arguments that [get_dice] is called with. *)
Inductive pyobj : Type :=
| PyList (items : list ndarray)
| PyArray (a : ndarray)
| PyTuple (items : list ndarray)
| PyNone.

Inductive pytype : Type := TList | TArray | TTuple | TNone.

Definition type_of (o : pyobj) : pytype :=
  match o with
  | PyList _ => TList
  | PyArray _ => TArray
  | PyTuple _ => TTuple
  | PyNone => TNone
  end.

Definition pytype_eqb (a b : pytype) : bool :=
  match a, b with
  | TList, TList | TArray, TArray | TTuple, TTuple | TNone, TNone => true
  | _, _ => false
  end.

(** [np.mean(l)] of a list of floats. *)
Definition mean (l : list F) : F :=
  div (sum l) (of_Z (Z.of_nat (length l))).

(** [dice(t, p) for t, p in zip(true, pred)] *)
Fixpoint dice_pairs (true pred : list ndarray) : result (list F) :=
  match true, pred with
  | t :: true', p :: pred' =>
      bind (dice t p) (fun d =>
      bind (dice_pairs true' pred') (fun ds => Ok (d :: ds)))
  | _, _ => Ok []
  end.

Definition get_dice (true pred : pyobj) : result F :=
  if negb (pytype_eqb (type_of true) (type_of pred))
  then Raise AssertionError
  else
    match true, pred with
    | PyList ts, PyList ps =>
        bind (dice_pairs ts ps) (fun ds => Ok (mean ds))
    | PyArray t, PyArray p => dice t p
    | _, _ => Raise TypeError
    end.

End Dice.
End Metrics.

(** ** Trajectories: [trajectory_prediction/lib] *)

Module Trajectory.
Import Py Num.
Import MaskCodec (zip_with).

Section Frames.
Context {F : Type} `{Arith F}.

(** A [pd.DataFrame] as its named columns, in their order.  In a well-formed
    frame all columns have the same number of rows. *)
Definition DataFrame : Type := list (string * list F).

Definition frame_wf (df : DataFrame) : Prop :=
  forall c d, In c df -> In d df -> length (snd c) = length (snd d).

(** [d[key]] and [key in d] for a dict with string keys. *)
Fixpoint dict_get (d : DataFrame) (key : string) : option (list F) :=
  match d with
  | [] => None
  | (k, v) :: d' => if String.eqb k key then Some v else dict_get d' key
  end.

Definition dict_mem (d : DataFrame) (key : string) : bool :=
  match dict_get d key with Some _ => true | None => false end.

(** [d[key] = v]: an existing key keeps its place. *)
Fixpoint dict_set (d : DataFrame) (key : string) (v : list F) : DataFrame :=
  match d with
  | [] => [(key, v)]
  | (k, w) :: d' =>
      if String.eqb k key then (k, v) :: d' else (k, w) :: dict_set d' key v
  end.

(** [df.loc[:, column].values] *)
Definition loc_values (df : DataFrame) (column : string) : result (list F) :=
  match dict_get df column with
  | Some v => Ok v
  | None => Raise KeyError
  end.

(** [pd.DataFrame(d)] for a dict of arrays, which must agree in length. *)
Definition same_lengths (d : DataFrame) : bool :=
  match d with
  | [] => true
  | (_, v) :: d' =>
      forallb (fun c => (length (snd c) =? length v)%nat) d'
  end.

Definition frame_of_dict (d : DataFrame) : result DataFrame :=
  if same_lengths d then Ok d else Raise ValueError.

(** *** [np.interp]

    numpy's piecewise-linear interpolation with the default [left] and
    [right], for sample points [xp] in increasing order, on which its search
    finds the last sample point that is not beyond [x]. *)

(** The last index [j >= i] counted from [i] whose sample point is not
    greater than [x], or [best] if there is none. *)
Fixpoint last_le (x : F) (xp : list F) (i best : nat) : nat :=
  match xp with
  | [] => best
  | a :: xp' => last_le x xp' (S i) (if ltb x a then best else i)
  end.

Definition interp_at (xp fp : list F) (x : F) : F :=
  let n := length xp in
  let left := nth 0 fp zero in
  let right := nth (n - 1) fp zero in
  if (n =? 1)%nat
  then if ltb x (nth 0 xp zero) then left
       else if ltb (nth 0 xp zero) x then right
       else nth 0 fp zero
  else if is_nan x then x
  else if ltb (nth (n - 1) xp zero) x then right
  else if ltb x (nth 0 xp zero) then left
  else
    let j := last_le x xp 0 0 in
    if (j =? n - 1)%nat then nth j fp zero
    else if eqb (nth j xp zero) x then nth j fp zero
    else
      let slope := div (sub (nth (S j) fp zero) (nth j fp zero))
                       (sub (nth (S j) xp zero) (nth j xp zero)) in
      let r := add (mul slope (sub x (nth j xp zero))) (nth j fp zero) in
      if is_nan r
      then
        let r' := add (mul slope (sub x (nth (S j) xp zero)))
                      (nth (S j) fp zero) in
        if is_nan r' && eqb (nth j fp zero) (nth (S j) fp zero)
        then nth j fp zero
        else r'
      else r.

Definition interp (x xp fp : list F) : result (list F) :=
  if (length xp =? 0)%nat then Raise ValueError
  else if negb (length fp =? length xp)%nat then Raise ValueError
  else Ok (map (interp_at xp fp) x).

(** *** [preprocess.py]

    [synchronize_trajectories] always passes the timestamps to interpolate
    on; the branch of [extend_arr] that builds them from [t_min] and [t_max]
    when [t_inter] is [None] is not part of this development. *)

Definition extend_arr (t arr t_inter : list F) : result (list F * list F) :=
  let extended_t := t_inter in
  bind (interp extended_t t arr) (fun extended_values =>
  Ok (extended_t, extended_values)).

(** The loop of [extend_data] over [extended_columns]. *)
Fixpoint extend_columns (data : DataFrame) (t : list F) (column_by : string)
    (t_inter : list F) (columns : list string) (extended_data : DataFrame)
  : result DataFrame :=
  match columns with
  | [] => Ok extended_data
  | column :: columns' =>
      bind (loc_values data column) (fun arr =>
      bind (extend_arr t arr t_inter) (fun ext =>
      let extended_data :=
        if dict_mem extended_data column_by then extended_data
        else dict_set extended_data column_by (fst ext) in
      let extended_data := dict_set extended_data column (snd ext) in
      extend_columns data t column_by t_inter columns' extended_data))
  end.

Definition extend_data (data : DataFrame) (column_by : string)
    (extended_columns : list string) (t_inter : list F) : result DataFrame :=
  bind (loc_values data column_by) (fun t =>
  bind (extend_columns data t column_by t_inter extended_columns [])
       frame_of_dict).

(** *** [postprocess.py] *)

Definition synchronize_trajectories (trajectory_true trajectory_pred : DataFrame)
    (t_column : string) (coordinate_columns : list string)
  : result (DataFrame * DataFrame) :=
  bind (loc_values trajectory_true t_column) (fun t_true =>
  bind (extend_data trajectory_pred t_column coordinate_columns t_true)
       (fun trajectory_pred =>
  Ok (trajectory_true, trajectory_pred))).

(** [coordinate_columns[i]] *)
Definition column_name (coordinate_columns : list string) (i : nat)
  : result string :=
  match nth_error coordinate_columns i with
  | Some c => Ok c
  | None => Raise IndexError
  end.

(** [np.sqrt((x1 - x2) ** 2 + (y1 - y2) ** 2)] *)
Definition distance (x1 x2 y1 y2 : F) : F :=
  sqrt (add (square (sub x1 x2)) (square (sub y1 y2))).

(** [np.cumsum(l)] with the running total [acc] of the elements before. *)
Fixpoint cumsum_from (acc : F) (l : list F) : list F :=
  match l with
  | [] => []
  | a :: l' => add acc a :: cumsum_from (add acc a) l'
  end.

(** [np.cumsum(l)] of a non-empty array: the first element starts the total. *)
Definition cumsum (l : list F) : list F :=
  match l with
  | [] => []
  | a :: l' => a :: cumsum_from a l'
  end.

(** The lengths of the segments between consecutive points. *)
Definition segments (xs ys : list F) : list F :=
  zip_with (fun p q => distance (fst p) (fst q) (snd p) (snd q))
           (combine (removelast xs) (removelast ys))
           (combine (tl xs) (tl ys)).

Definition straighten_trajectories (trajectory_true trajectory_pred : DataFrame)
    (coordinate_columns : list string) : result (list F * list F) :=
  bind (column_name coordinate_columns 0) (fun cx =>
  bind (loc_values trajectory_true cx) (fun x_true =>
  bind (column_name coordinate_columns 1) (fun cy =>
  bind (loc_values trajectory_true cy) (fun y_true =>
  bind (loc_values trajectory_pred cx) (fun x_pred =>
  bind (loc_values trajectory_pred cy) (fun y_pred =>
  if negb (length x_true =? length x_pred)%nat then Raise ValueError
  else
    let y := zip_with (fun p t => distance (fst p) (fst t) (snd p) (snd t))
                      (combine x_pred y_pred) (combine x_true y_true) in
    let x := cumsum (zero :: segments x_true y_true) in
    Ok (x, y))))))).

(** The frame holds a trajectory of [n] samples: the timestamp column and
    the coordinate columns are there and have [n] rows. *)
Definition has_columns (df : DataFrame) (t_column : string)
    (coordinate_columns : list string) (n : nat) : Prop :=
  (exists t, loc_values df t_column = Ok t /\ length t = n)
  /\ (forall c, In c coordinate_columns ->
        exists v, loc_values df c = Ok v /\ length v = n).

(** All columns of the frame have [n] rows. *)
Definition all_rows (n : nat) (df : DataFrame) : Prop :=
  Forall (fun c => length (snd c) = n) df.

End Frames.
End Trajectory.

(** ** The trajectory metrics of [trajectory_prediction/lib/metrics.py] *)

Module TrajectoryMetrics.
Import Py Num Trajectory.
Import MaskCodec (zip_with).

Section Scores.
Context {F : Type} `{Arith F}.

(** [sklearn.metrics.mean_squared_error] on one-dimensional inputs: they
    must agree in length, be non-empty and hold finite numbers. *)
Definition mean_squared_error (y_true y_pred : list F) : result F :=
  if negb (length y_true =? length y_pred)%nat then Raise ValueError
  else if (length y_true =? 0)%nat then Raise ValueError
  else if existsb (fun v => is_nan v || is_inf v) (y_true ++ y_pred)
       then Raise ValueError
       else Ok (Metrics.mean
                  (zip_with (fun t p => square (sub t p)) y_true y_pred)).

(** What [rmse] is called with: two frames or two array-likes. *)
Inductive data : Type :=
| Frame (df : DataFrame (F := F))
| Array (a : list F)
| ListData (l : list F)
| TupleData (l : list F).

Inductive data_type : Type := TFrame | TArray | TList | TTuple.

Definition data_type_of (d : data) : data_type :=
  match d with
  | Frame _ => TFrame
  | Array _ => TArray
  | ListData _ => TList
  | TupleData _ => TTuple
  end.

Definition data_type_eqb (a b : data_type) : bool :=
  match a, b with
  | TFrame, TFrame | TArray, TArray | TList, TList | TTuple, TTuple => true
  | _, _ => false
  end.

Definition values (d : data) : list F :=
  match d with
  | Frame _ => []
  | Array a => a
  | ListData l => l
  | TupleData l => l
  end.

Definition rmse (true_data pred_data : data) (t_column : string)
    (coordinate_columns : list string) : result F :=
  if negb (data_type_eqb (data_type_of true_data) (data_type_of pred_data))
  then Raise TypeError
  else
    bind
      match true_data, pred_data with
      | Frame true_df, Frame pred_df =>
          bind (synchronize_trajectories true_df pred_df t_column
                                         coordinate_columns) (fun synced =>
          let true_df := fst synced in
          let pred_df := snd synced in
          bind (column_name coordinate_columns 0) (fun cx =>
          bind (loc_values true_df cx) (fun x_true =>
          bind (column_name coordinate_columns 1) (fun cy =>
          bind (loc_values true_df cy) (fun y_true =>
          bind (loc_values pred_df cx) (fun x_pred =>
          bind (loc_values pred_df cy) (fun y_pred =>
          let pred_data :=
            zip_with (fun p t => distance (fst p) (fst t) (snd p) (snd t))
                     (combine x_pred y_pred) (combine x_true y_true) in
          let true_data := repeat zero (length y_pred) in
          Ok (true_data, pred_data))))))))
      | _, _ => Ok (values true_data, values pred_data)
      end
      (fun tp =>
       bind (mean_squared_error (fst tp) (snd tp)) (fun mse => Ok (sqrt mse))).

(** [((y[1:] + y[:-1]) / 2 * (x[1:] - x[:-1])).sum()] *)
Definition trapezoids (x y : list F) : list F :=
  zip_with mul
    (map (fun s => div s (of_Z 2)) (zip_with add (tl y) (removelast y)))
    (zip_with sub (tl x) (removelast x)).

Definition mie (trajectory_true trajectory_pred : DataFrame)
    (t_column : string) (coordinate_columns : list string) : result F :=
  bind (synchronize_trajectories trajectory_true trajectory_pred t_column
                                 coordinate_columns) (fun synced =>
  bind (straighten_trajectories (fst synced) (snd synced) coordinate_columns)
       (fun xy =>
  let x := fst xy in
  let y := snd xy in
  match x with
  | [] => Raise IndexError
  | _ => Ok (div (sum (trapezoids x y)) (last x zero))
  end)).

End Scores.
End TrajectoryMetrics.

(** ** Runs of a mask

    Notions in which the properties of the codec are stated. *)

Module MaskRuns.

(** The boundaries paired up: [(runs[0], runs[1]), (runs[2], runs[3]), ...]. *)
Fixpoint pairs_of (bs : list Z) : list (Z * Z) :=
  match bs with
  | s :: e :: bs' => (s, e) :: pairs_of bs'
  | _ => []
  end.

(** [scan prev i l] lists the positions, counted from [i], of the elements of
    [l] that differ from their predecessor, [prev] being the predecessor of
    the first. *)
Fixpoint scan (prev : Z) (i : Z) (l : list Z) : list Z :=
  match l with
  | [] => []
  | x :: l' =>
      if negb (x =? prev) then i :: scan x (i + 1) l' else scan x (i + 1) l'
  end.

(** Boundaries in increasing order. *)
Inductive increasing : list Z -> Prop :=
| increasing_nil : increasing []
| increasing_cons (b : Z) (bs : list Z) :
    Forall (fun c => b < c) bs -> increasing bs -> increasing (b :: bs).

(** Whether position [k] lies in one of the half-open spans. *)
Definition covered (spans : list (Z * Z)) (k : Z) : bool :=
  existsb (fun span => (fst span <=? k) && (k <? snd span)) spans.

(** Whether position [k] is inside a run, for boundaries at which the mask
    changes between background and foreground; [inside] tells where it is
    before the first boundary. *)
Fixpoint lit_at (inside : bool) (bs : list Z) (k : Z) : bool :=
  match bs with
  | [] => inside
  | b :: bs' => if k <? b then inside else lit_at (negb inside) bs' k
  end.

(** Whether a pixel is foreground. *)
Definition nz (p : Z) : bool := negb (p =? 0).

(** Whether index [k] of an array of [n] elements is in [img[low:high]]. *)
Definition in_slice (n k : Z) (span : Z * Z) : bool :=
  (MaskCodec.slice_bound n (fst span) <=? k)
  && (k <? MaskCodec.slice_bound n (snd span)).

(** The string that [encode_rle] writes for given boundaries. *)
Definition rle_string (bs : list Z) : Py.str :=
  Py.join (Py.lit " ")
       (map Py.str_of_int
            (MaskCodec.interleave (map fst (pairs_of bs))
                        (map (fun span => snd span - fst span) (pairs_of bs)))).

(** The integers [s1 l1 s2 l2 ...] of a list of (start, length) pairs. *)
Definition flatten_pairs (pairs : list (Z * Z)) : list Z :=
  flat_map (fun p => [fst p; snd p]) pairs.


End MaskRuns.

(** ** Sample inputs *)

Module Samples.
Import MaskCodec.

Definition mask_2x2 : ndarray := mk_ndarray 2 2 [0; 0; 0; 255].

(** The same foreground pixel, written as 1 and as 255. *)
Definition mask_fg1 : ndarray := mk_ndarray 1 2 [0; 1].
Definition mask_fg255 : ndarray := mk_ndarray 1 2 [0; 255].

Definition mask_zero_2x2 : ndarray := mk_ndarray 2 2 [0; 0; 0; 0].

Definition mask_pixel : ndarray := mk_ndarray 1 1 [255].

End Samples.

Module TrajectorySamples.
Import Num Trajectory.
Local Open Scope string_scope.

Definition floats (l : list Z) : list float := map float_of_Z l.

(** Ground truth sampled at the timestamps 0, 1, 2, 3. *)
Definition truth_0123 : DataFrame (F := float) :=
  [("tmsp", floats [0; 1; 2; 3]);
   ("x", floats [0; 1; 2; 3]);
   ("y", floats [0; 0; 0; 0])].

(** A prediction from (0, 0) at time 0 to (3, 3) at time 3. *)
Definition pred_03 : DataFrame (F := float) :=
  [("tmsp", floats [0; 3]); ("x", floats [0; 3]); ("y", floats [0; 3])].

Definition synced_03 : DataFrame (F := float) :=
  [("tmsp", floats [0; 1; 2; 3]);
   ("x", floats [0; 1; 2; 3]);
   ("y", floats [0; 1; 2; 3])].

(** A ground truth of a single sample. *)
Definition truth_single : DataFrame (F := float) :=
  [("tmsp", floats [0]); ("x", floats [5]); ("y", floats [7])].

(** A ground truth that stays at one point. *)
Definition truth_still : DataFrame (F := float) :=
  [("tmsp", floats [0; 1; 2]); ("x", floats [5; 5; 5]); ("y", floats [7; 7; 7])].

(** A prediction without samples. *)
Definition pred_empty : DataFrame (F := float) :=
  [("tmsp", []); ("x", []); ("y", [])].

End TrajectorySamples.

(** ** The format of an encoding *)

Module RunFormat.

(** (start, length) runs in ascending order with at least one position
    between the end of a run and the start of the next. *)
Inductive separated : list (Z * Z) -> Prop :=
| separated_nil : separated []
| separated_cons (r : Z * Z) (rs : list (Z * Z)) :
    Forall (fun r' => fst r + snd r < fst r') rs ->
    separated rs -> separated (r :: rs).

(** Whether the 1-indexed position [k] lies in one of the runs. *)
Definition in_runs (runs : list (Z * Z)) (k : Z) : bool :=
  existsb (fun r => (fst r <=? k) && (k <? fst r + snd r)) runs.

(** A mask of three pixel values. *)
Definition mask_three_values : MaskCodec.ndarray :=
  MaskCodec.mk_ndarray 1 2 [1; 2].

(** The mask with every pixel value [x] replaced by [g x]. *)
Definition relabel (g : Z -> Z) (mask : MaskCodec.ndarray) : MaskCodec.ndarray :=
  MaskCodec.mk_ndarray (MaskCodec.nd_rows mask) (MaskCodec.nd_cols mask)
                       (map g (MaskCodec.nd_data mask)).


End RunFormat.


(** ** [get_scores] of [trajectory_prediction/lib/metrics.py] *)

Module Scores.
Import Py Num Trajectory TrajectoryMetrics.
Local Open Scope string_scope.

(** The dict literal [{"rmse": rmse(...), "mie": mie(...)}] for two frames:
    its values are computed in this order. *)
Definition get_scores {F : Type} `{Arith F}
    (trajectory_true trajectory_pred : DataFrame (F := F))
    (t_column : string) (coordinate_columns : list string)
  : result (list (string * F)) :=
  bind (rmse (Frame trajectory_true) (Frame trajectory_pred)
             t_column coordinate_columns) (fun r =>
  bind (mie trajectory_true trajectory_pred t_column coordinate_columns)
       (fun m =>
  Ok [("rmse", r); ("mie", m)])).

End Scores.


(** ** What [extend_data] builds *)

Module FrameContent.
Import Py Num Trajectory.

Section Content.
Context {F : Type} `{Arith F}.

(** What a dict built by the loop of [extend_data] can hold: the timestamps
    under [column_by], and under a listed column its interpolation. *)
Definition extended_content (data : DataFrame (F := F)) (t : list F)
    (column_by : string) (t_inter : list F) (listed : list string)
    (d : DataFrame (F := F)) : Prop :=
  forall c v, dict_get d c = Some v ->
    (c = column_by /\ v = t_inter)
    \/ (In c listed
        /\ exists arr, loc_values data c = Ok arr
                       /\ v = map (interp_at t arr) t_inter).

End Content.
End FrameContent.

Module ExactSamples.
Import Num Trajectory.
Local Open Scope string_scope.


End ExactSamples.


(** ** [word2vec/lib/tagger.py] and [word2vec/lib/lemmatizer.py] *)

Module Morph.
Import Py.
Local Open Scope string_scope.

(** The text of a token or of a sentence: a [str] as its sequence of code
    points.  Grammemes and notation tags are ASCII identifiers. *)
Definition text : Type := list N.

(** The objects that the taggers are called with: a [str], an object that
    is neither a [str] nor iterable (an [int]), or a list of objects. *)
#[warnings="-register-all"]
Inductive value : Type :=
| VStr (s : text)
| VInt (z : Z)
| VList (l : list value).

(** One parse of the pymorphy2 analyzer: [word], [normal_form], [tag.POS]
    and the set [tag.grammemes]. *)
Record Parse : Type := mk_Parse {
  word : text;
  normal_form : text;
  POS : option string;
  grammemes : list string
}.

(** The dict that [Pymorphy2Tagger.transform_token] returns. *)
Record Tagged : Type := mk_Tagged {
  tagged_initial_form : text;
  tagged_normal_form : text;
  tagged_pos_tag : option string;
  tagged_ner_tag : option string
}.

Definition _opencorpora_ners : list string :=
  ["Name"; "Surn"; "Patr"; "Geox"; "Orgn"; "Trad"; "Abbr"].

(** The keys are grammemes or [None], the values notation tags or [None]. *)
Definition _map_to_PLO_notation : list (option string * option string) :=
  [(Some "Name", Some "PER");
   (Some "Surn", Some "PER");
   (Some "Patr", Some "PER");
   (Some "Geox", Some "LOC");
   (Some "Orgn", Some "ORG");
   (Some "Trad", Some "ORG");
   (Some "Abbr", Some "ORG");
   (None, None)].

Definition key_eqb (a b : option string) : bool :=
  match a, b with
  | Some x, Some y => String.eqb x y
  | None, None => true
  | _, _ => false
  end.

(** [d[key]]: a missing key raises [KeyError]. *)
Fixpoint getitem (d : list (option string * option string))
    (key : option string) : result (option string) :=
  match d with
  | [] => Raise KeyError
  | (k, v) :: d' => if key_eqb k key then Ok v else getitem d' key
  end.

(** [s.intersection(t)]: the elements of the set [s] that are in [t]. *)
Definition intersection (s t : list string) : list string :=
  filter (fun x => existsb (String.eqb x) t) s.

Section Engine.

(** [self._pymorphy2_engine.parse]: the parses of a token, best first. *)
Variable parse : text -> list Parse.

(** [list(s)] for a set [s] of strings: its elements in the order in which
    the interpreter iterates over the set. *)
Variable list_of_set : list string -> list string.

(** [Pymorphy2Tagger.transform_token]. *)
Definition transform_token (token : value) : result Tagged :=
  match token with
  | VStr s =>
      match parse s with
      | [] => Raise IndexError
      | first :: _ =>
          let token_raw_ner_tag :=
            intersection _opencorpora_ners (grammemes first) in
          bind (match token_raw_ner_tag with
                | [] => Ok None
                | _ :: _ =>
                    match list_of_set token_raw_ner_tag with
                    | [] => Raise IndexError
                    | g :: _ => Ok (Some g)
                    end
                end) (fun token_raw_ner_tag =>
          bind (getitem _map_to_PLO_notation token_raw_ner_tag) (fun ner =>
          Ok (mk_Tagged (word first) (normal_form first) (POS first) ner)))
      end
  | _ => Raise AssertionError
  end.

(** The list comprehension [[f(x) for x in xs]]: a [str] is iterated by
    character, which the callers exclude beforehand, and an [int] is not
    iterable. *)
Definition comprehension {A : Type} (f : value -> result A) (xs : value)
  : result (list A) :=
  match xs with
  | VList l => mapM f l
  | VInt _ => Raise TypeError
  | VStr s => mapM f (map (fun c => VStr [c]) s)
  end.

(** [Pymorphy2Tagger.transform_string]. *)
Definition transform_string (tokenized_string : value) : result (list Tagged) :=
  match tokenized_string with
  | VStr _ => Raise TypeError
  | _ => comprehension transform_token tokenized_string
  end.

(** [Pymorphy2Tagger.transform]. *)
Definition transform (tokenized_collection : value)
  : result (list (list Tagged)) :=
  comprehension transform_string tokenized_collection.

(** [Pymorphy2Lemmatizer.transform_token]: the entry ["normal_form"] of the
    tagger's dict. *)
Definition lemma_of_token (token : value) : result text :=
  match token with
  | VStr _ => bind (transform_token token) (fun t => Ok (tagged_normal_form t))
  | _ => Raise AssertionError
  end.

(** [Pymorphy2Lemmatizer.transform_string]. *)
Definition lemmas_of_string (tokenized_string : value) : result (list text) :=
  match tokenized_string with
  | VStr _ => Raise TypeError
  | _ => comprehension lemma_of_token tokenized_string
  end.

(** [Pymorphy2Lemmatizer.transform]. *)
Definition lemmas_of_collection (tokenized_collection : value)
  : result (list (list text)) :=
  comprehension lemmas_of_string tokenized_collection.

End Engine.

(** The fields that a tagged token takes from the first parse. *)
Definition tagged_from (first : Parse) (t : Tagged) : Prop :=
  tagged_initial_form t = word first
  /\ tagged_normal_form t = normal_form first
  /\ tagged_pos_tag t = POS first.

(** A collection of tokenized sentences as the list of lists of [str] that
    [transform] expects. *)
Definition tokenized (sentences : list (list text)) : value :=
  VList (map (fun tokens => VList (map VStr tokens)) sentences).

(** An analyzer with one parse per token, for which every token is a first
    name of itself. *)
Definition parse_as_name (s : text) : list Parse :=
  [mk_Parse s s (Some "NOUN") ["NOUN"; "anim"; "masc"; "Name"; "sing"; "nomn"]].

(** Two tokenized sentences, of two tokens and of one. *)
Definition two_sentences : list (list text) :=
  [[[1040; 1085; 1085; 1072]; [1048; 1074; 1072; 1085]];
   [[1054; 1083; 1077; 1075]]]%N.

End Morph.



(** * Properties *)

(** ** Strings and integers *)

Module PyFacts.
Import Py.

Lemma bind_ok {A B : Type} (r : result A) (k : A -> result B) (b : B) :
  bind r k = Ok b -> exists a, r = Ok a /\ k a = Ok b.
Proof. destruct r as [a|e]; simpl; [eauto | discriminate]. Qed.

Lemma mapM_ok {A B : Type} (f : A -> result B) (g : A -> B) (l : list A) :
  (forall a, In a l -> f a = Ok (g a)) -> mapM f l = Ok (map g l).
Proof.
  induction l as [|a l IH]; intros Hf; simpl; [reflexivity|].
  rewrite (Hf a) by (left; reflexivity). simpl.
  rewrite IH by (intros; apply Hf; right; assumption). reflexivity.
Qed.


(** A failing element makes the whole conversion fail. *)
Lemma mapM_raises {A B : Type} (f : A -> result B) (l : list A) (a : A) :
  In a l -> is_ok (f a) = false -> is_ok (mapM f l) = false.
Proof.
  induction l as [|x l IH]; simpl; [contradiction|].
  intros [->|Hin] Ha.
  - destruct (f a); [discriminate | reflexivity].
  - destruct (f x); simpl; [|reflexivity].
    specialize (IH Hin Ha). destruct (mapM f l); [discriminate | reflexivity].
Qed.


(** *** Decimal digits *)

Definition is_digit (c : ascii) : Prop := exists d, 0 <= d < 10 /\ c = digit_char d.

Ltac ten_cases d H :=
  assert (d = 0 \/ d = 1 \/ d = 2 \/ d = 3 \/ d = 4 \/ d = 5 \/ d = 6
          \/ d = 7 \/ d = 8 \/ d = 9) as H by lia;
  repeat (destruct H as [H|H]); subst d.

Lemma digit_of_char (d : Z) : 0 <= d < 10 -> digit_of (digit_char d) = Some d.
Proof. intros Hd. ten_cases d H; reflexivity. Qed.

Lemma digit_not_underscore (d : Z) :
  0 <= d < 10 -> Ascii.eqb (digit_char d) "_"%char = false.
Proof. intros Hd. ten_cases d H; reflexivity. Qed.

Lemma digit_not_space (c : ascii) : is_digit c -> is_space c = false.
Proof. intros [d [Hd ->]]. ten_cases d H; reflexivity. Qed.

Lemma digit_not_sign (c : ascii) :
  is_digit c -> Ascii.eqb c "-"%char = false /\ Ascii.eqb c "+"%char = false.
Proof. intros [d [Hd ->]]. ten_cases d H; split; reflexivity. Qed.

Lemma digits_from_app (fuel : nat) (n : Z) (acc : str) :
  digits_from fuel n acc = digits_from fuel n [] ++ acc.
Proof.
  revert n acc. induction fuel as [|fuel IH]; intros n acc; simpl; [reflexivity|].
  destruct (n / 10 =? 0); [reflexivity|].
  rewrite (IH _ (_ :: acc)), (IH _ [_]), <- app_assoc. reflexivity.
Qed.

Lemma digits_from_digits (fuel : nat) (n : Z) :
  Forall is_digit (digits_from fuel n []).
Proof.
  revert n. induction fuel as [|fuel IH]; intros n; simpl; [constructor|].
  assert (Hd : is_digit (digit_char (n mod 10))).
  { exists (n mod 10). split; [apply Z.mod_pos_bound; lia | reflexivity]. }
  destruct (n / 10 =? 0); [repeat constructor; assumption|].
  rewrite digits_from_app. apply Forall_app. split; [apply IH|].
  repeat constructor; assumption.
Qed.

Lemma digits_from_nonempty (fuel : nat) (n : Z) :
  digits_from (S fuel) n [] <> [].
Proof.
  simpl. destruct (n / 10 =? 0); [discriminate|].
  rewrite digits_from_app. intros Hnil. apply app_eq_nil in Hnil.
  destruct Hnil as [_ Hnil]. discriminate.
Qed.

Lemma int_digits_digit (a d : Z) (b : bool) (rest : str) :
  0 <= d < 10 ->
  int_digits a b (digit_char d :: rest) = int_digits (a * 10 + d) true rest.
Proof. intros Hd. ten_cases d H; reflexivity. Qed.

(** Reading back the digits of [n] continues with [n] read. *)
Lemma int_digits_from (fuel : nat) :
  forall (n : Z) (b : bool) (rest : str),
    0 <= n < 2 ^ Z.of_nat (S fuel) ->
    int_digits 0 b (digits_from (S fuel) n [] ++ rest) = int_digits n true rest.
Proof.
  induction fuel as [|fuel IH]; intros n b rest Hn.
  - change (2 ^ Z.of_nat 1) with 2 in Hn.
    assert (Hq : n / 10 = 0) by (apply Z.div_small; lia).
    assert (Hm : n mod 10 = n) by (apply Z.mod_small; lia).
    cbn [digits_from]. rewrite Hq, Hm. cbn [Z.eqb app].
    rewrite int_digits_digit by lia. reflexivity.
  - remember (S fuel) as f eqn:Hf.
    assert (Hmod : 0 <= n mod 10 < 10) by (apply Z.mod_pos_bound; lia).
    cbn [digits_from]. destruct (n / 10 =? 0) eqn:Hq.
    + apply Z.eqb_eq in Hq.
      assert (Hm : n mod 10 = n).
      { pose proof (Z.div_mod n 10 ltac:(lia)). lia. }
      rewrite Hm. cbn [app].
      rewrite int_digits_digit by lia. reflexivity.
    + apply Z.eqb_neq in Hq.
      rewrite digits_from_app, <- app_assoc. subst f.
      rewrite IH.
      * cbn [app]. rewrite int_digits_digit by assumption.
        f_equal. pose proof (Z.div_mod n 10 ltac:(lia)). lia.
      * assert (Hdiv : 0 <= n / 10) by (apply Z.div_pos; lia).
        split; [assumption|].
        apply Z.div_lt_upper_bound; [lia|].
        replace (Z.of_nat (S (S fuel))) with (Z.succ (Z.of_nat (S fuel)))
          in Hn by lia.
        rewrite Z.pow_succ_r in Hn by lia. lia.
Qed.

Lemma str_of_nonneg_fuel (n : Z) :
  0 <= n -> n < 2 ^ Z.of_nat (S (Z.to_nat (Z.log2 n))).
Proof.
  intros Hn.
  replace (Z.of_nat (S (Z.to_nat (Z.log2 n)))) with (Z.succ (Z.log2 n))
    by (pose proof (Z.log2_nonneg n); lia).
  destruct (Z.eq_dec n 0) as [->|Hne]; [reflexivity|].
  apply Z.log2_spec. lia.
Qed.

Lemma str_of_int_digits (n : Z) : 0 <= n -> Forall is_digit (str_of_int n).
Proof.
  intros Hn. unfold str_of_int.
  destruct (n <? 0) eqn:Hlt; [apply Z.ltb_lt in Hlt; lia|].
  apply digits_from_digits.
Qed.

Lemma str_of_int_nonempty (n : Z) : 0 <= n -> str_of_int n <> [].
Proof.
  intros Hn. unfold str_of_int.
  destruct (n <? 0) eqn:Hlt; [apply Z.ltb_lt in Hlt; lia|].
  apply digits_from_nonempty.
Qed.

(** [int(str(n)) == n] *)
Lemma int_of_str_of_int (n : Z) : 0 <= n -> int_of_str (str_of_int n) = Some n.
Proof.
  intros Hn.
  pose proof (str_of_int_digits n Hn) as Hd.
  pose proof (str_of_int_nonempty n Hn) as Hne.
  unfold int_of_str. destruct (str_of_int n) as [|c s] eqn:Hs; [congruence|].
  inversion Hd as [|? ? Hc _]; subst.
  destruct (digit_not_sign c Hc) as [-> ->].
  rewrite <- Hs. unfold str_of_int.
  destruct (n <? 0) eqn:Hlt; [apply Z.ltb_lt in Hlt; lia|].
  unfold str_of_nonneg.
  rewrite <- (app_nil_r (digits_from _ n [])).
  rewrite int_digits_from by (split; [assumption | apply str_of_nonneg_fuel; assumption]).
  reflexivity.
Qed.

(** *** [split] after [join] *)

Definition is_token (t : str) : Prop :=
  t <> [] /\ Forall (fun c => is_space c = false) t.

Lemma split_from_token (w cur rest : str) :
  Forall (fun c => is_space c = false) w ->
  split_from cur (w ++ rest) = split_from (cur ++ w) rest.
Proof.
  revert cur. induction w as [|c w IH]; intros cur Hw; simpl.
  - rewrite app_nil_r. reflexivity.
  - inversion Hw as [|? ? Hc Hw']; subst. rewrite Hc, IH by assumption.
    rewrite <- app_assoc. reflexivity.
Qed.

Lemma split_join (toks : list str) :
  Forall is_token toks -> split (join (lit " ") toks) = toks.
Proof.
  unfold split. induction toks as [|t toks IH]; intros Htoks; [reflexivity|].
  inversion Htoks as [|? ? [Hne Hsp] Htoks']; subst.
  destruct toks as [|t' toks].
  - pose proof (split_from_token t [] [] Hsp) as Ht.
    rewrite app_nil_r in Ht. cbn [join]. rewrite Ht. cbn [app split_from].
    destruct t; [congruence | reflexivity].
  - change (join (lit " ") (t :: t' :: toks))
      with (t ++ lit " " ++ join (lit " ") (t' :: toks)).
    rewrite split_from_token by assumption.
    change (lit " " ++ join (lit " ") (t' :: toks))
      with (" "%char :: join (lit " ") (t' :: toks)).
    cbn [app split_from]. change (is_space " ") with true. cbv iota.
    rewrite IH by assumption. destruct t; [congruence | reflexivity].
Qed.

Lemma str_of_int_token (n : Z) : 0 <= n -> is_token (str_of_int n).
Proof.
  intros Hn. split; [apply str_of_int_nonempty; assumption|].
  eapply Forall_impl; [|apply str_of_int_digits; assumption].
  intros c Hc. apply digit_not_space; assumption.
Qed.

End PyFacts.

(** ** The mask codec *)

Module MaskCodecFacts.
Import Py PyFacts MaskCodec MaskRuns.

(** *** Lists taken two elements at a time *)

Lemma pair_induction {A : Type} (P : list A -> Prop) :
  P [] -> (forall a, P [a]) -> (forall a b l, P l -> P (a :: b :: l)) ->
  forall l, P l.
Proof.
  intros Hnil Hone Hstep.
  fix rec 1. intros [|a [|b l]]; [exact Hnil | apply Hone | apply Hstep, rec].
Qed.

Lemma stride2_map {A B : Type} (f : A -> B) (l : list A) :
  stride2 (map f l) = map f (stride2 l).
Proof.
  induction l as [| |a b l IH] using pair_induction; simpl; congruence.
Qed.

Lemma stride2_even_lengths (bs : list Z) :
  Nat.even (length bs) = true ->
  length (stride2 bs) = length (stride2 (tl bs)).
Proof.
  induction bs as [| |a b l IH] using pair_induction; simpl; intros Hev;
    [reflexivity | discriminate |].
  destruct l as [|c l]; [reflexivity|].
  simpl in IH |- *. f_equal. apply IH. assumption.
Qed.

Lemma combine_stride2 (bs : list Z) :
  combine (stride2 bs) (stride2 (tl bs)) = pairs_of bs.
Proof.
  induction bs as [| |a b l IH] using pair_induction; simpl; try reflexivity.
  destruct l as [|c l]; [reflexivity|]. simpl in IH |- *. f_equal. exact IH.
Qed.

Lemma stride2_interleave {A : Type} (evens odds : list A) :
  length evens = length odds ->
  stride2 (interleave evens odds) = evens
  /\ stride2 (tl (interleave evens odds)) = odds.
Proof.
  revert odds. induction evens as [|e evens IH]; intros [|o odds] Hlen;
    try discriminate; [split; reflexivity|].
  injection Hlen as Hlen. destruct (IH odds Hlen) as [He Ho].
  cbn [interleave tl]. split.
  - cbn [stride2]. rewrite He. reflexivity.
  - destruct evens as [|e' evens]; destruct odds as [|o' odds];
      try discriminate; [reflexivity|].
    cbn [interleave tl] in Ho.
    change (o :: stride2 (o' :: interleave evens odds) = o :: o' :: odds).
    f_equal. exact Ho.
Qed.


(** *** The boundaries of a mask *)

Lemma where_from_scan (l : list Z) : forall (prev z i : Z),
  where_from i (zip_with (fun a b => negb (a =? b)) (l ++ [z]) (prev :: l))
  = scan prev i (l ++ [z]).
Proof.
  induction l as [|x l IH]; intros prev z i; cbn [app zip_with scan where_from].
  - destruct (negb (z =? prev)); reflexivity.
  - rewrite <- IH. destruct (negb (x =? prev)); reflexivity.
Qed.

Lemma scan_shift (l : list Z) : forall (prev i : Z),
  map (fun b => b + 1) (scan prev i l) = scan prev (i + 1) l.
Proof.
  induction l as [|x l IH]; intros prev i; cbn [scan]; [reflexivity|].
  destruct (negb (x =? prev)); cbn [map]; rewrite IH; reflexivity.
Qed.

Lemma boundaries_scan (p : list Z) :
  boundaries ([0] ++ p ++ [0]) = scan 0 1 (p ++ [0]).
Proof.
  unfold boundaries. cbn [app tl].
  change (0 :: p ++ [0]) with ((0 :: p) ++ [0]).
  rewrite removelast_last, where_from_scan. apply scan_shift.
Qed.

Lemma scan_bounds (l : list Z) : forall (prev i : Z),
  Forall (fun b => i <= b < i + Z.of_nat (length l)) (scan prev i l).
Proof.
  induction l as [|x l IH]; intros prev i; cbn [scan]; [constructor|].
  assert (Hrest : Forall (fun b => i <= b < i + Z.of_nat (length (x :: l)))
                         (scan x (i + 1) l)).
  { eapply Forall_impl; [|apply IH]. cbn [length]. intros b Hb. lia. }
  destruct (negb (x =? prev)); [constructor|]; try assumption.
  cbn [length]. lia.
Qed.

Lemma scan_increasing (l : list Z) : forall (prev i : Z),
  increasing (scan prev i l).
Proof.
  induction l as [|x l IH]; intros prev i; cbn [scan]; [constructor|].
  destruct (negb (x =? prev)); [|apply IH].
  constructor; [|apply IH].
  eapply Forall_impl; [|apply (scan_bounds l x (i + 1))].
  intros b Hb. cbn beta in Hb. lia.
Qed.

(** *** Inside and outside of runs *)

Lemma lit_at_before (inside : bool) (bs : list Z) (k : Z) :
  Forall (fun b => k < b) bs -> lit_at inside bs k = inside.
Proof.
  intros Hbs. destruct bs as [|b bs]; [reflexivity|].
  inversion Hbs as [|? ? Hb _]; subst. cbn [lit_at].
  destruct (k <? b) eqn:Hk; [reflexivity | apply Z.ltb_ge in Hk; lia].
Qed.

Lemma covered_before (bs : list Z) (k : Z) :
  Forall (fun b => k < b) bs -> covered (pairs_of bs) k = false.
Proof.
  induction bs as [| |s e bs IH] using pair_induction; intros Hbs;
    try reflexivity.
  inversion Hbs as [|? ? Hs Hbs']; subst.
  inversion Hbs' as [|? ? He Hbs'']; subst.
  unfold covered in *. cbn [pairs_of existsb fst snd].
  rewrite IH by assumption.
  destruct (s <=? k) eqn:Hsk; [apply Z.leb_le in Hsk; lia | reflexivity].
Qed.

(** For increasing boundaries the spans between them are the runs. *)
Lemma lit_at_covered (bs : list Z) (k : Z) :
  increasing bs -> Nat.even (length bs) = true ->
  lit_at false bs k = covered (pairs_of bs) k.
Proof.
  induction bs as [| |s e bs IH] using pair_induction; intros Hinc Hev;
    [reflexivity | discriminate |].
  inversion Hinc as [|? ? Hs Hinc']; subst.
  inversion Hinc' as [|? ? He Hinc'']; subst.
  inversion Hs as [|? ? Hse Hs']; subst.
  unfold covered. cbn [pairs_of existsb fst snd lit_at negb].
  fold (covered (pairs_of bs) k).
  destruct (k <? s) eqn:Hks.
  - apply Z.ltb_lt in Hks.
    rewrite covered_before.
    + destruct (s <=? k) eqn:Hsk; [apply Z.leb_le in Hsk; lia | reflexivity].
    + eapply Forall_impl; [|exact Hs']. intros c Hc. cbn beta in Hc. lia.
  - apply Z.ltb_ge in Hks.
    destruct (s <=? k) eqn:Hsk; [|apply Z.leb_gt in Hsk; lia].
    destruct (k <? e) eqn:Hke; [reflexivity|].
    cbn [andb orb]. apply IH; assumption.
Qed.

Lemma nz_two_valued (v x prev : Z) :
  v <> 0 -> (x = 0 \/ x = v) -> (prev = 0 \/ prev = v) ->
  negb (x =? prev) = xorb (nz x) (nz prev).
Proof.
  unfold nz. intros Hv [->| ->] [->| ->];
    rewrite ?Z.eqb_refl; cbn [negb xorb];
    repeat match goal with
           | |- context [?a =? ?b] =>
               let E := fresh in
               destruct (a =? b) eqn:E;
               [apply Z.eqb_eq in E | apply Z.eqb_neq in E]
           end; cbn [negb xorb]; congruence.
Qed.

(** The boundaries of a two-valued list tell of every position whether it
    is foreground. *)
Lemma lit_at_scan (v : Z) (l : list Z) : v <> 0 ->
  Forall (fun p => p = 0 \/ p = v) l ->
  forall (prev i k : Z),
    (prev = 0 \/ prev = v) ->
    i <= k < i + Z.of_nat (length l) ->
    lit_at (nz prev) (scan prev i l) k = nz (nth (Z.to_nat (k - i)) l 0).
Proof.
  intros Hv Hl. induction Hl as [|x l Hx Hl IH]; intros prev i k Hprev Hk.
  - cbn [length] in Hk. lia.
  - cbn [scan]. rewrite (nz_two_valued v) by assumption.
    assert (Hlater : Forall (fun b => i < b) (scan x (i + 1) l)).
    { eapply Forall_impl; [|apply (scan_bounds l x (i + 1))].
      intros b Hb. cbn beta in Hb. lia. }
    destruct (Z.eq_dec k i) as [->|Hne].
    + rewrite Z.sub_diag. cbn [Z.to_nat nth].
      destruct (xorb (nz x) (nz prev)) eqn:Hch.
      * cbn [lit_at]. rewrite Z.ltb_irrefl, lit_at_before by assumption.
        destruct (nz x), (nz prev); cbn in Hch |- *; congruence.
      * rewrite lit_at_before by assumption.
        destruct (nz x), (nz prev); cbn in Hch |- *; congruence.
    + assert (Hnth : nth (Z.to_nat (k - i)) (x :: l) 0
                     = nth (Z.to_nat (k - (i + 1))) l 0).
      { replace (Z.to_nat (k - i)) with (S (Z.to_nat (k - (i + 1)))) by lia.
        reflexivity. }
      rewrite Hnth. cbn [length] in Hk.
      assert (Hk' : i + 1 <= k < i + 1 + Z.of_nat (length l)) by lia.
      destruct (xorb (nz x) (nz prev)) eqn:Hch.
      * cbn [lit_at].
        destruct (k <? i) eqn:Hki; [apply Z.ltb_lt in Hki; lia|].
        replace (negb (nz prev)) with (nz x)
          by (destruct (nz x), (nz prev); cbn in Hch |- *; congruence).
        apply IH; assumption.
      * replace (nz prev) with (nz x)
          by (destruct (nz x), (nz prev); cbn in Hch |- *; congruence).
        apply IH; assumption.
Qed.

Lemma last_cons {A : Type} (l : list A) : forall (x d : A),
  last (x :: l) d = last l x.
Proof.
  induction l as [|y l IHl]; intros x d; [reflexivity|].
  change (last (x :: y :: l) d) with (last (y :: l) d).
  rewrite (IHl y d), (IHl y x). reflexivity.
Qed.

(** A list that starts and ends in the background has an even number of
    boundaries. *)
Lemma scan_parity (v : Z) (l : list Z) : v <> 0 ->
  Forall (fun p => p = 0 \/ p = v) l ->
  forall (prev i : Z),
    (prev = 0 \/ prev = v) ->
    Nat.odd (length (scan prev i l)) = xorb (nz prev) (nz (last l prev)).
Proof.
  intros Hv Hl. induction Hl as [|x l Hx Hl IH]; intros prev i Hprev.
  - cbn. destruct (nz prev); reflexivity.
  - cbn [scan]. rewrite (nz_two_valued v) by assumption.
    rewrite last_cons. specialize (IH x (i + 1) Hx).
    destruct (xorb (nz x) (nz prev)) eqn:Hch.
    + cbn [length]. rewrite Nat.odd_succ, <- Nat.negb_odd, IH.
      destruct (nz x), (nz prev), (nz (last l x)); cbn in Hch |- *; congruence.
    + rewrite IH.
      destruct (nz x), (nz prev), (nz (last l x)); cbn in Hch |- *; congruence.
Qed.

Lemma scan_even (v : Z) (p : list Z) : v <> 0 ->
  Forall (fun x => x = 0 \/ x = v) p ->
  Nat.even (length (scan 0 1 (p ++ [0]))) = true.
Proof.
  intros Hv Hp. rewrite <- Nat.negb_odd.
  assert (Hp0 : Forall (fun x => x = 0 \/ x = v) (p ++ [0])).
  { apply Forall_app. split; [assumption|]. constructor; [left; reflexivity|].
    constructor. }
  rewrite (scan_parity v (p ++ [0]) Hv Hp0 0 1 (or_introl eq_refl)).
  rewrite last_last. reflexivity.
Qed.

(** *** Slice assignment *)

Lemma slice_bound_range (n i : Z) : 0 <= n -> 0 <= slice_bound n i <= n.
Proof. intros Hn. unfold slice_bound. destruct (i <? 0); lia. Qed.

Lemma slice_bound_id (n i : Z) : 0 <= i <= n -> slice_bound n i = i.
Proof.
  intros Hi. unfold slice_bound.
  destruct (i <? 0) eqn:Hlt; [apply Z.ltb_lt in Hlt; lia | lia].
Qed.

Lemma assign_slice_length (img : list Z) (low high v : Z) :
  length (assign_slice img low high v) = length img.
Proof.
  unfold assign_slice.
  pose proof (slice_bound_range (Z.of_nat (length img)) low ltac:(lia)) as Hlo.
  pose proof (slice_bound_range (Z.of_nat (length img)) high ltac:(lia)) as Hhi.
  rewrite !length_app, length_firstn, repeat_length, length_skipn. lia.
Qed.

Lemma assign_slice_nth (img : list Z) (low high v d : Z) (k : nat) :
  (k < length img)%nat ->
  nth k (assign_slice img low high v) d
  = if in_slice (Z.of_nat (length img)) (Z.of_nat k) (low, high)
    then v else nth k img d.
Proof.
  intros Hk. unfold assign_slice, in_slice. cbn [fst snd].
  set (n := Z.of_nat (length img)).
  pose proof (slice_bound_range n low ltac:(lia)) as Hlo.
  pose proof (slice_bound_range n high ltac:(lia)) as Hhi.
  set (lo := slice_bound n low) in *. set (hi := slice_bound n high) in *.
  assert (Hlen1 : length (firstn (Z.to_nat lo) img) = Z.to_nat lo).
  { rewrite length_firstn. lia. }
  destruct (lo <=? Z.of_nat k) eqn:Hlok.
  - apply Z.leb_le in Hlok.
    rewrite app_nth2 by lia. rewrite Hlen1.
    destruct (Z.of_nat k <? hi) eqn:Hkhi; cbn [andb].
    + apply Z.ltb_lt in Hkhi.
      rewrite app_nth1 by (rewrite repeat_length; lia).
      apply nth_repeat_lt. lia.
    + apply Z.ltb_ge in Hkhi.
      rewrite app_nth2 by (rewrite repeat_length; lia).
      rewrite repeat_length, nth_skipn. f_equal. lia.
  - apply Z.leb_gt in Hlok. cbn [andb].
    rewrite app_nth1 by lia. rewrite nth_firstn.
    destruct (k <? Z.to_nat lo)%nat eqn:Hlt; [reflexivity|].
    apply Nat.ltb_ge in Hlt. lia.
Qed.

Lemma paint_length (spans : list (Z * Z)) : forall (img : list Z),
  length (paint img spans) = length img.
Proof.
  unfold paint. induction spans as [|sp spans IH]; intros img; [reflexivity|].
  cbn [fold_left]. rewrite IH. apply assign_slice_length.
Qed.

(** After painting, a pixel is 255 if one of the slices holds it, and is
    unchanged otherwise. *)
Lemma paint_nth (spans : list (Z * Z)) : forall (img : list Z) (d : Z) (k : nat),
  (k < length img)%nat ->
  nth k (paint img spans) d
  = if existsb (in_slice (Z.of_nat (length img)) (Z.of_nat k)) spans
    then 255 else nth k img d.
Proof.
  unfold paint. induction spans as [|sp spans IH]; intros img d k Hk;
    [reflexivity|].
  destruct sp as [low high]. cbn [fold_left existsb fst snd].
  rewrite IH by (rewrite assign_slice_length; exact Hk).
  rewrite assign_slice_length, assign_slice_nth by exact Hk.
  destruct (in_slice (Z.of_nat (length img)) (Z.of_nat k) (low, high));
    cbn [orb]; [|reflexivity].
  destruct (existsb _ spans); reflexivity.
Qed.


(** *** The spans of an even number of increasing boundaries *)

Lemma stride2_pairs (bs : list Z) :
  Nat.even (length bs) = true ->
  stride2 bs = map fst (pairs_of bs)
  /\ stride2 (tl bs) = map snd (pairs_of bs).
Proof.
  induction bs as [| |s e bs IH] using pair_induction; intros Hev;
    [split; reflexivity | discriminate |].
  destruct (IH Hev) as [IHs IHe]. cbn [pairs_of map fst snd tl]. split.
  - cbn [stride2]. rewrite IHs. reflexivity.
  - destruct bs as [|c bs]; [reflexivity|].
    cbn [tl] in IHe. cbn [stride2]. rewrite IHe. reflexivity.
Qed.

Lemma pairs_of_ordered (lo hi : Z) (bs : list Z) :
  increasing bs -> Forall (fun b => lo <= b <= hi) bs ->
  Forall (fun span => lo <= fst span < snd span /\ snd span <= hi)
         (pairs_of bs).
Proof.
  induction bs as [| |s e bs IH] using pair_induction; intros Hinc Hb;
    try constructor.
  - inversion Hinc as [|? ? Hs _]; subst.
    inversion Hs as [|? ? Hse _]; subst.
    inversion Hb as [|? ? Hbs Hb']; subst.
    inversion Hb' as [|? ? Hbe _]; subst.
    cbn [fst snd]. lia.
  - inversion Hinc as [|? ? _ Hinc']; subst.
    inversion Hinc' as [|? ? _ Hinc'']; subst.
    inversion Hb as [|? ? _ Hb']; subst.
    inversion Hb' as [|? ? _ Hb'']; subst.
    apply IH; assumption.
Qed.

Lemma zip_with_map {A B C D : Type} (f : B -> C -> D) (g : A -> B) (h : A -> C)
    (l : list A) :
  zip_with f (map g l) (map h l) = map (fun a => f (g a) (h a)) l.
Proof. induction l as [|a l IH]; simpl; congruence. Qed.

Lemma combine_map {A B C : Type} (g : A -> B) (h : A -> C) (l : list A) :
  combine (map g l) (map h l) = map (fun a => (g a, h a)) l.
Proof. induction l as [|a l IH]; simpl; congruence. Qed.

Lemma tl_map {A B : Type} (f : A -> B) (l : list A) :
  tl (map f l) = map f (tl l).
Proof. destruct l; reflexivity. Qed.

Lemma wrap64_id (z : Z) : int64_min <= z <= int64_max -> wrap64 z = z.
Proof.
  unfold int64_min, int64_max, wrap64. intros Hz.
  change (2 ^ 63) with 9223372036854775808 in *.
  change (2 ^ 64) with 18446744073709551616.
  rewrite Z.mod_small; lia.
Qed.

Lemma in_int64_true (z : Z) : int64_min <= z <= int64_max -> in_int64 z = true.
Proof.
  intros Hz. unfold in_int64.
  apply andb_true_intro. split; apply Z.leb_le; lia.
Qed.

(** [np.asarray] reads back the integers that [str] wrote. *)
Lemma asarray_int_str (xs : list Z) :
  Forall (fun x => 0 <= x <= int64_max) xs ->
  asarray_int (map str_of_int xs) = Ok xs.
Proof.
  unfold asarray_int. induction 1 as [|x xs Hx Hxs IH]; [reflexivity|].
  cbn [map mapM]. unfold int64_of_token at 1.
  rewrite int_of_str_of_int by lia.
  rewrite in_int64_true by (unfold int64_min; lia).
  cbn [bind]. rewrite IH. reflexivity.
Qed.

(** The spans that [decode_rle] paints for the runs of [encode_rle]. *)
Lemma decoded_spans (hi : Z) (ps : list (Z * Z)) :
  hi <= int64_max ->
  Forall (fun span => 1 <= fst span < snd span /\ snd span <= hi) ps ->
  let starts := map (fun x => wrap64 (x - 1)) (map fst ps) in
  let lengths := map (fun span => snd span - fst span) ps in
  add_int64 starts lengths = Ok (map (fun span => snd span - 1) ps)
  /\ starts = map (fun span => fst span - 1) ps.
Proof.
  intros Hhi Hps starts lengths.
  assert (Hstarts : starts = map (fun span => fst span - 1) ps).
  { subst starts. rewrite map_map. apply map_ext_in. intros sp Hin.
    rewrite Forall_forall in Hps. specialize (Hps sp Hin).
    apply wrap64_id. unfold int64_min, int64_max in *. lia. }
  split; [|exact Hstarts].
  unfold add_int64. rewrite Hstarts. subst lengths.
  rewrite !length_map, Nat.eqb_refl, zip_with_map.
  f_equal. apply map_ext_in. intros sp Hin.
  rewrite Forall_forall in Hps. specialize (Hps sp Hin).
  rewrite wrap64_id; unfold int64_min, int64_max in *; lia.
Qed.

Lemma in_slice_shifted (n : Z) (k : nat) (ps : list (Z * Z)) :
  0 <= n ->
  Forall (fun span => 1 <= fst span < snd span /\ snd span <= n + 1) ps ->
  existsb (in_slice n (Z.of_nat k))
          (map (fun span => (fst span - 1, snd span - 1)) ps)
  = covered ps (Z.of_nat k + 1).
Proof.
  intros Hn. unfold covered. induction 1 as [|sp ps Hsp Hps IH]; [reflexivity|].
  cbn [map existsb]. rewrite IH. f_equal.
  unfold in_slice. cbn [fst snd]. rewrite !slice_bound_id by lia.
  destruct (fst sp - 1 <=? Z.of_nat k) eqn:H1;
    destruct (fst sp <=? Z.of_nat k + 1) eqn:H2;
    destruct (Z.of_nat k <? snd sp - 1) eqn:H3;
    destruct (Z.of_nat k + 1 <? snd sp) eqn:H4; try reflexivity;
    rewrite ?Z.leb_le, ?Z.leb_gt, ?Z.ltb_lt, ?Z.ltb_ge in *; lia.
Qed.

(** *** Encoding *)

Lemma encode_rle_two_valued (v : Z) (mask : ndarray) :
  v <> 0 -> two_valued v mask ->
  encode_rle mask = Ok (rle_string (scan 0 1 (nd_data mask ++ [0]))).
Proof.
  intros Hv Hmask. unfold encode_rle. rewrite boundaries_scan.
  set (bs := scan 0 1 (nd_data mask ++ [0])).
  assert (Hev : Nat.even (length bs) = true) by (apply (scan_even v); assumption).
  unfold subtract_starts.
  rewrite (stride2_even_lengths bs Hev), Nat.eqb_refl.
  destruct (stride2_pairs bs Hev) as [-> ->].
  rewrite zip_with_map. reflexivity.
Qed.

Lemma interleave_bounds (hi : Z) (ps : list (Z * Z)) :
  Forall (fun span => 1 <= fst span < snd span /\ snd span <= hi) ps ->
  Forall (fun x => 0 <= x <= hi)
         (interleave (map fst ps) (map (fun span => snd span - fst span) ps)).
Proof.
  induction 1 as [|sp ps Hsp Hps IH]; [constructor|].
  cbn [map interleave]. constructor; [lia|]. constructor; [lia | exact IH].
Qed.

(** Decoding what [encode_rle] wrote for boundaries [bs] paints the spans
    between them. *)
Lemma decode_rle_string (bs : list Z) (rows cols : nat) :
  let n := Z.of_nat (rows * cols) in
  n < int64_max ->
  increasing bs -> Nat.even (length bs) = true ->
  Forall (fun b => 1 <= b <= n + 1) bs ->
  decode_rle (rle_string bs) (Z.of_nat rows, Z.of_nat cols)
  = Ok (mk_ndarray rows cols
          (paint (repeat 0 (rows * cols))
                 (map (fun span => (fst span - 1, snd span - 1))
                      (pairs_of bs)))).
Proof.
  intros n Hn Hinc Hev Hb.
  pose proof (pairs_of_ordered 1 (n + 1) bs Hinc Hb) as Hps.
  set (ps := pairs_of bs) in *.
  pose proof (interleave_bounds (n + 1) ps Hps) as Hruns.
  assert (Hlen : length (map fst ps)
                 = length (map (fun span => snd span - fst span) ps))
    by (rewrite !length_map; reflexivity).
  destruct (stride2_interleave _ _ Hlen) as [Hstarts Hlengths].
  unfold decode_rle, rle_string. fold ps.
  rewrite split_join.
  2:{ apply Forall_forall. intros t Ht. apply in_map_iff in Ht.
      destruct Ht as [x [<- Hx]]. apply str_of_int_token.
      rewrite Forall_forall in Hruns. apply (Hruns x Hx). }
  rewrite tl_map, !stride2_map, Hstarts, Hlengths.
  rewrite !asarray_int_str.
  2:{ apply Forall_forall. intros x Hx. apply in_map_iff in Hx.
      destruct Hx as [sp [<- Hsp]]. rewrite Forall_forall in Hps.
      specialize (Hps sp Hsp). unfold int64_max in *. lia. }
  2:{ apply Forall_forall. intros x Hx. apply in_map_iff in Hx.
      destruct Hx as [sp [<- Hsp]]. rewrite Forall_forall in Hps.
      specialize (Hps sp Hsp). unfold int64_max in *. lia. }
  cbn [bind].
  destruct (decoded_spans (n + 1) ps ltac:(lia) Hps) as [Hends Hst].
  cbn zeta in Hends, Hst. rewrite Hends, Hst. cbn [bind fst snd].
  unfold zeros.
  destruct (Z.of_nat rows * Z.of_nat cols <? 0) eqn:Hneg;
    [apply Z.ltb_lt in Hneg; lia|].
  cbn [bind]. unfold reshape. cbn [fst snd].
  destruct (Z.of_nat rows <? 0) eqn:Hr; [apply Z.ltb_lt in Hr; lia|].
  destruct (Z.of_nat cols <? 0) eqn:Hc; [apply Z.ltb_lt in Hc; lia|].
  cbn [orb]. rewrite combine_map, !Nat2Z.id, <- Nat2Z.inj_mul, Nat2Z.id.
  reflexivity.
Qed.

(** The round trip: decoding the encoding of a two-valued mask at its shape
    gives the mask with the foreground at 255. *)
Lemma roundtrip_binarize (v : Z) (mask : ndarray) :
  v <> 0 -> nd_wf mask -> two_valued v mask ->
  Z.of_nat (length (nd_data mask)) < int64_max ->
  exists s, encode_rle mask = Ok s
            /\ decode_rle s (shape mask) = Ok (binarize mask).
Proof.
  intros Hv Hwf Hmask Hsize.
  exists (rle_string (scan 0 1 (nd_data mask ++ [0]))).
  split; [apply (encode_rle_two_valued v); assumption|].
  destruct mask as [rows cols p]. unfold nd_wf, two_valued, shape in *.
  cbn [nd_rows nd_cols nd_data] in *.
  set (bs := scan 0 1 (p ++ [0])).
  assert (Hp0 : Forall (fun x => x = 0 \/ x = v) (p ++ [0])).
  { apply Forall_app. split; [assumption|]. constructor; [left; reflexivity|].
    constructor. }
  assert (Hb : Forall (fun b => 1 <= b <= Z.of_nat (rows * cols) + 1) bs).
  { eapply Forall_impl; [|apply (scan_bounds (p ++ [0]) 0 1)].
    intros b Hb. cbn beta in Hb. rewrite length_app in Hb. cbn [length] in Hb.
    lia. }
  assert (Hinc : increasing bs) by apply scan_increasing.
  assert (Hev : Nat.even (length bs) = true) by (apply (scan_even v); assumption).
  rewrite decode_rle_string; try assumption; [|lia].
  unfold binarize. cbn [nd_rows nd_cols nd_data]. do 2 f_equal.
  apply (nth_ext _ _ 0 0).
  { rewrite paint_length, repeat_length, length_map. lia. }
  intros k Hk. rewrite paint_length, repeat_length in Hk.
  rewrite paint_nth by (rewrite repeat_length; exact Hk).
  rewrite repeat_length.
  rewrite in_slice_shifted
    by (try lia; apply pairs_of_ordered; assumption).
  rewrite <- lit_at_covered by assumption.
  assert (Hlit : lit_at false bs (Z.of_nat k + 1)
                 = nz (nth (Z.to_nat (Z.of_nat k + 1 - 1)) (p ++ [0]) 0)).
  { apply (lit_at_scan v (p ++ [0]) Hv Hp0 0 1 (Z.of_nat k + 1)
             (or_introl eq_refl)).
    rewrite length_app. cbn [length]. lia. }
  rewrite Hlit.
  replace (Z.to_nat (Z.of_nat k + 1 - 1)) with k by lia.
  rewrite app_nth1 by lia.
  rewrite nth_repeat.
  set (f := fun q : Z => if q =? 0 then 0 else 255).
  change (nth k (map f p) 0) with (nth k (map f p) (f 0)).
  rewrite map_nth. unfold f, nz. destruct (nth k p 0 =? 0); reflexivity.
Qed.

(** *** The round trip and injectivity *)

Lemma binarize_255 (mask : ndarray) : two_valued 255 mask -> binarize mask = mask.
Proof.
  destruct mask as [rows cols p]. unfold two_valued, binarize.
  cbn [nd_rows nd_cols nd_data]. intros Hp. f_equal.
  induction Hp as [|x p Hx Hp IH]; [reflexivity|].
  cbn [map]. rewrite IH. destruct Hx as [-> | ->]; reflexivity.
Qed.

Lemma binarize_injective (v : Z) (m1 m2 : ndarray) :
  v <> 0 -> two_valued v m1 -> two_valued v m2 ->
  binarize m1 = binarize m2 -> m1 = m2.
Proof.
  destruct m1 as [r1 c1 p1], m2 as [r2 c2 p2]. unfold two_valued, binarize.
  cbn [nd_rows nd_cols nd_data]. intros Hv H1 H2 [= -> -> Hmap]. f_equal.
  revert p2 H2 Hmap. induction H1 as [|x p1 Hx H1 IH]; intros [|y p2] H2 Hmap;
    try discriminate; [reflexivity|].
  inversion H2 as [|? ? Hy H2']; subst. cbn [map] in Hmap.
  injection Hmap as Hxy Hmap. f_equal; [|apply IH; assumption].
  assert (Hv0 : (v =? 0) = false) by (apply Z.eqb_neq; congruence).
  destruct Hx as [-> | ->], Hy as [-> | ->]; try reflexivity;
    rewrite ?Z.eqb_refl, ?Hv0 in Hxy; discriminate.
Qed.

Lemma scan_binarize (v : Z) (l : list Z) : v <> 0 ->
  Forall (fun p => p = 0 \/ p = v) l ->
  forall (prev i : Z), (prev = 0 \/ prev = v) ->
    scan (if prev =? 0 then 0 else 255) i
         (map (fun p => if p =? 0 then 0 else 255) l)
    = scan prev i l.
Proof.
  intros Hv Hl. induction Hl as [|x l Hx Hl IH]; intros prev i Hprev;
    [reflexivity|].
  cbn [map scan]. rewrite (IH x (i + 1) Hx).
  assert (Heq : ((if x =? 0 then 0 else 255) =? (if prev =? 0 then 0 else 255))
                = (x =? prev)).
  { assert (H0v : (0 =? v) = false) by (apply Z.eqb_neq; congruence).
    assert (Hv0 : (v =? 0) = false) by (apply Z.eqb_neq; congruence).
    destruct Hx as [-> | ->], Hprev as [-> | ->];
      rewrite ?Z.eqb_refl, ?H0v, ?Hv0, ?Z.eqb_refl; reflexivity. }
  rewrite Heq. reflexivity.
Qed.

(** The encoding depends on the foreground pixels only. *)
Lemma encode_rle_binarize (v : Z) (mask : ndarray) :
  v <> 0 -> two_valued v mask -> encode_rle (binarize mask) = encode_rle mask.
Proof.
  intros Hv Hmask.
  rewrite (encode_rle_two_valued v mask Hv Hmask).
  unfold encode_rle. rewrite boundaries_scan.
  destruct mask as [rows cols p]. unfold two_valued, binarize in *.
  cbn [nd_rows nd_cols nd_data] in *.
  assert (Hp0 : Forall (fun x => x = 0 \/ x = v) (p ++ [0])).
  { apply Forall_app. split; [assumption|]. constructor; [left; reflexivity|].
    constructor. }
  pose proof (scan_binarize v (p ++ [0]) Hv Hp0 0 1 (or_introl eq_refl)) as Hs.
  rewrite map_app in Hs. cbn [map] in Hs. change (0 =? 0) with true in Hs.
  cbv iota in Hs. rewrite Hs.
  set (bs := scan 0 1 (p ++ [0])).
  assert (Hev : Nat.even (length bs) = true) by (apply (scan_even v); assumption).
  unfold subtract_starts.
  rewrite (stride2_even_lengths bs Hev), Nat.eqb_refl.
  destruct (stride2_pairs bs Hev) as [-> ->].
  rewrite zip_with_map. reflexivity.
Qed.

Ltac two_valued_by_cases :=
  unfold two_valued; cbn [nd_data Samples.mask_2x2 Samples.mask_fg1
                          Samples.mask_fg255 Samples.mask_zero_2x2];
  repeat (apply Forall_cons; [first [left; reflexivity | right; reflexivity]|]);
  apply Forall_nil.

(** C1: for every two-valued mask with background 0, decoding the encoding
    at the shape of the mask gives the mask with its foreground pixels at
    255, which is the mask itself when its pixels are 0 and 255. *)
Theorem decode_encode_roundtrip (v : Z) (mask : ndarray) :
  v <> 0 -> nd_wf mask -> two_valued v mask ->
  Z.of_nat (length (nd_data mask)) < int64_max ->
  exists s,
    encode_rle mask = Ok s
    /\ decode_rle s (shape mask) = Ok (binarize mask)
    /\ (v = 255 -> decode_rle s (shape mask) = Ok mask).
Proof.
  intros Hv Hwf Hmask Hsize.
  destruct (roundtrip_binarize v mask Hv Hwf Hmask Hsize) as [s [Henc Hdec]].
  exists s. repeat split; try assumption.
  intros ->. rewrite Hdec, binarize_255 by assumption. reflexivity.
Qed.

Lemma decode_encode_roundtrip_witness :
  exists s,
    encode_rle Samples.mask_2x2 = Ok s
    /\ decode_rle s (shape Samples.mask_2x2) = Ok (binarize Samples.mask_2x2)
    /\ (255 = 255 -> decode_rle s (shape Samples.mask_2x2) = Ok Samples.mask_2x2).
Proof.
  apply (decode_encode_roundtrip 255 Samples.mask_2x2).
  - discriminate.
  - reflexivity.
  - two_valued_by_cases.
  - reflexivity.
Defined.

(** C2, as stated, fails: two masks of one shape that mark the same pixel
    with different foreground values differ, and have the same encoding. *)
Lemma encode_rle_ignores_foreground_value :
  two_valued 1 Samples.mask_fg1
  /\ two_valued 255 Samples.mask_fg255
  /\ shape Samples.mask_fg1 = shape Samples.mask_fg255
  /\ Samples.mask_fg1 <> Samples.mask_fg255
  /\ encode_rle Samples.mask_fg1 = encode_rle Samples.mask_fg255.
Proof.
  split; [two_valued_by_cases|]. split; [two_valued_by_cases|].
  split; [reflexivity|]. split; [discriminate | reflexivity].
Qed.

(** C2, amended: two two-valued masks of one shape have the same encoding
    exactly when they have the same foreground pixels; for masks with the
    same foreground value that is exactly when they are equal. *)
Theorem encode_rle_injective (v1 v2 : Z) (m1 m2 : ndarray) :
  v1 <> 0 -> v2 <> 0 ->
  nd_wf m1 -> nd_wf m2 -> two_valued v1 m1 -> two_valued v2 m2 ->
  shape m1 = shape m2 ->
  Z.of_nat (length (nd_data m1)) < int64_max ->
  (encode_rle m1 = encode_rle m2 <-> binarize m1 = binarize m2)
  /\ (v1 = v2 -> (encode_rle m1 = encode_rle m2 <-> m1 = m2)).
Proof.
  intros Hv1 Hv2 Hwf1 Hwf2 Hm1 Hm2 Hshape Hsize.
  assert (Hsize2 : Z.of_nat (length (nd_data m2)) < int64_max).
  { unfold nd_wf, shape in *. injection Hshape as Hr Hc.
    apply Nat2Z.inj in Hr, Hc. rewrite Hwf2, <- Hr, <- Hc, <- Hwf1. exact Hsize. }
  assert (Hiff : encode_rle m1 = encode_rle m2 <-> binarize m1 = binarize m2).
  { split.
    - intros Henc.
      destruct (roundtrip_binarize v1 m1 Hv1 Hwf1 Hm1 Hsize) as [s1 [He1 Hd1]].
      destruct (roundtrip_binarize v2 m2 Hv2 Hwf2 Hm2 Hsize2) as [s2 [He2 Hd2]].
      assert (Hs : s1 = s2) by congruence. subst s2.
      rewrite Hshape in Hd1. congruence.
    - intros Hbin.
      rewrite <- (encode_rle_binarize v1 m1), <- (encode_rle_binarize v2 m2)
        by assumption.
      rewrite Hbin. reflexivity. }
  split; [exact Hiff|].
  intros <-. rewrite Hiff. split; [|intros ->; reflexivity].
  apply (binarize_injective v1); assumption.
Qed.

Lemma encode_rle_injective_witness :
  (encode_rle Samples.mask_fg1 = encode_rle Samples.mask_fg255
   <-> binarize Samples.mask_fg1 = binarize Samples.mask_fg255)
  /\ (1 = 255 ->
      (encode_rle Samples.mask_fg1 = encode_rle Samples.mask_fg255
       <-> Samples.mask_fg1 = Samples.mask_fg255)).
Proof.
  apply (encode_rle_injective 1 255 Samples.mask_fg1 Samples.mask_fg255).
  - discriminate.
  - discriminate.
  - reflexivity.
  - reflexivity.
  - two_valued_by_cases.
  - two_valued_by_cases.
  - reflexivity.
  - reflexivity.
Defined.

(** *** Decoding arbitrary strings *)



Lemma length_stride2 {A : Type} (l : list A) :
  length (stride2 l) = Nat.div2 (S (length l))
  /\ length (stride2 (tl l)) = Nat.div2 (length l).
Proof.
  induction l as [| |a b l [IH1 IH2]] using pair_induction;
    [split; reflexivity | split; reflexivity |].
  cbn [stride2 tl length]. split.
  - rewrite IH1. reflexivity.
  - destruct l as [|c l]; [reflexivity|].
    cbn [tl] in IH2. cbn [stride2 length]. rewrite IH2. reflexivity.
Qed.








Example int_of_str_plain : int_of_str (lit "42") = Some 42.
Proof. reflexivity. Qed.

Example int_of_str_signed : int_of_str (lit "-3") = Some (-3).
Proof. reflexivity. Qed.

Example int_of_str_underscore : int_of_str (lit "1_0") = Some 10.
Proof. reflexivity. Qed.

Example int_of_str_fraction : int_of_str (lit "1.5") = None.
Proof. reflexivity. Qed.

Example int_of_str_letters : int_of_str (lit "x") = None.
Proof. reflexivity. Qed.

(** [split] also cuts at the no-break space and at NEL, so that the two
    integers on either side of one are two tokens. *)
Example decode_rle_no_break_space :
  split (lit "1" ++ [ascii_of_nat 160] ++ lit "2" ++ [ascii_of_nat 133]
         ++ lit "3 1")
  = [lit "1"; lit "2"; lit "3"; lit "1"]
  /\ decode_rle (lit "1" ++ [ascii_of_nat 160] ++ lit "2") (2, 2)
     = Ok (mk_ndarray 2 2 [255; 255; 0; 0]).
Proof. split; reflexivity. Qed.









(** The concrete case of the specification. *)
Example encode_rle_2x2 : encode_rle Samples.mask_2x2 = Ok (lit "4 1").
Proof. reflexivity. Qed.

Example decode_rle_2x2 : decode_rle (lit "4 1") (2, 2) = Ok Samples.mask_2x2.
Proof. reflexivity. Qed.

End MaskCodecFacts.

(** ** Rounding in binary64

    The operations on primitive floats are specified by the functions of
    [SpecFloat] on mantissas and exponents.  This part relates them to the
    real numbers: a rounded result is a binary64 number, and no binary64
    number lies strictly between it and the exact result. *)

Module Binary64Facts.
Import Num Binary64.

Lemma bpow_pos (e : Z) : (0 < bpow e)%R.
Proof. apply powerRZ_lt. lra. Qed.

Lemma bpow_add (a b : Z) : bpow (a + b) = (bpow a * bpow b)%R.
Proof. apply powerRZ_add. lra. Qed.

Lemma bpow_le (a b : Z) : a <= b -> (bpow a <= bpow b)%R.
Proof.
  intros H. replace b with (a + (b - a)) by lia. rewrite bpow_add.
  assert (1 <= bpow (b - a))%R.
  { unfold bpow. destruct (b - a) eqn:E; try lia.
    - simpl. lra.
    - cbn [powerRZ]. apply pow_R1_Rle. lra. }
  pose proof (bpow_pos a). nra.
Qed.

Lemma bpow_lt (a b : Z) : a < b -> (bpow a < bpow b)%R.
Proof.
  intros H. assert (H1 : (bpow (a + 1) <= bpow b)%R) by (apply bpow_le; lia).
  rewrite bpow_add in H1. change (bpow 1) with (2 * 1)%R in H1.
  pose proof (bpow_pos a). lra.
Qed.

Lemma bpow_IZR (n : Z) : 0 <= n -> bpow n = IZR (2 ^ n).
Proof.
  intros Hn. unfold bpow. destruct n as [|p|p]; try lia.
  - reflexivity.
  - change (2 ^ Z.pos p) with (Z.pow_pos 2 p).
    rewrite Zpower_pos_powerRZ. reflexivity.
Qed.

Lemma bpow_half : bpow (-1) = (/ 2)%R.
Proof. unfold bpow. simpl. rewrite Rmult_1_r. reflexivity. Qed.

Lemma bpow_succ (e : Z) : bpow (e + 1) = (2 * bpow e)%R.
Proof. rewrite bpow_add. change (bpow 1) with (2 * 1)%R. lra. Qed.

Lemma fexp_eq (e : Z) : fexp prec emax e = fexp64 e.
Proof. reflexivity. Qed.

(** *** Digits *)

Lemma digits2_size (p : positive) : digits2_pos p = Pos.size p.
Proof. induction p; cbn; congruence. Qed.

Lemma digits_bounds (p : positive) :
  2 ^ (Z.pos (digits2_pos p) - 1) <= Z.pos p < 2 ^ Z.pos (digits2_pos p).
Proof.
  rewrite digits2_size. split.
  - pose proof (Pos.size_le p) as H.
    assert (H' : 2 ^ Z.pos (Pos.size p) <= 2 * Z.pos p).
    { rewrite <- Pos2Z.inj_pow. change (2 * Z.pos p) with (Z.pos p~0).
      apply Pos2Z.pos_le_pos. exact H. }
    replace (Z.pos (Pos.size p)) with (Z.pos (Pos.size p) - 1 + 1) in H' by lia.
    rewrite Z.pow_add_r in H' by lia. lia.
  - pose proof (Pos.size_gt p) as H.
    rewrite <- Pos2Z.inj_pow. apply Pos2Z.pos_lt_pos. exact H.
Qed.

Lemma digits_unique (p : positive) (k : Z) :
  2 ^ (k - 1) <= Z.pos p < 2 ^ k -> Z.pos (digits2_pos p) = k.
Proof.
  intros [Hlo Hhi]. pose proof (digits_bounds p) as [Dlo Dhi].
  assert (Hk : 0 < k).
  { destruct (Z.ltb_spec 0 k) as [|Hk]; [assumption|].
    assert (2 ^ k <= 1); [|lia].
    destruct (Z.eq_dec k 0) as [->|]; [reflexivity|].
    rewrite Z.pow_neg_r by lia. lia. }
  destruct (Z.lt_trichotomy (Z.pos (digits2_pos p)) k) as [H|[H|H]];
    [|exact H|].
  - assert (2 ^ Z.pos (digits2_pos p) <= 2 ^ (k - 1))
      by (apply Z.pow_le_mono_r; lia). lia.
  - assert (2 ^ k <= 2 ^ (Z.pos (digits2_pos p) - 1))
      by (apply Z.pow_le_mono_r; lia). lia.
Qed.

(** The bounds of a number in terms of its digits, as real numbers. *)
Lemma digits_bpow (p : positive) :
  (bpow (Z.pos (digits2_pos p) - 1) <= IZR (Z.pos p)
   < bpow (Z.pos (digits2_pos p)))%R.
Proof.
  pose proof (digits_bounds p) as [Dlo Dhi].
  rewrite !bpow_IZR by lia. split; [apply IZR_le | apply IZR_lt]; assumption.
Qed.

(** *** Shifting a mantissa to the right *)

Lemma shr_1_located (x : R) (mrs : shr_record) (u : R) :
  (0 < u)%R -> located x mrs u -> located x (shr_1 mrs) (2 * u).
Proof.
  destruct mrs as [m r s]. unfold located. cbn [shr_m shr_r shr_s].
  intros Hu [Hm Hx].
  destruct m as [|[p|p|]|p]; try lia; cbn [shr_1 shr_m shr_r shr_s];
    (split; [lia|]).
  - destruct r, s; cbn [orb]; nra.
  - change (Z.pos p~1) with (2 * Z.pos p + 1) in Hx.
    rewrite plus_IZR, mult_IZR in Hx.
    destruct r, s; cbn [orb]; nra.
  - change (Z.pos p~0) with (2 * Z.pos p) in Hx.
    rewrite mult_IZR in Hx.
    destruct r, s; cbn [orb]; nra.
  - destruct r, s; cbn [orb]; nra.
Qed.

Lemma iter_shr_1_located (p : positive) :
  forall (x : R) (mrs : shr_record) (u : R),
    (0 < u)%R -> located x mrs u ->
    located x (SpecFloat.iter_pos shr_1 p mrs) (u * bpow (Z.pos p)).
Proof.
  induction p as [p IH|p IH|]; intros x mrs u Hu H; cbn [SpecFloat.iter_pos].
  - replace (u * bpow (Z.pos p~1))%R
      with (2 * u * bpow (Z.pos p) * bpow (Z.pos p))%R.
    + pose proof (bpow_pos (Z.pos p)).
      apply IH; [nra|]. apply IH; [nra|]. apply shr_1_located; assumption.
    + replace (Z.pos p~1) with (Z.pos p + Z.pos p + 1) by lia.
      rewrite bpow_succ, bpow_add. ring.
  - replace (u * bpow (Z.pos p~0))%R
      with (u * bpow (Z.pos p) * bpow (Z.pos p))%R.
    + pose proof (bpow_pos (Z.pos p)).
      apply IH; [nra|]. apply IH; assumption.
    + replace (Z.pos p~0) with (Z.pos p + Z.pos p) by lia.
      rewrite bpow_add. ring.
  - replace (u * bpow 1)%R with (2 * u)%R.
    + apply shr_1_located; assumption.
    + change (bpow 1) with (2 * 1)%R. ring.
Qed.


Lemma located_bounds (x : R) (mrs : shr_record) (u : R) :
  (0 < u)%R -> located x mrs u ->
  (IZR (shr_m mrs) * u <= x < (IZR (shr_m mrs) + 1) * u)%R
  /\ (loc_of_shr_record mrs = loc_Exact -> x = (IZR (shr_m mrs) * u)%R)
  /\ (loc_of_shr_record mrs <> loc_Exact -> (IZR (shr_m mrs) * u < x)%R).
Proof.
  destruct mrs as [m r s]. unfold located. cbn [shr_m shr_r shr_s].
  intros Hu [Hm Hx].
  destruct r, s; cbn [loc_of_shr_record];
    (split; [nra|]); (split; [intros; try discriminate; try congruence; nra|]);
    intros; try congruence; nra.
Qed.

Lemma located_record (x : R) (m : Z) (l : location) (u : R) :
  located x (shr_record_of_loc m l) u ->
  loc_of_shr_record (shr_record_of_loc m l) = l
  /\ shr_m (shr_record_of_loc m l) = m.
Proof. intros _. destruct l as [|[| |]]; split; reflexivity. Qed.

Lemma Zdigits2_bpow (m : Z) :
  0 <= m -> (IZR m + 1 <= bpow (Zdigits2 m))%R.
Proof.
  intros Hm. destruct m as [|p|p]; try lia.
  - cbn. lra.
  - cbn [Zdigits2]. pose proof (digits_bounds p) as [_ Hhi].
    rewrite bpow_IZR by lia. rewrite <- plus_IZR. apply IZR_le. lia.
Qed.

Lemma shr_fexp_located (x : R) (mx ex : Z) (lx : location) :
  located x (shr_record_of_loc mx lx) (bpow ex) ->
  ex <= fexp64 (Zdigits2 mx + ex) ->
  exists mrs,
    shr_fexp prec emax mx ex lx = (mrs, fexp64 (Zdigits2 mx + ex))
    /\ located x mrs (bpow (fexp64 (Zdigits2 mx + ex))).
Proof.
  intros Hloc Hpre. unfold shr_fexp. rewrite fexp_eq.
  set (E := fexp64 (Zdigits2 mx + ex)) in *. unfold shr.
  destruct (E - ex) as [|p|p] eqn:En; try lia.
  - assert (E = ex) as -> by lia. eexists. split; [reflexivity | exact Hloc].
  - eexists. split; [f_equal; lia|].
    replace E with (ex + Z.pos p) by lia. rewrite bpow_add.
    apply iter_shr_1_located; [apply bpow_pos | exact Hloc].
Qed.

(** *** Binary64 numbers on the grid of a rounding *)

Lemma canonical_bounds (m : positive) (e : Z) :
  canonical_mantissa prec emax m e = true ->
  -1074 <= e /\ Z.pos m < 2 ^ 53 /\ (e = -1074 \/ 2 ^ 52 <= Z.pos m).
Proof.
  unfold canonical_mantissa. rewrite Z.eqb_eq, fexp_eq. unfold fexp64.
  intros Hc. pose proof (digits_bounds m) as [Dlo Dhi].
  set (d := Z.pos (digits2_pos m)) in *.
  assert (Hd : d <= 53) by lia.
  split; [lia|]. split.
  - assert (2 ^ d <= 2 ^ 53) by (apply Z.pow_le_mono_r; lia). lia.
  - destruct (Z.eq_dec e (-1074)) as [He|He]; [left; exact He | right].
    assert (d = 53) as Hd53 by lia. rewrite Hd53 in Dlo. exact Dlo.
Qed.

Lemma valid_finite (s : bool) (m : positive) (e : Z) :
  valid_binary (S754_finite s m e) = true ->
  -1074 <= e <= 971 /\ Z.pos m < 2 ^ 53 /\ (e = -1074 \/ 2 ^ 52 <= Z.pos m).
Proof.
  cbn [SpecFloat.valid_binary]. unfold SpecFloat.bounded.
  rewrite andb_true_iff, Z.leb_le. change (emax - prec) with 971.
  intros [Hc Hb]. destruct (canonical_bounds m e Hc) as [He [Hm Hn]].
  repeat split; try assumption; lia.
Qed.

Lemma value_finite_lt_top (s : bool) (m : positive) (e : Z) :
  valid_binary (S754_finite s m e) = true ->
  (value (S754_finite s m e) < bpow 1024)%R.
Proof.
  intros Hv. destruct (valid_finite _ _ _ Hv) as [He [Hm _]].
  cbn [value]. apply IZR_lt in Hm. rewrite <- bpow_IZR in Hm by lia.
  pose proof (bpow_le e 971 ltac:(lia)) as Hle.
  pose proof (bpow_pos e).
  replace 1024 with (53 + 971) by lia. rewrite bpow_add.
  assert (0 < IZR (Z.pos m))%R by (apply IZR_lt; lia).
  nra.
Qed.

Lemma value_nonneg (f : spec_float) : (0 <= value f)%R.
Proof.
  destruct f as [s|s| |s m e]; cbn [value]; try lra.
  - pose proof (bpow_pos 1024). lra.
  - pose proof (bpow_pos e).
    assert (0 < IZR (Z.pos m))%R by (apply IZR_lt; lia). nra.
Qed.

Lemma value_le_top (f : spec_float) :
  valid_binary f = true -> (value f <= bpow 1024)%R.
Proof.
  intros Hv. destruct f as [s|s| |s m e].
  - cbn [value]. pose proof (bpow_pos 1024). lra.
  - cbn [value]. lra.
  - cbn [value]. pose proof (bpow_pos 1024). lra.
  - apply Rlt_le, value_finite_lt_top, Hv.
Qed.

(** A binary64 number other than the infinity is not strictly between two
    neighbours [m * 2 ^ E] and [(m + 1) * 2 ^ E] of the grid on which a
    number is rounded. *)
Lemma grid (f : spec_float) (m E : Z) :
  valid_binary f = true -> (forall s, f <> S754_infinity s) ->
  0 <= m -> -1074 <= E -> E = -1074 \/ 2 ^ 52 <= m ->
  ((value f < (IZR m + 1) * bpow E)%R -> (value f <= IZR m * bpow E)%R)
  /\ ((IZR m * bpow E < value f)%R -> ((IZR m + 1) * bpow E <= value f)%R).
Proof.
  intros Hv Hfin Hm HE Hnorm. pose proof (bpow_pos E) as Hu.
  assert (Hm' : (0 <= IZR m)%R) by (apply IZR_le; lia).
  destruct f as [s|s| |s mf ef].
  - cbn [value]. split; intros; nra.
  - exfalso. apply (Hfin s). reflexivity.
  - cbn [value]. split; intros; nra.
  - destruct (valid_finite _ _ _ Hv) as [He [Hmf Hn]]. cbn [value].
    destruct (Z.le_gt_cases E ef) as [Hle|Hgt].
    + assert (HK : (IZR (Z.pos mf) * bpow ef
                    = IZR (Z.pos mf * 2 ^ (ef - E)) * bpow E)%R).
      { rewrite mult_IZR, <- bpow_IZR by lia.
        replace ef with (ef - E + E) at 1 by lia. rewrite bpow_add. ring. }
      rewrite HK. set (K := Z.pos mf * 2 ^ (ef - E)). split; intros H.
      * assert (HlK : (IZR K < IZR m + 1)%R) by nra.
        rewrite <- plus_IZR in HlK. apply lt_IZR in HlK.
        assert (HKm : (IZR K <= IZR m)%R) by (apply IZR_le; lia). nra.
      * assert (HlK : (IZR m < IZR K)%R) by nra.
        apply lt_IZR in HlK.
        assert (HKm : (IZR m + 1 <= IZR K)%R)
          by (rewrite <- plus_IZR; apply IZR_le; lia). nra.
    + assert (H52 : 2 ^ 52 <= m) by lia.
      assert (Hlt : (IZR (Z.pos mf) * bpow ef < IZR m * bpow E)%R).
      { apply IZR_lt in Hmf. apply IZR_le in H52.
        rewrite <- bpow_IZR in Hmf, H52 by lia.
        pose proof (bpow_le (ef + 1) E ltac:(lia)) as Hee.
        rewrite bpow_succ in Hee. 
        change (bpow 53) with (2 * bpow 52)%R in Hmf.
        pose proof (bpow_pos ef). pose proof (bpow_pos 52).
        assert (0 < IZR (Z.pos mf))%R by (apply IZR_lt; lia).
        apply Rlt_le_trans with (2 * bpow 52 * bpow ef)%R; [nra|].
        apply Rle_trans with (bpow 52 * bpow E)%R; nra. }
      split; intros; nra.
Qed.


(** *** Rounding to nearest, ties to even *)

Lemma round_nearest_even_cases (x : R) (mrs : shr_record) (u : R) :
  (0 < u)%R -> located x mrs u ->
  round_nearest_even (shr_m mrs) (loc_of_shr_record mrs) = shr_m mrs
  \/ (round_nearest_even (shr_m mrs) (loc_of_shr_record mrs) = shr_m mrs + 1
      /\ (IZR (shr_m mrs) * u < x)%R).
Proof.
  destruct mrs as [m r s]. unfold located. cbn [shr_m shr_r shr_s].
  intros Hu [Hm Hx].
  assert (Hm' : (0 <= IZR m)%R) by (apply IZR_le; lia).
  destruct r, s; cbn [loc_of_shr_record round_nearest_even].
  - right. split; [reflexivity | nra].
  - destruct (Z.even m); [left; reflexivity | right; split; [reflexivity|nra]].
  - left. reflexivity.
  - left. reflexivity.
Qed.

(** The mantissa after rounding has at most one digit too many, which the
    second shift removes. *)
Lemma shr_fexp_rounded (m E : Z) :
  0 <= m <= 2 ^ 53 -> -1074 <= E -> E = -1074 \/ 2 ^ 52 <= m ->
  exists mf ef,
    shr_fexp prec emax m E loc_Exact = (Build_shr_record mf false false, ef)
    /\ (IZR mf * bpow ef = IZR m * bpow E)%R
    /\ ((mf = 0 /\ m = 0)
        \/ exists p, mf = Z.pos p /\ 0 < m
                     /\ canonical_mantissa prec emax p ef = true)
    /\ ((ef = E /\ mf = m) \/ (ef = E + 1 /\ m = 2 ^ 53)).
Proof.
  intros Hm HE Hnorm. unfold shr_fexp. rewrite fexp_eq.
  cbn [shr_record_of_loc].
  destruct (Z.eq_dec m (2 ^ 53)) as [-> | Hne].
  - exists (2 ^ 52), (E + 1).
    change (Zdigits2 (2 ^ 53)) with 54.
    replace (fexp64 (54 + E) - E) with 1 by (unfold fexp64; lia).
    split; [reflexivity|]. split.
    + rewrite bpow_succ. change (2 ^ 53) with (2 * 2 ^ 52).
      rewrite (mult_IZR 2). ring.
    + split; [|right; split; reflexivity].
      right. exists (2 ^ 52)%positive. split; [reflexivity|]. split; [lia|].
      unfold canonical_mantissa. rewrite fexp_eq. apply Z.eqb_eq.
      change (Z.pos (digits2_pos (2 ^ 52))) with 53. unfold fexp64. lia.
  - exists m, E.
    assert (Hn : fexp64 (Zdigits2 m + E) - E <= 0
                 /\ (0 < m -> fexp64 (Zdigits2 m + E) = E)).
    { destruct m as [|p|p]; try lia.
      - cbn [Zdigits2]. unfold fexp64. lia.
      - cbn [Zdigits2]. pose proof (digits_bounds p) as [Dlo Dhi].
        set (d := Z.pos (digits2_pos p)) in *.
        assert (Hd : d <= 53).
        { destruct (Z.le_gt_cases d 53) as [|Hgt]; [assumption|].
          assert (2 ^ 53 <= 2 ^ (d - 1)) by (apply Z.pow_le_mono_r; lia).
          lia. }
        assert (Hd' : E = -1074 \/ d = 53).
        { destruct Hnorm as [|H52]; [left; assumption | right].
          destruct (Z.eq_dec d 53) as [|Hd53]; [assumption|].
          assert (2 ^ d <= 2 ^ 52) by (apply Z.pow_le_mono_r; lia). lia. }
        unfold fexp64. lia. }
    destruct Hn as [Hn Hcan]. unfold shr.
    destruct (fexp64 (Zdigits2 m + E) - E) as [|q|q] eqn:En; try lia.
    + split; [reflexivity|]. split; [reflexivity|].
      split; [|left; split; reflexivity].
      destruct m as [|p|p]; [left; split; reflexivity| |lia].
      right. exists p. split; [reflexivity|]. split; [lia|].
      unfold canonical_mantissa. rewrite fexp_eq. apply Z.eqb_eq.
      apply (Hcan ltac:(lia)).
    + split; [reflexivity|]. split; [reflexivity|].
      split; [|left; split; reflexivity].
      destruct m as [|p|p]; [left; split; reflexivity| |lia].
      right. exists p. split; [reflexivity|]. split; [lia|].
      unfold canonical_mantissa. rewrite fexp_eq. apply Z.eqb_eq.
      apply (Hcan ltac:(lia)).
Qed.


(** The result of rounding a number that is located on a grid at least as
    fine as the binary64 numbers around it: a binary64 number or the
    infinity, with no binary64 number strictly between it and the number
    that was rounded. *)
Theorem binary_round_aux_rounds (x : R) (mx ex : Z) (lx : location) :
  located x (shr_record_of_loc mx lx) (bpow ex) ->
  ex <= fexp64 (Zdigits2 mx + ex) ->
  nonneg (binary_round_aux prec emax false mx ex lx)
  /\ valid_binary (binary_round_aux prec emax false mx ex lx) = true
  /\ rounds x (binary_round_aux prec emax false mx ex lx).
Proof.
  intros Hloc Hpre.
  destruct (shr_fexp_located x mx ex lx Hloc Hpre) as [mrs [Hshr Hloc']].
  set (E := fexp64 (Zdigits2 mx + ex)) in *.
  pose proof (bpow_pos E) as Hu.
  destruct (located_bounds x mrs _ Hu Hloc') as [[Hlo Hhi] _].
  assert (Hm0 : 0 <= shr_m mrs) by (destruct Hloc'; assumption).
  destruct (located_record x mx lx _ Hloc) as [_ Hmx].
  assert (HmxN : 0 <= mx) by (destruct Hloc as [H _]; rewrite Hmx in H; exact H).
  destruct (located_bounds x _ _ (bpow_pos ex) Hloc) as [[Hxlo Hxhi] _].
  rewrite Hmx in Hxlo, Hxhi.
  assert (Hxtop : (x < bpow (Zdigits2 mx + ex))%R).
  { pose proof (Zdigits2_bpow mx HmxN). rewrite bpow_add.
    pose proof (bpow_pos ex). nra. }
  assert (HE : -1074 <= E /\ Zdigits2 mx + ex - 53 <= E)
    by (unfold E, fexp64; lia).
  assert (Hm53 : shr_m mrs < 2 ^ 53).
  { apply lt_IZR. rewrite <- bpow_IZR by lia.
    pose proof (bpow_le (Zdigits2 mx + ex) (53 + E) ltac:(lia)) as H.
    rewrite (bpow_add 53 E) in H.
    apply (Rmult_lt_reg_r (bpow E)); [exact Hu | lra]. }
  assert (Hnorm : E = -1074 \/ 2 ^ 52 <= shr_m mrs).
  { destruct (Z.eq_dec E (-1074)) as [|HnE]; [left; assumption | right].
    assert (HEq : E = Zdigits2 mx + ex - 53) by (unfold E, fexp64 in *; lia).
    destruct mx as [|p|p]; [cbn [Zdigits2] in *; lia| |lia].
    cbn [Zdigits2] in *. pose proof (digits_bpow p) as [Dlo _].
    assert (Hx52 : (bpow 52 * bpow E <= x)%R).
    { rewrite <- bpow_add.
      replace (52 + E) with (Z.pos (digits2_pos p) - 1 + ex) by lia.
      rewrite bpow_add. pose proof (bpow_pos ex). nra. }
    assert (HH : (bpow 52 < IZR (shr_m mrs) + 1)%R) by nra.
    rewrite bpow_IZR, <- plus_IZR in HH by lia. apply lt_IZR in HH. lia. }
  set (m'' := round_nearest_even (shr_m mrs) (loc_of_shr_record mrs)).
  assert (Hr : m'' = shr_m mrs
               \/ (m'' = shr_m mrs + 1 /\ (IZR (shr_m mrs) * bpow E < x)%R))
    by (apply round_nearest_even_cases; assumption).
  assert (Hm'' : 0 <= m'' <= 2 ^ 53) by lia.
  assert (Hnorm'' : E = -1074 \/ 2 ^ 52 <= m'') by lia.
  destruct (shr_fexp_rounded m'' E Hm'' (proj1 HE) Hnorm'')
    as [mf [ef [H2 [Hval [Hshape Hef]]]]].
  (* what the grid tells about a binary64 number other than the infinity *)
  assert (Hgrid : forall f, valid_binary f = true ->
            (forall s, f <> S754_infinity s) ->
            ((value f <= x)%R -> (value f <= IZR m'' * bpow E)%R)
            /\ ((x <= value f)%R -> (IZR m'' * bpow E <= value f)%R)).
  { intros f Hvf Hfin.
    destruct (grid f (shr_m mrs) E Hvf Hfin Hm0 (proj1 HE) Hnorm) as [Ga Gb].
    assert (Hmm : (IZR (shr_m mrs) <= IZR m'')%R) by (apply IZR_le; lia).
    split; intros H.
    - apply Rle_trans with (IZR (shr_m mrs) * bpow E)%R; [apply Ga; lra|nra].
    - destruct Hr as [-> | [-> Hup]]; [lra|].
      rewrite plus_IZR. apply Gb. lra. }
  assert (Hx53 : (x < bpow (53 + E))%R).
  { rewrite bpow_add. apply IZR_lt in Hm53.
    rewrite <- bpow_IZR in Hm53 by lia.
    assert (IZR (shr_m mrs) + 1 <= bpow 53)%R.
    { rewrite bpow_IZR, <- plus_IZR by lia. apply IZR_le.
      rewrite bpow_IZR in Hm53 by lia. apply lt_IZR in Hm53. lia. }
    nra. }
  unfold binary_round_aux. rewrite Hshr. fold m''. rewrite H2. cbn [shr_m].
  destruct Hshape as [[-> Hz] | [p [-> [Hpos Hcan]]]].
  - (* the result is zero *)
    split; [exact I|]. split; [reflexivity|].
    intros f Hvf. cbn [value].
    split; [|intros _; apply value_nonneg].
    assert (Hv0 : (IZR m'' * bpow E = 0)%R) by (rewrite Hz; lra).
    intros H. rewrite <- Hv0.
    destruct f as [s|s| |s m e];
      try (apply (Hgrid _ Hvf); [intros; discriminate | exact H]).
    exfalso. cbn [value] in H. assert (EE : E = -1074) by lia.
    assert (bpow (53 + E) <= bpow 1024)%R by (apply bpow_le; lia). lra.
  - destruct (canonical_bounds p ef Hcan) as [Hef0 [Hp53 Hpn]].
    cbn [value] in Hval.
    destruct (Z.leb_spec ef (emax - prec)) as [Hle|Hgt];
      change (emax - prec) with 971 in *.
    + (* a finite result *)
      assert (Hvr : valid_binary (S754_finite false p ef) = true).
      { cbn [SpecFloat.valid_binary]. unfold SpecFloat.bounded.
        rewrite Hcan. apply Z.leb_le. exact Hle. }
      split; [reflexivity|]. split; [exact Hvr|].
      intros f Hvf. cbn [value]. rewrite Hval.
      destruct f as [s|s| |s m e];
        try (apply (Hgrid _ Hvf); intros; discriminate).
      cbn [value]. split; intros H.
      * exfalso. assert (bpow (53 + E) <= bpow 1024)%R
          by (apply bpow_le; lia). lra.
      * rewrite <- Hval. apply (value_le_top _ Hvr).
    + (* overflow *)
      split; [reflexivity|]. split; [reflexivity|].
      intros f Hvf. cbn [value].
      split; [intros _; apply value_le_top, Hvf|]. intros H.
      assert (Hb : (bpow 1024 <= IZR m'' * bpow E)%R).
      { rewrite <- Hval. assert (H52 : 2 ^ 52 <= Z.pos p) by lia.
        apply IZR_le in H52. rewrite <- bpow_IZR in H52 by lia.
        pose proof (bpow_le 972 ef ltac:(lia)).
        change (bpow 1024) with (bpow (52 + 972)).
        rewrite bpow_add. pose proof (bpow_pos 52).
        pose proof (bpow_pos 972). nra. }
      destruct f as [s|s| |s m e];
        try (apply Rle_trans with (IZR m'' * bpow E)%R; [exact Hb|];
             apply (Hgrid _ Hvf); [intros; discriminate | exact H]).
      cbn [value]. lra.
Qed.


(** *** The order of binary64 numbers *)

Lemma value_finite_pos (s : bool) (m : positive) (e : Z) :
  (0 < value (S754_finite s m e))%R.
Proof.
  cbn [value]. pose proof (bpow_pos e).
  assert (0 < IZR (Z.pos m))%R by (apply IZR_lt; lia). nra.
Qed.

Lemma canonical_lt (s1 s2 : bool) (m1 m2 : positive) (e1 e2 : Z) :
  valid_binary (S754_finite s1 m1 e1) = true ->
  valid_binary (S754_finite s2 m2 e2) = true ->
  e1 < e2 ->
  (value (S754_finite s1 m1 e1) < value (S754_finite s2 m2 e2))%R.
Proof.
  intros H1 H2 He.
  destruct (valid_finite _ _ _ H1) as [He1 [Hm1 _]].
  destruct (valid_finite _ _ _ H2) as [He2 [_ Hn2]].
  assert (H52 : 2 ^ 52 <= Z.pos m2) by lia.
  cbn [value]. apply IZR_lt in Hm1. apply IZR_le in H52.
  rewrite <- bpow_IZR in Hm1, H52 by lia.
  pose proof (bpow_le (e1 + 1) e2 ltac:(lia)) as Hee.
  rewrite bpow_succ in Hee. change (bpow 53) with (2 * bpow 52)%R in Hm1.
  pose proof (bpow_pos e1). pose proof (bpow_pos 52).
  assert (0 < IZR (Z.pos m1))%R by (apply IZR_lt; lia).
  apply Rlt_le_trans with (2 * bpow 52 * bpow e1)%R; [nra|].
  apply Rle_trans with (bpow 52 * bpow e2)%R; nra.
Qed.

Lemma SFcompare_value (a b : spec_float) :
  nonneg a -> nonneg b -> valid_binary a = true -> valid_binary b = true ->
  match SFcompare a b with
  | Some Lt => (value a < value b)%R
  | Some Eq => value a = value b
  | Some Gt => (value b < value a)%R
  | None => False
  end.
Proof.
  intros Ha Hb Va Vb.
  destruct a as [sa|sa| |sa ma ea]; destruct b as [sb|sb| |sb mb eb];
    cbn [nonneg] in Ha, Hb; try contradiction; subst;
    cbn [SFcompare];
    try (cbn [value]; reflexivity);
    try (apply value_finite_pos);
    try (apply value_finite_lt_top; assumption);
    try (cbn [value]; apply bpow_pos).
  destruct (Z.compare_spec ea eb) as [-> | Hlt | Hgt].
  - rewrite Pos.compare_cont_spec. pose proof (bpow_pos eb).
    destruct (Pos.compare_spec ma mb) as [-> | Hm | Hm];
      cbn [Pos.switch_Eq value].
    + reflexivity.
    + assert (IZR (Z.pos ma) < IZR (Z.pos mb))%R by (apply IZR_lt; lia). nra.
    + assert (IZR (Z.pos mb) < IZR (Z.pos ma))%R by (apply IZR_lt; lia). nra.
  - apply canonical_lt; assumption.
  - apply canonical_lt; assumption.
Qed.

Lemma SFleb_value (a b : spec_float) :
  nonneg a -> nonneg b -> valid_binary a = true -> valid_binary b = true ->
  (SFleb a b = true <-> (value a <= value b)%R).
Proof.
  intros Ha Hb Va Vb. pose proof (SFcompare_value a b Ha Hb Va Vb) as H.
  unfold SFleb. destruct (SFcompare a b) as [[| |]|]; try contradiction;
    split; intros; try reflexivity; try discriminate; lra.
Qed.

Lemma SFltb_value (a b : spec_float) :
  nonneg a -> nonneg b -> valid_binary a = true -> valid_binary b = true ->
  (SFltb a b = true <-> (value a < value b)%R).
Proof.
  intros Ha Hb Va Vb. pose proof (SFcompare_value a b Ha Hb Va Vb) as H.
  unfold SFltb. destruct (SFcompare a b) as [[| |]|]; try contradiction;
    split; intros; try reflexivity; try discriminate; lra.
Qed.

Lemma SFeqb_value (a b : spec_float) :
  nonneg a -> nonneg b -> valid_binary a = true -> valid_binary b = true ->
  (SFeqb a b = true <-> value a = value b).
Proof.
  intros Ha Hb Va Vb. pose proof (SFcompare_value a b Ha Hb Va Vb) as H.
  unfold SFeqb. destruct (SFcompare a b) as [[| |]|]; try contradiction;
    split; intros; try reflexivity; try discriminate; lra.
Qed.

(** *** Rounding a mantissa and an exponent *)

Lemma iter_xO (m d : positive) :
  Z.pos (Pos.iter xO m d) = Z.pos m * 2 ^ Z.pos d
  /\ Z.pos (digits2_pos (Pos.iter xO m d)) = Z.pos (digits2_pos m) + Z.pos d.
Proof.
  induction d as [|d IH] using Pos.peano_ind.
  - cbn [Pos.iter digits2_pos]. split; lia.
  - rewrite Pos.iter_succ. cbn [digits2_pos]. destruct IH as [IH1 IH2].
    rewrite Pos2Z.inj_xO, IH1, !Pos2Z.inj_succ, IH2.
    rewrite Z.pow_succ_r by lia. split; lia.
Qed.

Lemma shl_align_value (m : positive) (e e' : Z) :
  e' <= e ->
  snd (shl_align m e e') = e'
  /\ (IZR (Z.pos (fst (shl_align m e e'))) * bpow e'
      = IZR (Z.pos m) * bpow e)%R
  /\ Z.pos (digits2_pos (fst (shl_align m e e'))) + e'
     = Z.pos (digits2_pos m) + e.
Proof.
  intros He. unfold shl_align.
  destruct (e' - e) as [|d|d] eqn:Ed; try lia; cbn [fst snd].
  - assert (e' = e) as -> by lia. repeat split.
  - destruct (iter_xO m d) as [H1 H2]. split; [reflexivity|]. split.
    + rewrite H1, mult_IZR, <- bpow_IZR by lia.
      replace e with (Z.pos d + e') by lia. rewrite bpow_add. ring.
    + rewrite H2. lia.
Qed.

Theorem binary_round_rounds (m : positive) (e : Z) :
  nonneg (binary_round prec emax false m e)
  /\ valid_binary (binary_round prec emax false m e) = true
  /\ rounds (IZR (Z.pos m) * bpow e) (binary_round prec emax false m e).
Proof.
  unfold binary_round. rewrite fexp_eq.
  set (E := fexp64 (Z.pos (digits2_pos m) + e)).
  destruct (Z.le_gt_cases E e) as [Hle | Hgt].
  - destruct (shl_align_value m e E Hle) as [H1 [H2 H3]].
    destruct (shl_align m e E) as [mz ez]. cbn [fst snd] in *. subst ez.
    apply binary_round_aux_rounds.
    + unfold located. cbn [shr_record_of_loc shr_m shr_r shr_s].
      split; [lia | symmetry; exact H2].
    + cbn [Zdigits2]. rewrite H3. fold E. lia.
  - unfold shl_align. destruct (E - e) as [|d|d] eqn:Ed; try lia.
    apply binary_round_aux_rounds.
    + unfold located. cbn [shr_record_of_loc shr_m shr_r shr_s].
      split; [lia | reflexivity].
    + cbn [Zdigits2]. fold E. lia.
Qed.


(** *** The sign of a rounded number *)

Lemma shr_1_nonneg (mrs : shr_record) :
  0 <= shr_m mrs -> 0 <= shr_m (shr_1 mrs).
Proof.
  destruct mrs as [m r s]. cbn [shr_m].
  destruct m as [|[p|p|]|p]; cbn [shr_1 shr_m]; lia.
Qed.

Lemma iter_shr_1_nonneg (p : positive) :
  forall mrs, 0 <= shr_m mrs -> 0 <= shr_m (SpecFloat.iter_pos shr_1 p mrs).
Proof.
  induction p as [p IH|p IH|]; intros mrs H; cbn [SpecFloat.iter_pos].
  - apply IH, IH, shr_1_nonneg, H.
  - apply IH, IH, H.
  - apply shr_1_nonneg, H.
Qed.

Lemma shr_fexp_nonneg (m e : Z) (l : location) :
  0 <= m -> 0 <= shr_m (fst (shr_fexp prec emax m e l)).
Proof.
  intros Hm. unfold shr_fexp, shr.
  assert (H0 : 0 <= shr_m (shr_record_of_loc m l))
    by (destruct l as [|[| |]]; exact Hm).
  destruct (fexp prec emax (Zdigits2 m + e) - e); cbn [fst];
    [exact H0 | apply iter_shr_1_nonneg, H0 | exact H0].
Qed.

Lemma round_nearest_even_nonneg (m : Z) (l : location) :
  0 <= m -> 0 <= round_nearest_even m l.
Proof.
  intros Hm. destruct l as [|[| |]]; cbn [round_nearest_even]; try lia.
  destruct (Z.even m); lia.
Qed.

(** Rounding keeps the sign and never gives a NaN. *)
Lemma binary_round_aux_signed (sx : bool) (mx ex : Z) (lx : location) :
  0 <= mx -> signed sx (binary_round_aux prec emax sx mx ex lx).
Proof.
  intros Hm. unfold binary_round_aux.
  pose proof (shr_fexp_nonneg mx ex lx Hm) as H1.
  destruct (shr_fexp prec emax mx ex lx) as [mrs' e']. cbn [fst] in H1.
  pose proof (shr_fexp_nonneg _ e' loc_Exact
                (round_nearest_even_nonneg _ (loc_of_shr_record mrs') H1))
    as H2.
  destruct (shr_fexp prec emax _ e' loc_Exact) as [mrs'' e''].
  cbn [fst] in H2. destruct (shr_m mrs'') as [|p|p]; try lia.
  - reflexivity.
  - destruct (e'' <=? emax - prec); reflexivity.
Qed.

Lemma binary_round_signed (sx : bool) (m : positive) (e : Z) :
  signed sx (binary_round prec emax sx m e).
Proof.
  unfold binary_round. destruct (shl_align m e _) as [mz ez].
  apply binary_round_aux_signed. lia.
Qed.

Lemma binary_normalize_not_nan (m e : Z) (s : bool) :
  binary_normalize prec emax m e s <> S754_nan.
Proof.
  destruct m as [|p|p]; cbn [binary_normalize]; [discriminate| |].
  - pose proof (binary_round_signed false p e) as H.
    destruct (binary_round prec emax false p e); [discriminate ..|contradiction|discriminate].
  - pose proof (binary_round_signed true p e) as H.
    destruct (binary_round prec emax true p e); [discriminate ..|contradiction|discriminate].
Qed.

Lemma signed_nonneg (f : spec_float) : signed false f -> nonneg f.
Proof. destruct f; cbn; auto. Qed.


(** *** Addition *)

Theorem SFadd_nonneg (a b : spec_float) :
  nonneg a -> nonneg b -> valid_binary a = true -> valid_binary b = true ->
  nonneg (SFadd prec emax a b)
  /\ (value a <= value (SFadd prec emax a b))%R
  /\ (value b <= value (SFadd prec emax a b))%R
  /\ (forall f, valid_binary f = true ->
        (value a + value b <= value f)%R ->
        (value (SFadd prec emax a b) <= value f)%R).
Proof.
  intros Ha Hb Va Vb.
  pose proof (value_nonneg a) as Pa. pose proof (value_nonneg b) as Pb.
  pose proof (value_le_top a Va) as Ta. pose proof (value_le_top b Vb) as Tb.
  destruct a as [sa|sa| |sa ma ea]; destruct b as [sb|sb| |sb mb eb];
    cbn [nonneg] in Ha, Hb; try contradiction; subst;
    try (cbn [SFadd]; cbn [value] in *; repeat split; try exact I;
         try lra; intros; lra).
  - (* two zeros *)
    assert (Hz : exists s, SFadd prec emax (S754_zero sa) (S754_zero sb)
                           = S754_zero s)
      by (destruct sa, sb; eexists; reflexivity).
    destruct Hz as [s ->]. cbn [value nonneg]. repeat split; try lra.
    intros; lra.
  - (* two finite numbers *)
    cbn [SFadd cond_Zopp]. set (ez := Z.min ea eb).
    destruct (shl_align_value ma ea ez ltac:(lia)) as [_ [Hva _]].
    destruct (shl_align_value mb eb ez ltac:(lia)) as [_ [Hvb _]].
    set (fa := fst (shl_align ma ea ez)) in *.
    set (fb := fst (shl_align mb eb ez)) in *.
    change (Z.pos fa + Z.pos fb) with (Z.pos (fa + fb)).
    cbn [binary_normalize].
    destruct (binary_round_rounds (fa + fb) ez) as [Hn [Hv Hr]].
    assert (Hx : (IZR (Z.pos (fa + fb)) * bpow ez
                  = value (S754_finite false ma ea)
                    + value (S754_finite false mb eb))%R).
    { rewrite Pos2Z.inj_add, plus_IZR. cbn [value]. lra. }
    rewrite Hx in Hr. split; [exact Hn|]. split; [|split].
    + apply (Hr _ Va). lra.
    + apply (Hr _ Vb). lra.
    + intros f Vf H. apply (Hr f Vf). exact H.
Qed.


(** *** Multiplication, subtraction and square root *)

Lemma rounds_exact (x : R) (r f : spec_float) :
  rounds x r -> valid_binary f = true -> value f = x -> value r = x.
Proof.
  intros Hr Vf <-. destruct (Hr f Vf) as [H1 H2].
  apply Rle_antisym; [apply H2 | apply H1]; lra.
Qed.

Lemma rounds_zero (s : bool) : rounds 0 (S754_zero s).
Proof. intros f _. cbn [value]. split; intros; lra. Qed.

Lemma digits_mul (m1 m2 : positive) :
  Z.pos (digits2_pos m1) + Z.pos (digits2_pos m2) - 1
  <= Z.pos (digits2_pos (m1 * m2)).
Proof.
  pose proof (digits_bounds m1) as [L1 _].
  pose proof (digits_bounds m2) as [L2 _].
  pose proof (digits_bounds (m1 * m2)) as [_ U].
  set (d1 := Z.pos (digits2_pos m1)) in *.
  set (d2 := Z.pos (digits2_pos m2)) in *.
  set (d := Z.pos (digits2_pos (m1 * m2))) in *.
  destruct (Z.le_gt_cases (d1 + d2 - 1) d) as [|Hgt]; [assumption|exfalso].
  assert (H : 2 ^ d <= 2 ^ (d1 - 1 + (d2 - 1)))
    by (apply Z.pow_le_mono_r; lia).
  rewrite Z.pow_add_r in H by lia. rewrite Pos2Z.inj_mul in U. nia.
Qed.

Theorem SFmul_rounds (a b : spec_float) :
  nonneg a -> nonneg b -> finite a -> finite b ->
  valid_binary a = true -> valid_binary b = true ->
  nonneg (SFmul prec emax a b)
  /\ rounds (value a * value b) (SFmul prec emax a b).
Proof.
  intros Ha Hb Fa Fb Va Vb.
  destruct a as [sa|sa| |sa ma ea]; destruct b as [sb|sb| |sb mb eb];
    cbn [nonneg finite] in *; try contradiction; subst; cbn [SFmul value];
    try (split; [exact I|]; rewrite ?Rmult_0_l, ?Rmult_0_r;
         apply rounds_zero).
  cbn [xorb].
  destruct (valid_finite _ _ _ Va) as [Hea [Hma Hna]].
  destruct (valid_finite _ _ _ Vb) as [Heb [Hmb Hnb]].
  pose proof (digits_mul ma mb) as Hd.
  pose proof (digits_bounds ma) as [La Ua].
  pose proof (digits_bounds mb) as [Lb Ub].
  assert (Hpre : ea + eb <= fexp64 (Zdigits2 (Z.pos (ma * mb)) + (ea + eb))).
  { cbn [Zdigits2]. unfold fexp64.
    set (da := Z.pos (digits2_pos ma)) in *.
    set (db := Z.pos (digits2_pos mb)) in *.
    assert (Hda : ea = -1074 \/ 53 <= da).
    { destruct Hna as [|H52]; [left; assumption | right].
      destruct (Z.le_gt_cases 53 da) as [|Hlt]; [assumption|].
      assert (2 ^ da <= 2 ^ 52) by (apply Z.pow_le_mono_r; lia). lia. }
    assert (Hdb : eb = -1074 \/ 53 <= db).
    { destruct Hnb as [|H52]; [left; assumption | right].
      destruct (Z.le_gt_cases 53 db) as [|Hlt]; [assumption|].
      assert (2 ^ db <= 2 ^ 52) by (apply Z.pow_le_mono_r; lia). lia. }
    assert (0 < da /\ 0 < db) by (unfold da, db; lia).
    lia. }
  destruct (binary_round_aux_rounds
              (IZR (Z.pos ma) * bpow ea * (IZR (Z.pos mb) * bpow eb))
              (Z.pos (ma * mb)) (ea + eb) loc_Exact) as [Hn [_ Hr]].
  - unfold located. cbn [shr_record_of_loc shr_m shr_r shr_s].
    split; [lia|]. rewrite Pos2Z.inj_mul, mult_IZR, bpow_add. ring.
  - exact Hpre.
  - split; assumption.
Qed.

Lemma SFmul_square (a : spec_float) :
  a <> S754_nan -> nonneg (SFmul prec emax a a).
Proof.
  intros Ha. destruct a as [s|s| |s m e]; cbn [SFmul nonneg];
    try exact I; try (destruct s; reflexivity); try congruence.
  apply signed_nonneg.
  replace (xorb s s) with false by (destruct s; reflexivity).
  apply binary_round_aux_signed. lia.
Qed.

Lemma SFsub_finite (a b : spec_float) :
  finite a -> finite b -> SFsub prec emax a b <> S754_nan.
Proof.
  intros Fa Fb.
  destruct a as [sa|sa| |sa ma ea]; destruct b as [sb|sb| |sb mb eb];
    cbn [finite] in *; try contradiction; cbn [SFsub]; try discriminate.
  - destruct sa, sb; discriminate.
  - apply binary_normalize_not_nan.
Qed.

Lemma SFsqrt_nonneg (a : spec_float) :
  nonneg a -> nonneg (SFsqrt prec emax a).
Proof.
  intros Ha. destruct a as [s|s| |s m e]; cbn [nonneg] in Ha;
    try contradiction; subst; cbn [SFsqrt nonneg]; try exact I;
    try reflexivity.
  unfold SFsqrt_core_binary.
  set (e' := Z.min _ _). set (m' := match e - 2 * e' with
                                    | 0 => Z.pos m
                                    | Z.pos _ => Z.shiftl (Z.pos m) (e - 2 * e')
                                    | Z.neg _ => 0
                                    end).
  pose proof (Z.sqrtrem_sqrt m') as Hq. pose proof (Z.sqrt_nonneg m') as Hs.
  destruct (Z.sqrtrem m') as [q r]. cbn [fst] in Hq. subst q.
  apply signed_nonneg, binary_round_aux_signed. exact Hs.
Qed.


(** *** Division *)

Lemma new_location_located (nb k q : Z) (u : R) :
  0 <= k < nb -> 0 <= q -> (0 < u)%R ->
  located ((IZR q + IZR k / IZR nb) * u)
          (shr_record_of_loc q (new_location nb k)) u.
Proof.
  intros Hk Hq Hu.
  assert (Hnb : (0 < IZR nb)%R) by (apply IZR_lt; lia).
  set (t := (IZR k / IZR nb)%R).
  assert (Ht : (IZR k = t * IZR nb)%R) by (unfold t; field; lra).
  assert (Ht0 : k <> 0 -> (0 < t)%R).
  { intros Hk0. assert (0 < IZR k)%R by (apply IZR_lt; lia). nra. }
  assert (Ht1 : (t < 1)%R).
  { assert (IZR k < IZR nb)%R by (apply IZR_lt; lia). nra. }
  assert (Hlt : 2 * k < nb -> (t < / 2)%R).
  { intros H. apply IZR_lt in H. rewrite mult_IZR in H. nra. }
  assert (Hgt : nb < 2 * k -> (/ 2 < t)%R).
  { intros H. apply IZR_lt in H. rewrite mult_IZR in H. nra. }
  assert (Heq : 2 * k = nb -> (t = / 2)%R).
  { intros H. apply (f_equal IZR) in H. rewrite mult_IZR in H. nra. }
  unfold new_location, located.
  destruct (Z.even nb) eqn:Ev.
  - unfold new_location_even. destruct (Z.eqb_spec k 0) as [Hk0|Hk0].
    + cbn [shr_record_of_loc shr_m shr_r shr_s]. split; [exact Hq|].
      assert (t = 0)%R by (rewrite Hk0 in Ht; nra). nra.
    + specialize (Ht0 Hk0).
      destruct (Z.compare_spec (2 * k) nb) as [E|E|E];
        cbn [shr_record_of_loc shr_m shr_r shr_s]; (split; [exact Hq|]).
      * rewrite (Heq E). reflexivity.
      * specialize (Hlt E). nra.
      * specialize (Hgt E). nra.
  - unfold new_location_odd. destruct (Z.eqb_spec k 0) as [Hk0|Hk0].
    + cbn [shr_record_of_loc shr_m shr_r shr_s]. split; [exact Hq|].
      assert (t = 0)%R by (rewrite Hk0 in Ht; nra). nra.
    + specialize (Ht0 Hk0).
      assert (Hodd : 2 * k <> nb).
      { intros <-. rewrite Z.even_mul in Ev. discriminate. }
      destruct (Z.compare_spec (2 * k + 1) nb) as [E|E|E];
        cbn [shr_record_of_loc shr_m shr_r shr_s]; (split; [exact Hq|]).
      * assert (Hl : (t < / 2)%R) by (apply Hlt; lia). nra.
      * assert (Hl : (t < / 2)%R) by (apply Hlt; lia). nra.
      * assert (Hl : (/ 2 < t)%R) by (apply Hgt; lia). nra.
Qed.

Lemma SFdiv_core_located (m1 m2 : positive) (e1 e2 : Z) :
  exists q e' l,
    SFdiv_core_binary prec emax (Z.pos m1) e1 (Z.pos m2) e2 = (q, e', l)
    /\ located (IZR (Z.pos m1) * bpow e1 / (IZR (Z.pos m2) * bpow e2))
               (shr_record_of_loc q l) (bpow e')
    /\ e' <= fexp64 (Zdigits2 q + e').
Proof.
  unfold SFdiv_core_binary. rewrite fexp_eq. cbn [Zdigits2].
  set (d1 := Z.pos (digits2_pos m1)). set (d2 := Z.pos (digits2_pos m2)).
  set (e' := Z.min (fexp64 (d1 + e1 - (d2 + e2))) (e1 - e2)).
  set (s := e1 - e2 - e').
  assert (Hs : 0 <= s) by (unfold s, e'; lia).
  set (m' := match s with
             | 0 => Z.pos m1
             | Z.pos _ => Z.shiftl (Z.pos m1) s
             | Z.neg _ => 0
             end).
  assert (Hm' : m' = Z.pos m1 * 2 ^ s).
  { unfold m'. destruct s as [|p|p] eqn:Es; try lia.
    rewrite Z.shiftl_mul_pow2 by lia. reflexivity. }
  pose proof (Z_div_mod m' (Z.pos m2) ltac:(lia)) as Hdiv.
  assert (Hq : 0 <= fst (Z.div_eucl m' (Z.pos m2))).
  { change (fst (Z.div_eucl m' (Z.pos m2))) with (m' / Z.pos m2).
    apply Z.div_pos; [rewrite Hm'|]; lia. }
  destruct (Z.div_eucl m' (Z.pos m2)) as [q r]. cbn [fst] in Hq.
  destruct Hdiv as [Hqr Hr].
  exists q, e', (new_location (Z.pos m2) r). split; [reflexivity|]. split.
  - assert (Hx : (IZR (Z.pos m1) * bpow e1 / (IZR (Z.pos m2) * bpow e2)
                  = (IZR q + IZR r / IZR (Z.pos m2)) * bpow e')%R).
    { assert (Hm2 : (0 < IZR (Z.pos m2))%R) by (apply IZR_lt; lia).
      pose proof (bpow_pos e2). pose proof (bpow_pos e').
      assert (He1 : bpow e1 = (bpow s * bpow e' * bpow e2)%R).
      { rewrite <- !bpow_add. f_equal. unfold s. lia. }
      assert (Hmr : (IZR (Z.pos m1) * bpow s
                     = IZR (Z.pos m2) * IZR q + IZR r)%R).
      { rewrite bpow_IZR by lia.
        rewrite <- mult_IZR, <- Hm', Hqr, plus_IZR, mult_IZR. reflexivity. }
      rewrite He1.
      replace (IZR (Z.pos m1) * (bpow s * bpow e' * bpow e2)
               / (IZR (Z.pos m2) * bpow e2))%R
        with (IZR (Z.pos m1) * bpow s * bpow e' / IZR (Z.pos m2))%R
        by (field; lra).
      rewrite Hmr. field. lra. }
    rewrite Hx. apply new_location_located; [lia | exact Hq | apply bpow_pos].
  - destruct (Z.le_gt_cases e' (-1074)) as [Hlow|Hhigh].
    + unfold fexp64. lia.
    + assert (Hs53 : d2 - d1 + 53 <= s) by (unfold s, e', fexp64 in *; lia).
      pose proof (digits_bounds m1) as [L1 _].
      pose proof (digits_bounds m2) as [_ U2]. fold d1 in L1. fold d2 in U2.
      assert (Hd : 0 < d1 /\ 0 < d2) by (unfold d1, d2; lia).
      assert (Hbig : Z.pos m2 * 2 ^ 52 <= m').
      { rewrite Hm'.
        assert (2 ^ (d2 + 52) <= 2 ^ (d1 - 1 + s))
          by (apply Z.pow_le_mono_r; lia).
        rewrite !Z.pow_add_r in H by lia.
        assert (0 < 2 ^ 52) by lia. assert (0 < 2 ^ s) by (apply Z.pow_pos_nonneg; lia).
        nia. }
      assert (Hq52 : 2 ^ 52 <= q).
      { destruct (Z.le_gt_cases (2 ^ 52) q) as [|Hlt]; [assumption|exfalso].
        assert (Z.pos m2 * q + r < Z.pos m2 * 2 ^ 52) by nia. lia. }
      destruct q as [|p|p]; try lia. cbn [Zdigits2].
      pose proof (digits_bounds p) as [_ Up].
      set (dq := Z.pos (digits2_pos p)) in *.
      assert (53 <= dq).
      { destruct (Z.le_gt_cases 53 dq) as [|Hlt]; [assumption|exfalso].
        assert (2 ^ dq <= 2 ^ 52) by (apply Z.pow_le_mono_r; lia). lia. }
      unfold fexp64. lia.
Qed.

Theorem SFdiv_rounds (sa sb : bool) (ma mb : positive) (ea eb : Z) :
  signed (xorb sa sb)
         (SFdiv prec emax (S754_finite sa ma ea) (S754_finite sb mb eb))
  /\ (xorb sa sb = false ->
      rounds (value (S754_finite sa ma ea) / value (S754_finite sb mb eb))
             (SFdiv prec emax (S754_finite sa ma ea) (S754_finite sb mb eb))).
Proof.
  cbn [SFdiv value].
  destruct (SFdiv_core_located ma mb ea eb) as [q [e' [l [Hc [Hloc Hpre]]]]].
  rewrite Hc.
  assert (Hq : 0 <= q).
  { destruct Hloc as [H _]. destruct l as [|[| |]]; exact H. }
  split; [apply binary_round_aux_signed; exact Hq|].
  intros ->. apply (binary_round_aux_rounds _ q e' l Hloc Hpre).
Qed.


(** *** Integers *)

Lemma int_representable (p : positive) :
  Z.pos p < 2 ^ 53 ->
  exists f, valid_binary f = true /\ value f = IZR (Z.pos p).
Proof.
  intros Hp. pose proof (digits_bounds p) as [L U].
  set (d := Z.pos (digits2_pos p)) in *.
  assert (Hd : 0 < d <= 53).
  { split; [unfold d; lia|].
    destruct (Z.le_gt_cases d 53) as [|Hgt]; [assumption|exfalso].
    assert (2 ^ 53 <= 2 ^ (d - 1)) by (apply Z.pow_le_mono_r; lia). lia. }
  destruct (Z.eq_dec d 53) as [E|E].
  - exists (S754_finite false p 0). split; [|cbn [value bpow powerRZ]; lra].
    cbn [SpecFloat.valid_binary]. unfold SpecFloat.bounded, canonical_mantissa.
    rewrite fexp_eq. fold d. rewrite E. reflexivity.
  - destruct (iter_xO p (Z.to_pos (53 - d))) as [H1 H2].
    rewrite Z2Pos.id in H1, H2 by lia. fold d in H2.
    exists (S754_finite false (Pos.iter xO p (Z.to_pos (53 - d))) (d - 53)).
    split.
    + cbn [SpecFloat.valid_binary].
      unfold SpecFloat.bounded, canonical_mantissa.
      rewrite fexp_eq, H2. unfold fexp64. apply andb_true_iff.
      split; [apply Z.eqb_eq | apply Z.leb_le]; change (emax - prec) with 971;
        lia.
    + cbn [value]. rewrite H1, mult_IZR, <- bpow_IZR by lia.
      rewrite Rmult_assoc, <- bpow_add.
      replace (53 - d + (d - 53)) with 0 by lia. cbn [bpow powerRZ]. lra.
Qed.

Lemma float_of_Z_spec (z : Z) :
  0 <= z ->
  fnonneg (float_of_Z z) /\ rounds (IZR z) (Prim2SF (float_of_Z z)).
Proof.
  intros Hz. unfold fnonneg, float_of_Z.
  destruct z as [|p|p]; try lia; cbn [binary_normalize].
  - rewrite Prim2SF_SF2Prim by reflexivity. split; [exact I|].
    apply rounds_zero.
  - destruct (binary_round_rounds p 0) as [Hn [Hv Hr]].
    rewrite Prim2SF_SF2Prim by exact Hv. split; [exact Hn|].
    replace (IZR (Z.pos p)) with (IZR (Z.pos p) * bpow 0)%R
      by (cbn [bpow powerRZ]; lra).
    exact Hr.
Qed.

Lemma float_of_Z_exact (z : Z) :
  0 <= z < 2 ^ 53 -> fval (float_of_Z z) = IZR z.
Proof.
  intros Hz. destruct (float_of_Z_spec z (proj1 Hz)) as [_ Hr].
  destruct z as [|p|p]; try lia.
  - apply (rounds_exact _ _ (S754_zero false) Hr); reflexivity.
  - destruct (int_representable p (proj2 Hz)) as [f [Vf Hf]].
    apply (rounds_exact _ _ f Hr Vf Hf).
Qed.

(** *** The primitive operations *)

Lemma ffinite_flags (f : float) :
  PrimFloat.is_nan f = false -> PrimFloat.is_infinity f = false -> ffinite f.
Proof.
  intros Hn Hi. unfold ffinite, Prim2SF. rewrite Hn, Hi.
  destruct (is_zero f); [exact I|].
  destruct (Z.frexp f) as [r e].
  destruct (shr_fexp prec emax _ _ _) as [mrs e'].
  destruct (shr_m mrs); exact I.
Qed.

Lemma fnonneg_not_nan (f : float) :
  Prim2SF f <> S754_nan -> PrimFloat.is_nan f = false.
Proof.
  intros H. destruct (PrimFloat.is_nan f) eqn:E; [|reflexivity].
  exfalso. apply H. unfold Prim2SF. rewrite E. reflexivity.
Qed.

Lemma leb_fval (a b : float) :
  fnonneg a -> fnonneg b ->
  ((a <=? b)%float = true <-> (fval a <= fval b)%R).
Proof.
  intros Ha Hb. rewrite leb_spec.
  apply SFleb_value; try assumption; apply Prim2SF_valid.
Qed.

Lemma ltb_fval (a b : float) :
  fnonneg a -> fnonneg b ->
  ((a <? b)%float = true <-> (fval a < fval b)%R).
Proof.
  intros Ha Hb. rewrite ltb_spec.
  apply SFltb_value; try assumption; apply Prim2SF_valid.
Qed.

Lemma add_fnonneg (a b : float) :
  fnonneg a -> fnonneg b ->
  fnonneg (a + b)
  /\ (fval a <= fval (a + b))%R
  /\ (fval b <= fval (a + b))%R
  /\ (forall f, fnonneg f -> (fval a + fval b <= fval f)%R ->
        (fval (a + b) <= fval f)%R).
Proof.
  intros Ha Hb. unfold fnonneg, fval. rewrite add_spec.
  destruct (SFadd_nonneg _ _ Ha Hb (Prim2SF_valid a) (Prim2SF_valid b))
    as [H1 [H2 [H3 H4]]].
  repeat split; try assumption.
  intros f _ H. apply (H4 _ (Prim2SF_valid f) H).
Qed.

Lemma sub_not_nan (a b : float) :
  ffinite a -> ffinite b -> Prim2SF (a - b) <> S754_nan.
Proof. intros Ha Hb. rewrite sub_spec. apply SFsub_finite; assumption. Qed.

Lemma square_fnonneg (a : float) :
  Prim2SF a <> S754_nan -> fnonneg (a * a).
Proof. intros Ha. unfold fnonneg. rewrite mul_spec. apply SFmul_square, Ha. Qed.

Lemma sqrt_fnonneg (a : float) : fnonneg a -> fnonneg (PrimFloat.sqrt a).
Proof. intros Ha. unfold fnonneg. rewrite sqrt_spec. apply SFsqrt_nonneg, Ha. Qed.

Lemma fnonneg_leb_zero (a : float) :
  fnonneg a -> (0 <=? a)%float = true.
Proof.
  intros Ha. apply leb_fval; [exact I | exact Ha |].
  change (fval 0) with 0%R. apply value_nonneg.
Qed.


Lemma fval_nonneg (a : float) : (0 <= fval a)%R.
Proof. apply value_nonneg. Qed.

Lemma fnonneg_finite (a : float) :
  fnonneg a -> (fval a < bpow 1024)%R -> ffinite a.
Proof.
  unfold fnonneg, fval, ffinite.
  destruct (Prim2SF a); cbn [nonneg value finite]; auto; intros; lra.
Qed.

Lemma fnonneg_positive (a : float) :
  fnonneg a -> (0 < fval a < bpow 1024)%R ->
  exists m e, Prim2SF a = S754_finite false m e.
Proof.
  unfold fnonneg, fval.
  destruct (Prim2SF a) as [s|s| |s m e]; cbn [nonneg value]; intros H Hv;
    try lra; try contradiction.
  subst s. exists m, e. reflexivity.
Qed.

Lemma fval_one : fval 1 = 1%R.
Proof.
  unfold fval. change (Prim2SF 1) with (S754_finite false (2 ^ 52) (-52)).
  cbn [value]. change (Z.pos (2 ^ 52)) with (2 ^ 52).
  rewrite <- bpow_IZR, <- bpow_add by lia. reflexivity.
Qed.

Lemma mul_exact (a b : float) (f : spec_float) :
  fnonneg a -> fnonneg b -> ffinite a -> ffinite b ->
  valid_binary f = true -> value f = (fval a * fval b)%R ->
  fnonneg (a * b) /\ fval (a * b) = (fval a * fval b)%R.
Proof.
  intros Ha Hb Fa Fb Vf Hf. unfold fnonneg, fval. rewrite mul_spec.
  destruct (SFmul_rounds _ _ Ha Hb Fa Fb (Prim2SF_valid a) (Prim2SF_valid b))
    as [Hn Hr].
  split; [exact Hn|]. apply (rounds_exact _ _ f Hr Vf Hf).
Qed.

Lemma div_rounds (a b : float) :
  fnonneg a -> fnonneg b ->
  (0 < fval a < bpow 1024)%R -> (0 < fval b < bpow 1024)%R ->
  fnonneg (a / b) /\ rounds (fval a / fval b) (Prim2SF (a / b)).
Proof.
  intros Ha Hb Pa Pb.
  destruct (fnonneg_positive a Ha Pa) as [ma [ea Ea]].
  destruct (fnonneg_positive b Hb Pb) as [mb [eb Eb]].
  unfold fnonneg, fval. rewrite div_spec, Ea, Eb.
  destruct (SFdiv_rounds false false ma mb ea eb) as [Hs Hr].
  split; [apply signed_nonneg, Hs | apply Hr; reflexivity].
Qed.

(** A quotient of a number by one that is not smaller is at most 1. *)
Lemma div_le_one (a b : float) :
  fnonneg a -> fnonneg b ->
  (fval a <= fval b)%R -> (0 < fval b)%R -> (fval a < bpow 1024)%R ->
  fnonneg (a / b) /\ (fval (a / b) <= 1)%R.
Proof.
  intros Ha Hb Hab Pb Ta.
  unfold fnonneg, fval in *. rewrite div_spec. unfold SF64div.
  pose proof (Prim2SF_valid a) as Va. pose proof (Prim2SF_valid b) as Vb.
  destruct (Prim2SF a) as [sa|sa| |sa ma ea];
    destruct (Prim2SF b) as [sb|sb| |sb mb eb];
    cbn [nonneg value] in *; try contradiction; try lra; subst;
    try (cbn [SFdiv nonneg value]; split; [exact I | lra]).
  destruct (SFdiv_rounds false false ma mb ea eb) as [Hs Hr].
  split; [apply signed_nonneg, Hs|].
  specialize (Hr eq_refl (Prim2SF 1) (Prim2SF_valid 1)).
  change (value (Prim2SF 1)) with (fval 1) in Hr. rewrite fval_one in Hr.
  apply Hr. cbn [value].
  apply (Rmult_le_reg_r (IZR (Z.pos mb) * bpow eb)); [exact Pb|].
  unfold Rdiv. rewrite Rmult_assoc, Rinv_l by lra. lra.
Qed.

(** Zero divided by a positive number or by the infinity is zero. *)
Lemma zero_div (b : float) :
  fnonneg b -> (0 < fval b)%R -> (0 / b)%float = 0%float.
Proof.
  intros Hb Pb. apply Prim2SF_inj. rewrite div_spec.
  unfold fnonneg, fval in *.
  change (Prim2SF 0) with (S754_zero false).
  destruct (Prim2SF b) as [sb|sb| |sb mb eb]; cbn [nonneg value] in *;
    try contradiction; try lra; subst; reflexivity.
Qed.


Lemma SFadd_signed (a b : spec_float) :
  signed false a -> signed false b -> signed false (SFadd prec emax a b).
Proof.
  intros Ha Hb.
  destruct a as [sa|sa| |sa ma ea]; destruct b as [sb|sb| |sb mb eb];
    cbn [signed] in *; try contradiction; subst; cbn [SFadd];
    try reflexivity.
  cbn [cond_Zopp].
  change (Z.pos (fst (shl_align ma ea (Z.min ea eb)))
          + Z.pos (fst (shl_align mb eb (Z.min ea eb))))
    with (Z.pos (fst (shl_align ma ea (Z.min ea eb))
                 + fst (shl_align mb eb (Z.min ea eb)))).
  cbn [binary_normalize]. apply binary_round_signed.
Qed.

(** *** Numbers that are not below zero *)

Lemma add_not_negative (a b : float) :
  fnot_negative a -> fnot_negative b -> fnot_negative (a + b).
Proof.
  unfold fnot_negative, not_negative. rewrite add_spec. unfold SF64add.
  intros [Ha | Ha] [Hb | Hb]; try (left; rewrite Ha; reflexivity);
    try (left; rewrite Hb; destruct (Prim2SF a); reflexivity).
  right. apply SFadd_signed; assumption.
Qed.


Lemma div_not_negative (a b : float) :
  fnot_negative a -> fnot_negative b -> fnot_negative (a / b).
Proof.
  unfold fnot_negative, not_negative. rewrite div_spec. unfold SF64div.
  intros [Ha | Ha] [Hb | Hb]; try (left; rewrite Ha; reflexivity);
    try (left; rewrite Hb; destruct (Prim2SF a); reflexivity).
  destruct (Prim2SF a) as [sa|sa| |sa ma ea];
    destruct (Prim2SF b) as [sb|sb| |sb mb eb];
    cbn [signed] in Ha, Hb; try contradiction; subst;
    try (cbn [SFdiv xorb]; left; reflexivity);
    try (cbn [SFdiv xorb]; right; reflexivity).
  right. apply (proj1 (SFdiv_rounds false false ma mb ea eb)).
Qed.

Lemma sqrt_not_negative (a : float) :
  fnot_negative a -> fnot_negative (PrimFloat.sqrt a).
Proof.
  unfold fnot_negative, not_negative. rewrite sqrt_spec. unfold SF64sqrt.
  intros [Ha | Ha]; [left; rewrite Ha; reflexivity|].
  destruct (Prim2SF a) as [s|s| |s m e]; cbn [signed] in Ha;
    try contradiction; subst; cbn [SFsqrt]; try (right; reflexivity).
  right. unfold SFsqrt_core_binary.
  set (e' := Z.min _ _). set (m' := match e - 2 * e' with
                                    | 0 => Z.pos m
                                    | Z.pos _ => Z.shiftl (Z.pos m) (e - 2 * e')
                                    | Z.neg _ => 0
                                    end).
  pose proof (Z.sqrtrem_sqrt m') as Hq. pose proof (Z.sqrt_nonneg m') as Hs.
  destruct (Z.sqrtrem m') as [q r]. cbn [fst] in Hq. subst q.
  apply binary_round_aux_signed. exact Hs.
Qed.

Lemma square_not_negative (a : float) : fnot_negative (a * a).
Proof.
  unfold fnot_negative, not_negative. rewrite mul_spec. unfold SF64mul.
  destruct (Prim2SF a) as [s|s| |s m e]; cbn [SFmul];
    try (left; reflexivity); try (right; destruct s; reflexivity).
  right. replace (xorb s s) with false by (destruct s; reflexivity).
  apply binary_round_aux_signed. lia.
Qed.


Lemma not_negative_ltb (a : float) :
  fnot_negative a -> (a <? 0)%float = false.
Proof.
  intros [Ha | Ha].
  - rewrite ltb_spec, Ha. reflexivity.
  - destruct (a <? 0)%float eqn:E; [|reflexivity].
    apply ltb_fval in E; [|exact (signed_nonneg _ Ha) | exact I].
    change (fval 0) with 0%R in E. pose proof (fval_nonneg a). lra.
Qed.

(** *** The nearest binary64 number *)

Lemma round_nearest_even_half (x : R) (mrs : shr_record) (u : R) :
  (0 < u)%R -> located x mrs u ->
  (round_nearest_even (shr_m mrs) (loc_of_shr_record mrs) = shr_m mrs
   /\ (x <= (IZR (shr_m mrs) + / 2) * u)%R)
  \/ (round_nearest_even (shr_m mrs) (loc_of_shr_record mrs) = shr_m mrs + 1
      /\ ((IZR (shr_m mrs) + / 2) * u <= x)%R).
Proof.
  destruct mrs as [m r s]. unfold located. cbn [shr_m shr_r shr_s].
  intros Hu [Hm Hx].
  destruct r, s; cbn [loc_of_shr_record round_nearest_even].
  - right. split; [reflexivity | lra].
  - destruct (Z.even m); [left | right]; (split; [reflexivity | lra]).
  - left. split; [reflexivity | lra].
  - left. split; [reflexivity | nra].
Qed.

Lemma between_neighbours (x a lo hi v : R) :
  (lo <= x <= hi)%R ->
  (a = lo /\ x - lo <= hi - x)%R \/ (a = hi /\ hi - x <= x - lo)%R ->
  (v <= lo \/ hi <= v)%R ->
  (Rabs (x - a) <= Rabs (x - v))%R.
Proof.
  intros Hx Ha Hv. unfold Rabs.
  destruct (Rcase_abs (x - a)), (Rcase_abs (x - v)); lra.
Qed.

(** The result of a rounding is a binary64 number nearest to the number
    that was rounded, the infinity counting as [2 ^ 1024]. *)
Theorem binary_round_aux_nearest (x : R) (mx ex : Z) (lx : location) :
  located x (shr_record_of_loc mx lx) (bpow ex) ->
  ex <= fexp64 (Zdigits2 mx + ex) ->
  nearest x (binary_round_aux prec emax false mx ex lx).
Proof.
  intros Hloc Hpre.
  destruct (shr_fexp_located x mx ex lx Hloc Hpre) as [mrs [Hshr Hloc']].
  set (E := fexp64 (Zdigits2 mx + ex)) in *.
  pose proof (bpow_pos E) as Hu.
  destruct (located_bounds x mrs _ Hu Hloc') as [[Hlo Hhi] _].
  assert (Hm0 : 0 <= shr_m mrs) by (destruct Hloc'; assumption).
  destruct (located_record x mx lx _ Hloc) as [_ Hmx].
  assert (HmxN : 0 <= mx) by (destruct Hloc as [H _]; rewrite Hmx in H; exact H).
  destruct (located_bounds x _ _ (bpow_pos ex) Hloc) as [[Hxlo Hxhi] _].
  rewrite Hmx in Hxlo, Hxhi.
  assert (Hxtop : (x < bpow (Zdigits2 mx + ex))%R).
  { pose proof (Zdigits2_bpow mx HmxN). rewrite bpow_add.
    pose proof (bpow_pos ex). nra. }
  assert (HE : -1074 <= E /\ Zdigits2 mx + ex - 53 <= E)
    by (unfold E, fexp64; lia).
  assert (Hm53 : shr_m mrs < 2 ^ 53).
  { apply lt_IZR. rewrite <- bpow_IZR by lia.
    pose proof (bpow_le (Zdigits2 mx + ex) (53 + E) ltac:(lia)) as H.
    rewrite (bpow_add 53 E) in H.
    apply (Rmult_lt_reg_r (bpow E)); [exact Hu | lra]. }
  assert (Hnorm : E = -1074 \/ 2 ^ 52 <= shr_m mrs).
  { destruct (Z.eq_dec E (-1074)) as [|HnE]; [left; assumption | right].
    assert (HEq : E = Zdigits2 mx + ex - 53) by (unfold E, fexp64 in *; lia).
    destruct mx as [|p|p]; [cbn [Zdigits2] in *; lia| |lia].
    cbn [Zdigits2] in *. pose proof (digits_bpow p) as [Dlo _].
    assert (Hx52 : (bpow 52 * bpow E <= x)%R).
    { rewrite <- bpow_add.
      replace (52 + E) with (Z.pos (digits2_pos p) - 1 + ex) by lia.
      rewrite bpow_add. pose proof (bpow_pos ex). nra. }
    assert (HH : (bpow 52 < IZR (shr_m mrs) + 1)%R) by nra.
    rewrite bpow_IZR, <- plus_IZR in HH by lia. apply lt_IZR in HH. lia. }
  set (m := shr_m mrs) in *.
  set (m'' := round_nearest_even m (loc_of_shr_record mrs)).
  assert (Hr : (m'' = m /\ (x <= (IZR m + / 2) * bpow E)%R)
               \/ (m'' = m + 1 /\ ((IZR m + / 2) * bpow E <= x)%R))
    by (apply round_nearest_even_half; assumption).
  assert (Hm'' : 0 <= m'' <= 2 ^ 53) by lia.
  assert (Hnorm'' : E = -1074 \/ 2 ^ 52 <= m'') by lia.
  destruct (shr_fexp_rounded m'' E Hm'' (proj1 HE) Hnorm'')
    as [mf [ef [H2 [Hval [Hshape Hef]]]]].
  assert (Hm53' : (IZR m + 1 <= bpow 53)%R).
  { rewrite bpow_IZR, <- plus_IZR by lia. apply IZR_le. lia. }
  (* every binary64 number is at most the lower or at least the upper
     neighbour of [x] on the grid *)
  assert (Hgrid : E <= 971 -> forall f, valid_binary f = true ->
            (value f <= IZR m * bpow E)%R
            \/ ((IZR m + 1) * bpow E <= value f)%R).
  { intros HE971 f Hvf.
    assert (Htop : ((IZR m + 1) * bpow E <= bpow 1024)%R).
    { pose proof (bpow_le (53 + E) 1024 ltac:(lia)) as H.
      rewrite bpow_add in H. nra. }
    destruct f as [s|s| |s mg eg].
    - left. cbn [value]. assert (0 <= IZR m)%R by (apply IZR_le; lia). nra.
    - right. exact Htop.
    - left. cbn [value]. assert (0 <= IZR m)%R by (apply IZR_le; lia). nra.
    - destruct (grid (S754_finite s mg eg) m E Hvf ltac:(intros; discriminate)
                  Hm0 (proj1 HE) Hnorm) as [Ga Gb].
      destruct (Rle_lt_dec (value (S754_finite s mg eg)) (IZR m * bpow E))
        as [Hle|Hlt]; [left; exact Hle | right; apply Gb; exact Hlt]. }
  assert (Hnear : E <= 971 -> forall f, valid_binary f = true ->
            (Rabs (x - IZR m'' * bpow E) <= Rabs (x - value f))%R).
  { intros HE971 f Hvf.
    apply (between_neighbours x _ (IZR m * bpow E) ((IZR m + 1) * bpow E));
      [lra | | apply (Hgrid HE971 f Hvf)].
    destruct Hr as [[-> Hh] | [-> Hh]]; [left | right];
      (split; [try rewrite plus_IZR; reflexivity | lra]). }
  unfold binary_round_aux. rewrite Hshr. fold m. fold m''. rewrite H2.
  cbn [shr_m].
  destruct Hshape as [[-> Hz] | [p [-> [Hpos Hcan]]]].
  - (* the result is zero *)
    intros f Hvf. cbn [value].
    replace 0%R with (IZR m'' * bpow E)%R by (rewrite Hz; lra).
    apply Hnear; [lia | exact Hvf].
  - destruct (canonical_bounds p ef Hcan) as [Hef0 [Hp53 Hpn]].
    cbn [value] in Hval.
    destruct (Z.leb_spec ef (emax - prec)) as [Hle|Hgt];
      change (emax - prec) with 971 in *.
    + (* a finite result *)
      intros f Hvf. cbn [value]. rewrite Hval.
      apply Hnear; [lia | exact Hvf].
    + (* overflow *)
      intros f Hvf. cbn [value].
      destruct (Z.le_gt_cases E 971) as [HE971 | HE972].
      * assert (Hm2 : m'' = 2 ^ 53 /\ E = 971) by lia.
        destruct Hm2 as [Hm2 HE2].
        replace (bpow 1024) with (IZR m'' * bpow E)%R.
        -- apply Hnear; [lia | exact Hvf].
        -- rewrite Hm2, HE2, <- bpow_IZR, <- bpow_add by lia. reflexivity.
      * assert (H52 : 2 ^ 52 <= m) by lia.
        apply IZR_le in H52. rewrite <- bpow_IZR in H52 by lia.
        pose proof (bpow_le 972 E ltac:(lia)) as HE'.
        assert (Hx : (bpow 1024 <= x)%R).
        { change (bpow 1024) with (bpow (52 + 972)). rewrite bpow_add.
          pose proof (bpow_pos 52). pose proof (bpow_pos 972). nra. }
        pose proof (value_le_top f Hvf) as Hf.
        unfold Rabs.
        destruct (Rcase_abs (x - bpow 1024)), (Rcase_abs (x - value f)); lra.
Qed.

Theorem binary_round_nearest (m : positive) (e : Z) :
  nearest (IZR (Z.pos m) * bpow e) (binary_round prec emax false m e).
Proof.
  unfold binary_round. rewrite fexp_eq.
  set (E := fexp64 (Z.pos (digits2_pos m) + e)).
  destruct (Z.le_gt_cases E e) as [Hle | Hgt].
  - destruct (shl_align_value m e E Hle) as [H1 [H2 H3]].
    destruct (shl_align m e E) as [mz ez]. cbn [fst snd] in *. subst ez.
    apply binary_round_aux_nearest.
    + unfold located. cbn [shr_record_of_loc shr_m shr_r shr_s].
      split; [lia | symmetry; exact H2].
    + cbn [Zdigits2]. rewrite H3. fold E. lia.
  - unfold shl_align. destruct (E - e) as [|d|d] eqn:Ed; try lia.
    apply binary_round_aux_nearest.
    + unfold located. cbn [shr_record_of_loc shr_m shr_r shr_s].
      split; [lia | reflexivity].
    + cbn [Zdigits2]. fold E. lia.
Qed.

(** The sum of two numbers that are not negative is rounded to a nearest
    binary64 number. *)
Theorem SFadd_nearest (a b : spec_float) :
  nonneg a -> nonneg b -> valid_binary a = true -> valid_binary b = true ->
  nearest (value a + value b) (SFadd prec emax a b).
Proof.
  intros Ha Hb Va Vb.
  pose proof (value_nonneg a) as Pa. pose proof (value_nonneg b) as Pb.
  assert (Hexact : forall x r, value r = x -> nearest x r).
  { intros x r Hx f _. rewrite Hx, Rminus_diag, Rabs_R0. apply Rabs_pos. }
  assert (Hinf : forall x r, value r = bpow 1024 -> (bpow 1024 <= x)%R ->
            nearest x r).
  { intros x r Hr Hx f Vf. rewrite Hr. pose proof (value_le_top f Vf).
    unfold Rabs.
    destruct (Rcase_abs (x - bpow 1024)), (Rcase_abs (x - value f)); lra. }
  destruct a as [sa|sa| |sa ma ea]; destruct b as [sb|sb| |sb mb eb];
    cbn [nonneg] in Ha, Hb; try contradiction; subst;
    try (apply Hexact; cbn [SFadd value]; lra);
    try (apply Hinf; cbn [SFadd value] in *; [reflexivity | lra]).
  - assert (Hz : exists s, SFadd prec emax (S754_zero sa) (S754_zero sb)
                           = S754_zero s)
      by (destruct sa, sb; eexists; reflexivity).
    destruct Hz as [s ->]. apply Hexact. cbn [value]. lra.
  - cbn [SFadd cond_Zopp]. set (ez := Z.min ea eb).
    destruct (shl_align_value ma ea ez ltac:(lia)) as [_ [Hva _]].
    destruct (shl_align_value mb eb ez ltac:(lia)) as [_ [Hvb _]].
    set (fa := fst (shl_align ma ea ez)) in *.
    set (fb := fst (shl_align mb eb ez)) in *.
    change (Z.pos fa + Z.pos fb) with (Z.pos (fa + fb)).
    cbn [binary_normalize].
    pose proof (binary_round_nearest (fa + fb) ez) as Hr.
    assert (Hx : (IZR (Z.pos (fa + fb)) * bpow ez
                  = value (S754_finite false ma ea)
                    + value (S754_finite false mb eb))%R).
    { rewrite Pos2Z.inj_add, plus_IZR. cbn [value]. lra. }
    rewrite Hx in Hr. exact Hr.
Qed.

Lemma add_nearest (a b : float) (f : spec_float) :
  fnonneg a -> fnonneg b -> valid_binary f = true ->
  (Rabs (fval a + fval b - fval (a + b))
   <= Rabs (fval a + fval b - value f))%R.
Proof.
  intros Ha Hb Vf. unfold fval. rewrite add_spec.
  apply (SFadd_nearest _ _ Ha Hb (Prim2SF_valid a) (Prim2SF_valid b)), Vf.
Qed.

Lemma scaled_representable (p : positive) (E : Z) :
  Z.pos p < 2 ^ 53 -> -1022 <= E <= 971 ->
  exists f, valid_binary f = true /\ value f = (IZR (Z.pos p) * bpow E)%R.
Proof.
  intros Hp HE. pose proof (digits_bounds p) as [L U].
  set (d := Z.pos (digits2_pos p)) in *.
  assert (Hd : 0 < d <= 53).
  { split; [unfold d; lia|].
    destruct (Z.le_gt_cases d 53) as [|Hgt]; [assumption|exfalso].
    assert (2 ^ 53 <= 2 ^ (d - 1)) by (apply Z.pow_le_mono_r; lia). lia. }
  destruct (Z.eq_dec d 53) as [Ed|Ed].
  - exists (S754_finite false p E). split; [|reflexivity].
    cbn [SpecFloat.valid_binary]. unfold SpecFloat.bounded, canonical_mantissa.
    rewrite fexp_eq. fold d. rewrite Ed. unfold fexp64. apply andb_true_iff.
    split; [apply Z.eqb_eq | apply Z.leb_le]; change (emax - prec) with 971;
      lia.
  - destruct (iter_xO p (Z.to_pos (53 - d))) as [H1 H2].
    rewrite Z2Pos.id in H1, H2 by lia. fold d in H2.
    exists (S754_finite false (Pos.iter xO p (Z.to_pos (53 - d)))
                        (d - 53 + E)).
    split.
    + cbn [SpecFloat.valid_binary].
      unfold SpecFloat.bounded, canonical_mantissa.
      rewrite fexp_eq, H2. unfold fexp64. apply andb_true_iff.
      split; [apply Z.eqb_eq | apply Z.leb_le]; change (emax - prec) with 971;
        lia.
    + cbn [value]. rewrite H1, mult_IZR, <- bpow_IZR by lia.
      rewrite Rmult_assoc, <- bpow_add.
      replace (53 - d + (d - 53 + E)) with E by lia. reflexivity.
Qed.

Lemma eqb_fval (a b : float) :
  fnonneg a -> fnonneg b ->
  ((a =? b)%float = true <-> fval a = fval b).
Proof.
  intros Ha Hb. rewrite eqb_spec.
  apply SFeqb_value; try assumption; apply Prim2SF_valid.
Qed.

End Binary64Facts.

(** ** The dice score *)

Module MetricsFacts.
Import Py MaskCodec Num Metrics MaskCodecFacts Binary64 Binary64Facts.

Local Open Scope R_scope.

(** The literal [1e-10] in binary64. *)
Example EPS_ieee : EPS (F := float) = 0x1.b7cdfd9d7bdbbp-34%float.
Proof. vm_compute. reflexivity. Qed.

Lemma EPS_positive :
  fnonneg (EPS (F := float)) /\ 0 < fval (EPS (F := float)) <= 1.
Proof.
  assert (Hn : fnonneg (EPS (F := float))) by (vm_compute; reflexivity).
  split; [exact Hn|]. split.
  - change 0 with (fval 0%float). apply ltb_fval; [exact I | exact Hn|].
    vm_compute. reflexivity.
  - rewrite <- fval_one. apply leb_fval; [exact Hn | reflexivity|].
    vm_compute. reflexivity.
Qed.

Lemma count_true_nonneg (b : list bool) : (0 <= count_true b)%Z.
Proof. unfold count_true. lia. Qed.

Lemma count_true_length (b : list bool) :
  (count_true b <= Z.of_nat (length b))%Z.
Proof.
  unfold count_true. apply inj_le.
  induction b as [|x b IH]; [reflexivity|].
  destruct x; cbn [filter length]; lia.
Qed.

Lemma count_true_and (a b : list bool) :
  (count_true (zip_with andb a b) <= count_true a)%Z
  /\ (count_true (zip_with andb a b) <= count_true b)%Z.
Proof.
  unfold count_true. revert b. induction a as [|x a IH]; intros b.
  - cbn [zip_with filter length]. split; lia.
  - destruct b as [|y b].
    + cbn [zip_with filter length]. split; lia.
    + destruct (IH b) as [IH1 IH2].
      destruct x, y; cbn [zip_with andb filter length]; split; lia.
Qed.

Lemma zip_with_and_self (a : list bool) : zip_with andb a a = a.
Proof.
  induction a as [|x a IH]; [reflexivity|]. cbn [zip_with]. rewrite IH.
  destruct x; reflexivity.
Qed.

Lemma count_true_zero (mask : ndarray) :
  Forall (fun p => p = 0%Z) (nd_data mask) ->
  count_true (astype_bool mask) = 0%Z.
Proof.
  unfold count_true, astype_bool. intros Hz.
  induction Hz as [|x l Hx Hz IH]; [reflexivity|]. subst x. exact IH.
Qed.

Lemma logical_and_same_shape (t p : ndarray) :
  nd_rows t = nd_rows p -> nd_cols t = nd_cols p ->
  logical_and t p = Ok (zip_with andb (astype_bool t) (astype_bool p)).
Proof.
  intros Hr Hc. unfold logical_and. rewrite Hr, Hc, !Nat.eqb_refl. reflexivity.
Qed.

(** The quotient that [dice] returns on masks of one shape. *)
Lemma dice_same_shape {F : Type} `{Arith F} (t p : ndarray) :
  nd_rows t = nd_rows p -> nd_cols t = nd_cols p ->
  dice (F := F) t p
  = Ok (div (mul (of_Z 2)
                 (of_Z (count_true (zip_with andb (astype_bool t)
                                             (astype_bool p)))))
            (add (of_Z (count_true (astype_bool t)
                        + count_true (astype_bool p)))
                 EPS)).
Proof.
  intros Hr Hc. unfold dice. rewrite logical_and_same_shape by assumption.
  reflexivity.
Qed.

(** The quotient in binary64, for [i] common pixels out of [s] foreground
    pixels in all: the counts are small enough to be binary64 numbers, so
    that the only roundings are those of the sum with [EPS] and of the
    quotient, and neither steps over a binary64 number. *)
Lemma dice_quotient (i s : Z) :
  (0 <= i)%Z -> (2 * i <= s)%Z -> (s + 1 < 2 ^ 53)%Z ->
  let d := (float_of_Z 2 * float_of_Z i / (float_of_Z s + EPS))%float in
  fnonneg d
  /\ fval d <= 1
  /\ (i = 0%Z -> d = 0%float)
  /\ ((1 <= i)%Z -> bpow (-53) <= fval d)
  /\ ((1 <= i)%Z -> (s <= 2 * i)%Z -> / 2 <= fval d).
Proof.
  intros Hi His Hs d.
  assert (Htop : bpow 53 < bpow 1024) by (apply bpow_lt; lia).
  assert (Hint : forall z, (0 <= z < 2 ^ 53)%Z ->
            fnonneg (float_of_Z z) /\ fval (float_of_Z z) = IZR z
            /\ IZR z < bpow 53).
  { intros z Hz. split; [apply float_of_Z_spec; lia|].
    split; [apply float_of_Z_exact; exact Hz|].
    rewrite bpow_IZR by lia. apply IZR_lt. lia. }
  destruct (Hint 2%Z ltac:(lia)) as [N2 [V2 T2]].
  destruct (Hint i ltac:(lia)) as [Ni [Vi Ti]].
  destruct (Hint s ltac:(lia)) as [Ns [Vs Ts]].
  destruct (Hint (s + 1)%Z ltac:(lia)) as [Ns1 [Vs1 Ts1]].
  destruct EPS_positive as [Ne [Pe Le]].
  assert (Hi0 : 0 <= IZR i) by (apply IZR_le; exact Hi).
  assert (His' : 2 * IZR i <= IZR s)
    by (rewrite <- (mult_IZR 2); apply IZR_le; exact His).
  (* the numerator is exact *)
  assert (HN : fnonneg (float_of_Z 2 * float_of_Z i)
               /\ fval (float_of_Z 2 * float_of_Z i) = 2 * IZR i).
  { assert (Hf : exists f, valid_binary f = true /\ value f = 2 * IZR i).
    { rewrite <- (mult_IZR 2). destruct (2 * i)%Z as [|q|q] eqn:E; try lia.
      - exists (S754_zero false). split; reflexivity.
      - apply int_representable. lia. }
    destruct Hf as [f [Vf Hf]]. rewrite <- V2, <- Vi in Hf |- *.
    apply (mul_exact _ _ f); try assumption;
      apply fnonneg_finite; try assumption; lra. }
  destruct HN as [NN VN].
  (* the denominator is between the sum of the counts and the next integer *)
  destruct (add_fnonneg (float_of_Z s) EPS Ns Ne) as [ND [D1 [D2 D3]]].
  specialize (D3 (float_of_Z (s + 1)) Ns1).
  rewrite Vs1, plus_IZR in D3. rewrite Vs in D1, D3.
  specialize (D3 ltac:(lra)).
  set (N := (float_of_Z 2 * float_of_Z i)%float) in *.
  set (D := (float_of_Z s + EPS)%float) in *.
  assert (TD : fval D < bpow 1024) by (rewrite plus_IZR in Ts1; lra).
  destruct (div_le_one N D NN ND ltac:(lra) ltac:(lra) ltac:(lra))
    as [Nd Vd].
  split; [exact Nd|]. split; [exact Vd|].
  assert (Hlow : forall f, valid_binary f = true -> (1 <= i)%Z ->
            value f * (IZR s + 1) <= 2 * IZR i -> value f <= fval d).
  { intros f Vf Hi1 Hf. apply IZR_le in Hi1.
    destruct (div_rounds N D NN ND ltac:(lra) ltac:(lra)) as [_ Hr].
    apply (Hr f Vf). rewrite VN.
    apply (Rmult_le_reg_r (fval D)); [lra|].
    unfold Rdiv. rewrite Rmult_assoc, Rinv_l by lra.
    pose proof (value_nonneg f). nra. }
  split; [|split].
  - intros ->. unfold d.
    change (float_of_Z 2 * float_of_Z 0)%float with 0%float.
    apply zero_div; [exact ND | lra].
  - intros Hi1.
    assert (Hv : value (S754_finite false (2 ^ 52) (-105)) = bpow (-53)).
    { cbn [value]. change (Z.pos (2 ^ 52)) with (2 ^ 52)%Z.
      rewrite <- bpow_IZR, <- bpow_add by lia. reflexivity. }
    rewrite <- Hv. apply Hlow; [reflexivity | exact Hi1|]. rewrite Hv.
    assert (bpow (-53) * bpow 53 = 1) by (rewrite <- bpow_add; reflexivity).
    pose proof (bpow_pos (-53)). rewrite plus_IZR in Ts1.
    apply IZR_le in Hi1. nra.
  - intros Hi1 Hsi.
    assert (Hv : value (S754_finite false (2 ^ 52) (-53)) = / 2).
    { cbn [value]. change (Z.pos (2 ^ 52)) with (2 ^ 52)%Z.
      rewrite <- bpow_IZR, <- bpow_add by lia. exact bpow_half. }
    rewrite <- Hv. apply Hlow; [reflexivity | exact Hi1|]. rewrite Hv.
    apply IZR_le in Hi1, Hsi. rewrite mult_IZR in Hsi. lra.
Qed.

(** C4, as stated, fails: the dice score of a one-pixel mask against itself,
    computed in binary64 as numpy does, is below 1. *)
Lemma dice_self_below_one :
  two_valued 255 Samples.mask_pixel
  /\ exists d, dice (F := float) Samples.mask_pixel Samples.mask_pixel = Ok d
               /\ PrimFloat.ltb d 1%float = true.
Proof.
  split; [repeat constructor; right; reflexivity|].
  exists 0x1.ffffffff920c8p-1%float. split; vm_compute; reflexivity.
Qed.

(** C4, amended: in binary64 the dice score of two masks of one shape and
    of fewer than 2^52 pixels lies in [0, 1]; it is 0.0 exactly when the
    masks have no foreground pixel in common, so against an all-zero
    prediction; of a mask with [k] foreground pixels against itself it is
    the rounded quotient of 2k by the rounded sum 2k + EPS, which is 0.0
    for the all-zero mask and otherwise at least 0.5. *)
Theorem dice_values (t p : ndarray) :
  nd_rows t = nd_rows p -> nd_cols t = nd_cols p ->
  (Z.of_nat (length (nd_data t)) < 2 ^ 52)%Z ->
  (Z.of_nat (length (nd_data p)) < 2 ^ 52)%Z ->
  exists d,
    dice (F := float) t p = Ok d
    /\ PrimFloat.leb 0 d = true
    /\ PrimFloat.leb d 1 = true
    /\ (Forall (fun x => x = 0%Z) (nd_data p) -> d = 0%float)
    /\ (d = 0%float
        <-> count_true (zip_with andb (astype_bool t) (astype_bool p)) = 0%Z)
    /\ (t = p ->
        let k := count_true (astype_bool t) in
        d = (float_of_Z 2 * float_of_Z k / (float_of_Z (k + k) + EPS))%float
        /\ ((1 <= k)%Z -> PrimFloat.leb 0.5 d = true)).
Proof.
  intros Hr Hc Ht Hp. rewrite (dice_same_shape t p Hr Hc). eexists.
  split; [reflexivity|].
  destruct (count_true_and (astype_bool t) (astype_bool p)) as [Hit Hip].
  pose proof (count_true_nonneg (zip_with andb (astype_bool t) (astype_bool p)))
    as Hi.
  pose proof (count_true_length (astype_bool t)) as Lt.
  pose proof (count_true_length (astype_bool p)) as Lp.
  unfold astype_bool in Lt, Lp at 2. rewrite length_map in Lt, Lp.
  fold (astype_bool t) in Lt. fold (astype_bool p) in Lp.
  set (i := count_true (zip_with andb (astype_bool t) (astype_bool p))) in *.
  set (ct := count_true (astype_bool t)) in *.
  set (cp := count_true (astype_bool p)) in *.
  change (div (mul (of_Z 2) (of_Z i)) (add (of_Z (ct + cp)) EPS))
    with (float_of_Z 2 * float_of_Z i / (float_of_Z (ct + cp) + EPS))%float.
  destruct (dice_quotient i (ct + cp) Hi ltac:(lia) ltac:(lia))
    as [Nd [Vd [Hz [Hpos Hself]]]].
  set (d := (float_of_Z 2 * float_of_Z i / (float_of_Z (ct + cp) + EPS))%float)
    in *.
  split; [apply fnonneg_leb_zero, Nd|].
  split; [apply leb_fval; [exact Nd | reflexivity | rewrite fval_one; exact Vd]|].
  split; [|split].
  - intros Hzero. apply Hz. unfold cp in Hip.
    rewrite (count_true_zero p Hzero) in Hip. lia.
  - split; [|exact Hz]. intros Hd.
    destruct (Z.eq_dec i 0) as [|Hne]; [assumption|exfalso].
    specialize (Hpos ltac:(lia)). rewrite Hd in Hpos.
    change (fval 0%float) with 0 in Hpos. pose proof (bpow_pos (-53)). lra.
  - intros Htp. cbn zeta. subst p.
    assert (Hik : i = ct) by (unfold i; rewrite zip_with_and_self; reflexivity).
    split; [unfold d; rewrite Hik; reflexivity|].
    intros Hk. apply leb_fval; [reflexivity | exact Nd|].
    assert (Hhalf : fval 0.5%float = / 2).
    { unfold fval.
      change (Prim2SF 0.5) with (S754_finite false (2 ^ 52) (-53)).
      cbn [value]. change (Z.pos (2 ^ 52)) with (2 ^ 52)%Z.
      rewrite <- bpow_IZR, <- bpow_add by lia. exact bpow_half. }
    rewrite Hhalf. apply Hself; rewrite Hik; [exact Hk | unfold cp; lia].
Qed.

Lemma dice_values_witness :
  exists d,
    dice (F := float) Samples.mask_pixel Samples.mask_pixel = Ok d
    /\ PrimFloat.leb 0 d = true
    /\ PrimFloat.leb d 1 = true.
Proof.
  destruct (dice_values Samples.mask_pixel Samples.mask_pixel eq_refl eq_refl)
    as [d [Hd [H0 [H1 _]]]].
  - cbn. lia.
  - cbn. lia.
  - exists d. repeat split; assumption.
Defined.

End MetricsFacts.

(** ** Trajectories *)

Module TrajectoryFacts.
Import Py PyFacts Num Trajectory TrajectoryMetrics.
Import MaskCodec (zip_with).

Section Generic.
Context {F : Type} `{Arith F}.

Lemma dict_get_set_same (d : DataFrame (F := F)) (k : string) (v : list F) :
  dict_get (dict_set d k v) k = Some v.
Proof.
  induction d as [|[k' w] d IH]; cbn [dict_set dict_get].
  - rewrite String.eqb_refl. reflexivity.
  - destruct (String.eqb k' k) eqn:E; cbn [dict_get]; rewrite E;
      [reflexivity | exact IH].
Qed.

Lemma dict_get_set_other (d : DataFrame (F := F)) (k k' : string) (v : list F) :
  k' <> k -> dict_get (dict_set d k v) k' = dict_get d k'.
Proof.
  intros Hne. induction d as [|[k0 w] d IH]; cbn [dict_set dict_get].
  - destruct (String.eqb k k') eqn:E; [|reflexivity].
    apply String.eqb_eq in E. congruence.
  - destruct (String.eqb k0 k) eqn:E; cbn [dict_get].
    + apply String.eqb_eq in E. subst k0.
      destruct (String.eqb k k') eqn:E'; [|reflexivity].
      apply String.eqb_eq in E'. congruence.
    + destruct (String.eqb k0 k'); [reflexivity | exact IH].
Qed.

Lemma dict_set_rows (n : nat) (d : DataFrame (F := F)) (k : string) (v : list F) :
  all_rows n d -> length v = n -> all_rows n (dict_set d k v).
Proof.
  unfold all_rows. intros Hd Hv.
  induction Hd as [|[k' w] d Hw Hd IH]; cbn [dict_set].
  - repeat constructor. exact Hv.
  - destruct (String.eqb k' k); constructor; assumption.
Qed.

Lemma dict_set_nonempty (d : DataFrame (F := F)) (k : string) (v : list F) :
  dict_set d k v <> [].
Proof.
  destruct d as [|[k' w] d]; cbn [dict_set]; [discriminate|].
  destruct (String.eqb k' k); discriminate.
Qed.

Lemma all_rows_same_lengths (n : nat) (d : DataFrame (F := F)) :
  all_rows n d -> same_lengths d = true.
Proof.
  unfold all_rows. intros Hd. destruct Hd as [|[k v] d Hv Hd]; [reflexivity|].
  cbn [same_lengths]. apply forallb_forall. intros c Hc.
  rewrite Forall_forall in Hd. specialize (Hd c Hc). cbn [snd] in Hv.
  apply Nat.eqb_eq. congruence.
Qed.

Lemma all_rows_get (n : nat) (d : DataFrame (F := F)) (k : string) (v : list F) :
  all_rows n d -> dict_get d k = Some v -> length v = n.
Proof.
  unfold all_rows. intros Hd. induction Hd as [|[k' w] d Hw Hd IH];
    cbn [dict_get]; [discriminate|].
  destruct (String.eqb k' k); [|exact IH]. intros [= <-]. exact Hw.
Qed.

(** [np.interp] returns one value for each point it is asked for. *)
Lemma interp_ok (x xp fp : list F) :
  xp <> [] -> length fp = length xp ->
  interp x xp fp = Ok (map (interp_at xp fp) x).
Proof.
  intros Hne Hlen. unfold interp.
  destruct xp as [|a xp]; [congruence|]. cbn [length Nat.eqb].
  rewrite Hlen. cbn [length]. rewrite Nat.eqb_refl. reflexivity.
Qed.

Lemma interp_empty (x fp : list F) : interp x [] fp = Raise ValueError.
Proof. reflexivity. Qed.

(** The loop of [extend_data] keeps the timestamps it was given and adds a
    column of as many rows for every column that it extends. *)
Lemma extend_columns_ok (data : DataFrame (F := F)) (t : list F) (column_by : string)
    (t_inter : list F) (columns : list string) :
  t <> [] ->
  ~ In column_by columns ->
  (forall c, In c columns ->
     exists arr, loc_values data c = Ok arr /\ length arr = length t) ->
  forall acc,
    all_rows (length t_inter) acc ->
    (acc <> [] -> dict_get acc column_by = Some t_inter) ->
    exists d,
      extend_columns data t column_by t_inter columns acc = Ok d
      /\ all_rows (length t_inter) d
      /\ (acc <> [] \/ columns <> [] -> dict_get d column_by = Some t_inter)
      /\ (forall c, In c columns -> exists v, dict_get d c = Some v)
      /\ (forall c v, dict_get acc c = Some v -> exists v', dict_get d c = Some v').
Proof.
  intros Ht. induction columns as [|c columns IH]; intros Hby Hcols acc Hrows Hacc.
  - exists acc. cbn [extend_columns]. repeat split; try assumption.
    + intros [Hne|Hne]; [apply Hacc; exact Hne | congruence].
    + intros c [].
    + intros c v Hc. eauto.
  - cbn [extend_columns].
    destruct (Hcols c (or_introl eq_refl)) as [arr [Harr Hlen]].
    rewrite Harr. cbn [bind]. unfold extend_arr.
    rewrite (interp_ok t_inter t arr Ht Hlen). cbn [bind fst snd].
    set (acc1 := if dict_mem acc column_by then acc
                 else dict_set acc column_by t_inter).
    assert (Hc_by : c <> column_by).
    { intros ->. apply Hby. left. reflexivity. }
    assert (Hrows1 : all_rows (length t_inter) acc1).
    { subst acc1. destruct (dict_mem acc column_by); [exact Hrows|].
      apply dict_set_rows; [exact Hrows | reflexivity]. }
    assert (Hget1 : dict_get acc1 column_by = Some t_inter).
    { subst acc1. unfold dict_mem.
      destruct (dict_get acc column_by) as [v|] eqn:Hg.
      - rewrite Hg. apply Hacc. intros ->. discriminate Hg.
      - apply dict_get_set_same. }
    assert (Hkeep1 : forall k v, dict_get acc k = Some v ->
                       exists v', dict_get acc1 k = Some v').
    { intros k v Hk. subst acc1. destruct (dict_mem acc column_by); [eauto|].
      destruct (String.eqb k column_by) eqn:E.
      - apply String.eqb_eq in E. subst k. rewrite dict_get_set_same. eauto.
      - apply String.eqb_neq in E. rewrite dict_get_set_other by exact E. eauto. }
    set (acc2 := dict_set acc1 c (map (interp_at t arr) t_inter)).
    assert (Hby' : ~ In column_by columns) by (intros Hin; apply Hby; right; exact Hin).
    assert (Hcols' : forall c', In c' columns ->
               exists arr', loc_values data c' = Ok arr' /\ length arr' = length t)
      by (intros c' Hc'; apply Hcols; right; exact Hc').
    destruct (IH Hby' Hcols' acc2) as [d [Hd [Hrowsd [Hbyd [Hind Hkeep]]]]].
    + subst acc2. apply dict_set_rows; [exact Hrows1 | apply length_map].
    + intros _. subst acc2. rewrite dict_get_set_other by congruence. exact Hget1.
    + exists d. split; [exact Hd|]. split; [exact Hrowsd|]. split; [|split].
      * intros _. apply Hbyd. left. subst acc2. apply dict_set_nonempty.
      * intros c' [<-|Hc'].
        -- apply (Hkeep c (map (interp_at t arr) t_inter)).
           subst acc2. apply dict_get_set_same.
        -- apply Hind. exact Hc'.
      * intros k v Hk. destruct (Hkeep1 k v Hk) as [v1 Hv1].
        destruct (String.eqb k c) eqn:E.
        -- apply String.eqb_eq in E. subst k.
           apply (Hkeep c (map (interp_at t arr) t_inter)).
           subst acc2. apply dict_get_set_same.
        -- apply String.eqb_neq in E. apply (Hkeep k v1).
           subst acc2. rewrite dict_get_set_other by exact E. exact Hv1.
Qed.

Lemma synchronize_ok (gt pred : DataFrame (F := F)) (t_column : string)
    (columns : list string) (t_true tp : list F) :
  loc_values gt t_column = Ok t_true ->
  loc_values pred t_column = Ok tp -> tp <> [] ->
  (forall c, In c columns ->
     exists arr, loc_values pred c = Ok arr /\ length arr = length tp) ->
  ~ In t_column columns ->
  exists pred',
    synchronize_trajectories gt pred t_column columns = Ok (gt, pred')
    /\ all_rows (length t_true) pred'
    /\ (columns <> [] -> loc_values pred' t_column = Ok t_true)
    /\ (forall c, In c columns ->
          exists v, loc_values pred' c = Ok v /\ length v = length t_true).
Proof.
  intros Hgt Hpred Htp Hcols Hby.
  unfold synchronize_trajectories, extend_data. rewrite Hgt, Hpred. cbn [bind].
  destruct (extend_columns_ok pred tp t_column t_true columns Htp Hby Hcols [])
    as [d [Hd [Hrows [Hgetby [Hin _]]]]].
  - constructor.
  - congruence.
  - rewrite Hd. cbn [bind]. unfold frame_of_dict.
    rewrite (all_rows_same_lengths _ _ Hrows). cbn [bind].
    exists d. split; [reflexivity|]. split; [exact Hrows|]. split.
    + intros Hne. unfold loc_values. rewrite Hgetby; [reflexivity|].
      right. exact Hne.
    + intros c Hc. destruct (Hin c Hc) as [v Hv]. exists v.
      unfold loc_values. rewrite Hv. split; [reflexivity|].
      apply (all_rows_get _ d c v Hrows Hv).
Qed.

(** C7, amended: for a ground truth of [n] samples and a prediction of at
    least one sample, with coordinate columns other than the timestamp
    column, [synchronize_trajectories] returns the ground truth as it is and
    a prediction with the timestamps of the ground truth and [n] samples. *)
Theorem synchronize_frame (gt pred : DataFrame (F := F)) (t_column : string)
    (columns : list string) (n m : nat) :
  has_columns gt t_column columns n ->
  has_columns pred t_column columns m ->
  (0 < m)%nat -> columns <> [] -> ~ In t_column columns ->
  exists t_true pred',
    loc_values gt t_column = Ok t_true
    /\ synchronize_trajectories gt pred t_column columns = Ok (gt, pred')
    /\ loc_values pred' t_column = Ok t_true
    /\ has_columns pred' t_column columns n.
Proof.
  intros [[t_true [Hgt Hn]] _] [[tp [Hpred Hm]] Hcols] Hpos Hne Hby.
  assert (Htp : tp <> []) by (intros ->; cbn in Hm; lia).
  assert (Hcols' : forall c, In c columns ->
            exists arr, loc_values pred c = Ok arr /\ length arr = length tp).
  { intros c Hc. destruct (Hcols c Hc) as [v [Hv Hlen]]. exists v.
    split; [exact Hv | congruence]. }
  destruct (synchronize_ok gt pred t_column columns t_true tp
              Hgt Hpred Htp Hcols' Hby) as [pred' [Hsync [_ [Ht Hc]]]].
  exists t_true, pred'. split; [exact Hgt|]. split; [exact Hsync|].
  split; [apply Ht; exact Hne|]. split.
  - exists t_true. split; [apply Ht; exact Hne | exact Hn].
  - intros c Hin. destruct (Hc c Hin) as [v [Hv Hlen]]. exists v.
    split; [exact Hv | congruence].
Qed.

Lemma zip_with_nil_r {A B C : Type} (f : A -> B -> C) (l : list A) :
  zip_with f l [] = [].
Proof. destruct l; reflexivity. Qed.

Lemma length_zip_with {A B C : Type} (f : A -> B -> C) (l : list A) :
  forall m, length (zip_with f l m) = Nat.min (length l) (length m).
Proof.
  induction l as [|a l IH]; intros [|b m]; cbn [zip_with length Nat.min];
    try reflexivity.
  rewrite IH. reflexivity.
Qed.

Lemma length_tl {A : Type} (l : list A) : length (tl l) = (length l - 1)%nat.
Proof. destruct l; cbn [tl length]; lia. Qed.

Lemma length_removelast' {A : Type} (l : list A) :
  length (removelast l) = (length l - 1)%nat.
Proof.
  induction l as [|a l IH]; [reflexivity|].
  destruct l as [|b l]; [reflexivity|].
  change (removelast (a :: b :: l)) with (a :: removelast (b :: l)).
  cbn [length] in IH |- *. rewrite IH. lia.
Qed.

Lemma length_segments (xs ys : list F) (n : nat) :
  length xs = n -> length ys = n -> length (segments xs ys) = (n - 1)%nat.
Proof.
  intros Hx Hy. unfold segments.
  rewrite length_zip_with, !length_combine, !length_removelast', !length_tl.
  lia.
Qed.

Lemma length_cumsum_from (l : list F) : forall acc,
  length (cumsum_from acc l) = length l.
Proof.
  induction l as [|a l IH]; intros acc; cbn [cumsum_from length];
    [reflexivity|]. rewrite IH. reflexivity.
Qed.

(** What [straighten_trajectories] returns for two frames of as many
    samples. *)
Lemma straighten_ok (tt tp : DataFrame (F := F)) (cx cy : string)
    (rest : list string) (xt yt xp yp : list F) :
  loc_values tt cx = Ok xt -> loc_values tt cy = Ok yt ->
  loc_values tp cx = Ok xp -> loc_values tp cy = Ok yp ->
  length xt = length xp ->
  straighten_trajectories tt tp (cx :: cy :: rest)
  = Ok (zero :: cumsum_from zero (segments xt yt),
        zip_with (fun p t => distance (fst p) (fst t) (snd p) (snd t))
                 (combine xp yp) (combine xt yt)).
Proof.
  intros Hxt Hyt Hxp Hyp Hlen. unfold straighten_trajectories, column_name.
  cbn [nth_error bind]. rewrite Hxt. cbn [bind]. rewrite Hyt. cbn [bind].
  rewrite Hxp. cbn [bind]. rewrite Hyp. cbn [bind].
  rewrite Hlen, Nat.eqb_refl. reflexivity.
Qed.

(** What [mie] returns for a ground truth of [n] samples and a prediction
    of at least one sample. *)
Lemma mie_ok (gt pred : DataFrame (F := F)) (t_column cx cy : string)
    (xt yt : list F) (n m : nat) :
  has_columns gt t_column [cx; cy] n ->
  has_columns pred t_column [cx; cy] m ->
  (0 < m)%nat -> ~ In t_column [cx; cy] ->
  loc_values gt cx = Ok xt -> loc_values gt cy = Ok yt ->
  exists y,
    length y = n
    /\ mie gt pred t_column [cx; cy]
       = Ok (div (sum (trapezoids
                         (zero :: cumsum_from zero (segments xt yt)) y))
                 (last (zero :: cumsum_from zero (segments xt yt)) zero)).
Proof.
  intros [[t_true [Hgt Hn]] Hgtc] [[tc [Hpred Hm]] Hcols] Hpos Hby Hxt Hyt.
  assert (Htc : tc <> []) by (intros ->; cbn in Hm; lia).
  assert (Hcols' : forall c, In c [cx; cy] ->
            exists arr, loc_values pred c = Ok arr /\ length arr = length tc).
  { intros c Hc. destruct (Hcols c Hc) as [v [Hv Hlen]]. exists v.
    split; [exact Hv | congruence]. }
  destruct (synchronize_ok gt pred t_column [cx; cy] t_true tc
              Hgt Hpred Htc Hcols' Hby) as [pred' [Hsync [_ [_ Hc]]]].
  destruct (Hc cx (or_introl eq_refl)) as [xp [Hxp Hlx]].
  destruct (Hc cy (or_intror (or_introl eq_refl))) as [yp [Hyp Hly]].
  destruct (Hgtc cx (or_introl eq_refl)) as [xt' [Hxt' Hlxt]].
  destruct (Hgtc cy (or_intror (or_introl eq_refl))) as [yt' [Hyt' Hlyt]].
  assert (xt' = xt) by congruence. assert (yt' = yt) by congruence.
  subst xt' yt'.
  eexists. split.
  2:{ unfold mie. rewrite Hsync. cbn [bind fst snd].
      rewrite (straighten_ok gt pred' cx cy [] xt yt xp yp Hxt Hyt Hxp Hyp)
        by congruence.
      cbn [bind fst snd]. reflexivity. }
  rewrite length_zip_with, !length_combine. lia.
Qed.

End Generic.



Import TrajectorySamples.
Local Open Scope string_scope.

Ltac has_columns_by_lookup :=
  split;
  [ eexists; split; reflexivity
  | let c := fresh "c" in
    let Hc := fresh "Hc" in
    intros c Hc; cbn [In] in Hc;
    repeat (destruct Hc as [<- | Hc]; [eexists; split; reflexivity|]);
    contradiction ].

Lemma truth_0123_columns : has_columns truth_0123 "tmsp" ["x"; "y"] 4.
Proof. has_columns_by_lookup. Qed.

Lemma pred_03_columns : has_columns pred_03 "tmsp" ["x"; "y"] 2.
Proof. has_columns_by_lookup. Qed.

Lemma pred_empty_columns : has_columns pred_empty "tmsp" ["x"; "y"] 0.
Proof. has_columns_by_lookup. Qed.

Lemma tmsp_not_coordinate : ~ In "tmsp" ["x"; "y"].
Proof. intros [E|[E|[]]]; discriminate E. Qed.

(** C7, as stated, fails: for a prediction without samples [np.interp]
    rejects the empty sample points and nothing is returned. *)
Lemma synchronize_empty_prediction :
  has_columns truth_0123 "tmsp" ["x"; "y"] 4
  /\ has_columns pred_empty "tmsp" ["x"; "y"] 0
  /\ synchronize_trajectories truth_0123 pred_empty "tmsp" ["x"; "y"]
     = Raise ValueError.
Proof.
  split; [exact truth_0123_columns|]. split; [exact pred_empty_columns|].
  reflexivity.
Qed.

Lemma synchronize_frame_witness :
  exists t_true pred',
    loc_values truth_0123 "tmsp" = Ok t_true
    /\ synchronize_trajectories truth_0123 pred_03 "tmsp" ["x"; "y"]
       = Ok (truth_0123, pred')
    /\ loc_values pred' "tmsp" = Ok t_true
    /\ has_columns pred' "tmsp" ["x"; "y"] 4.
Proof.
  apply (synchronize_frame truth_0123 pred_03 "tmsp" ["x"; "y"] 4 2).
  - exact truth_0123_columns.
  - exact pred_03_columns.
  - lia.
  - discriminate.
  - exact tmsp_not_coordinate.
Defined.




(** *** Division by a zero arc length in binary64 *)

Lemma zero_divisor (d : float) :
  PrimFloat.eqb d 0%float = true -> exists s, Prim2SF d = S754_zero s.
Proof.
  rewrite FloatAxioms.eqb_spec. change (Prim2SF 0%float) with (S754_zero false).
  destruct (Prim2SF d) as [s|s| |s m e]; try destruct s; cbn;
    intros Hd; try discriminate Hd; eauto.
Qed.

Lemma div_by_zero_not_finite (v d : float) :
  PrimFloat.eqb d 0%float = true -> PrimFloat.is_finite (v / d)%float = false.
Proof.
  intros Hd. destruct (zero_divisor d Hd) as [s Hs].
  rewrite <- (SF2Prim_Prim2SF (v / d)), FloatAxioms.div_spec, Hs.
  destruct (Prim2SF v) as [sv|sv| |sv m e]; destruct s; try destruct sv;
    vm_compute; reflexivity.
Qed.

(** C5, as stated, fails: for a ground truth of one sample, and for one
    that never moves, [mie] raises nothing and returns NaN. *)
Lemma mie_degenerate_is_nan :
  mie truth_single pred_03 "tmsp" ["x"; "y"] = Ok nan
  /\ mie truth_still pred_03 "tmsp" ["x"; "y"] = Ok nan.
Proof. split; vm_compute; reflexivity. Qed.

(** C5, amended: for a ground truth whose total arc length is zero, as it is
    for one of a single sample, and a prediction of at least one sample,
    [mie] raises no error; it returns the quotient of the trapezoid sum by
    the zero arc length, which is not a finite number, and is NaN for a
    ground truth of a single sample. *)
Theorem mie_degenerate (gt pred : DataFrame (F := float))
    (t_column cx cy : string) (xt yt : list float) (n m : nat) :
  has_columns gt t_column [cx; cy] n ->
  has_columns pred t_column [cx; cy] m ->
  (0 < m)%nat -> ~ In t_column [cx; cy] ->
  loc_values gt cx = Ok xt -> loc_values gt cy = Ok yt ->
  let arc := cumsum (zero :: segments xt yt) in
  exists v,
    mie gt pred t_column [cx; cy] = Ok v
    /\ (PrimFloat.eqb (last arc zero) 0%float = true ->
        PrimFloat.is_finite v = false)
    /\ ((n <= 1)%nat ->
        PrimFloat.eqb (last arc zero) 0%float = true
        /\ PrimFloat.is_nan v = true).
Proof.
  intros Hgt Hpred Hm Hby Hxt Hyt arc.
  destruct (mie_ok gt pred t_column cx cy xt yt n m Hgt Hpred Hm Hby Hxt Hyt)
    as [y [Hy Hmie]].
  eexists. split; [exact Hmie|]. split.
  - intros Hzero. apply div_by_zero_not_finite. exact Hzero.
  - intros Hn.
    destruct Hgt as [_ Hgtc].
    destruct (Hgtc cx (or_introl eq_refl)) as [xt' [Hxt' Hlxt]].
    assert (xt' = xt) by congruence. subst xt'.
    assert (Hseg : segments xt yt = []).
    { unfold segments. destruct xt as [|a [|b xt]]; cbn [length] in Hlxt;
        [reflexivity | | lia].
      cbn [removelast combine tl]. reflexivity. }
    subst arc. rewrite Hseg. cbn [cumsum cumsum_from last].
    split; [reflexivity|].
    unfold trapezoids. cbn [tl zip_with]. rewrite zip_with_nil_r. reflexivity.
Qed.

Lemma truth_single_columns : has_columns truth_single "tmsp" ["x"; "y"] 1.
Proof. has_columns_by_lookup. Qed.

Lemma mie_degenerate_witness :
  exists v,
    mie truth_single pred_03 "tmsp" ["x"; "y"] = Ok v
    /\ PrimFloat.is_finite v = false
    /\ PrimFloat.is_nan v = true.
Proof.
  destruct (mie_degenerate truth_single pred_03 "tmsp" "x" "y"
              (floats [5]) (floats [7]) 1 2)
    as [v [Hv [Hfin Hnan]]].
  - exact truth_single_columns.
  - exact pred_03_columns.
  - lia.
  - exact tmsp_not_coordinate.
  - reflexivity.
  - reflexivity.
  - exists v. split; [exact Hv|]. split.
    + apply Hfin. reflexivity.
    + apply Hnan. lia.
Defined.


(** *** Arc lengths and distances in binary64 *)

Import Binary64 Binary64Facts.

Lemma Forall_zip_with {A B C : Type} (P : A -> Prop) (Q : B -> Prop)
    (S : C -> Prop) (f : A -> B -> C) (l : list A) (m : list B) :
  (forall a b, P a -> Q b -> S (f a b)) ->
  Forall P l -> Forall Q m -> Forall S (zip_with f l m).
Proof.
  intros Hf Hl. revert m. induction Hl as [|a l Ha Hl IH]; intros m Hm;
    [constructor|].
  destruct Hm as [|b m Hb Hm]; cbn [zip_with]; constructor; auto.
Qed.

Lemma Forall_tl {A : Type} (P : A -> Prop) (l : list A) :
  Forall P l -> Forall P (tl l).
Proof. intros [|a l' Ha Hl]; [constructor | exact Hl]. Qed.

Lemma Forall_removelast {A : Type} (P : A -> Prop) (l : list A) :
  Forall P l -> Forall P (removelast l).
Proof.
  induction 1 as [|a l Ha Hl IH]; [constructor|].
  destruct l as [|b l]; [constructor|].
  change (removelast (a :: b :: l)) with (a :: removelast (b :: l)).
  constructor; assumption.
Qed.

Lemma Forall_combine {A B : Type} (P : A -> Prop) (Q : B -> Prop)
    (l : list A) (m : list B) :
  Forall P l -> Forall Q m ->
  Forall (fun ab => P (fst ab) /\ Q (snd ab)) (combine l m).
Proof.
  intros Hl. revert m. induction Hl as [|a l Ha Hl IH]; intros m Hm;
    [constructor|].
  destruct Hm as [|b m Hb Hm]; cbn [combine]; constructor; auto.
Qed.

(** A sample that is a number: neither a NaN nor an infinity. *)
Lemma finite_sample (v : float) :
  is_nan v = false /\ is_inf v = false -> ffinite v.
Proof. intros [Hn Hi]. apply ffinite_flags; assumption. Qed.

(** The distance of two points with finite coordinates is a number that is
    not negative, or the infinity when a square overflows. *)
Lemma distance_fnonneg (x1 x2 y1 y2 : float) :
  ffinite x1 -> ffinite x2 -> ffinite y1 -> ffinite y2 ->
  fnonneg (distance x1 x2 y1 y2).
Proof.
  intros Hx1 Hx2 Hy1 Hy2.
  change (fnonneg (PrimFloat.sqrt ((x1 - x2) * (x1 - x2)
                                   + (y1 - y2) * (y1 - y2))%float)).
  apply sqrt_fnonneg.
  apply add_fnonneg; apply square_fnonneg, sub_not_nan; assumption.
Qed.

Lemma distances_fnonneg (ps qs : list (float * float)) :
  Forall (fun p => ffinite (fst p) /\ ffinite (snd p)) ps ->
  Forall (fun p => ffinite (fst p) /\ ffinite (snd p)) qs ->
  Forall fnonneg
         (zip_with (fun p t => distance (fst p) (fst t) (snd p) (snd t)) ps qs).
Proof.
  apply Forall_zip_with. intros p q [Hp1 Hp2] [Hq1 Hq2].
  apply distance_fnonneg; assumption.
Qed.

Lemma segments_fnonneg (xs ys : list float) :
  Forall ffinite xs -> Forall ffinite ys -> Forall fnonneg (segments xs ys).
Proof.
  intros Hx Hy. unfold segments.
  apply distances_fnonneg; apply Forall_combine;
    auto using Forall_tl, Forall_removelast.
Qed.

(** Running totals of numbers that are not negative do not decrease: an
    addition does not round below one of its arguments. *)
Lemma cumsum_from_ascending (l : list float) :
  Forall fnonneg l ->
  forall acc : float, fnonneg acc ->
    Forall (fun c => fnonneg c /\ (fval acc <= fval c)%R) (cumsum_from acc l)
    /\ StronglySorted (fun a b => PrimFloat.leb a b = true)
                      (cumsum_from acc l).
Proof.
  induction 1 as [|a l Ha Hl IH]; intros acc Hacc; cbn [cumsum_from].
  - split; constructor.
  - change (add acc a) with (acc + a)%float.
    destruct (add_fnonneg acc a Hacc Ha) as [Hs [Hle _]].
    destruct (IH (acc + a)%float Hs) as [Hlow Hsorted]. split.
    + constructor; [split; assumption|].
      eapply Forall_impl; [|exact Hlow]. intros c [Hc Hv].
      split; [exact Hc | lra].
    + constructor; [exact Hsorted|].
      eapply Forall_impl; [|exact Hlow]. intros c [Hc Hv].
      apply leb_fval; assumption.
Qed.

(** C10, as stated, fails: for a pair of trajectories without samples the
    arc-length array holds one element, the ground truth none. *)
Lemma straighten_no_samples :
  loc_values pred_empty "x" = Ok []
  /\ straighten_trajectories pred_empty pred_empty ["x"; "y"]
     = Ok ([0%float], [])
  /\ length [0%float] <> length (@nil float).
Proof. repeat split; discriminate. Qed.

(** C10, amended: for two frames of [n >= 1] samples each whose coordinates
    are numbers, neither NaN nor infinite, the arc-length array that
    [straighten_trajectories] returns in binary64 has [n] elements, starts
    with 0 and does not decrease, and the distance array has [n] elements,
    none of them negative or NaN. *)
Theorem straighten_arc_length (tt tp : DataFrame (F := float))
    (cx cy : string) (rest : list string) (xt yt xp yp : list float)
    (n : nat) :
  loc_values tt cx = Ok xt -> loc_values tt cy = Ok yt ->
  loc_values tp cx = Ok xp -> loc_values tp cy = Ok yp ->
  length xt = n -> length yt = n -> length xp = n -> length yp = n ->
  (1 <= n)%nat ->
  Forall (fun v => is_nan v = false /\ is_inf v = false)
         (xt ++ yt ++ xp ++ yp) ->
  exists x y,
    straighten_trajectories tt tp (cx :: cy :: rest) = Ok (x, y)
    /\ length x = n
    /\ nth 0 x 1%float = 0%float
    /\ StronglySorted (fun a b => PrimFloat.leb a b = true) x
    /\ length y = n
    /\ Forall (fun d => PrimFloat.leb 0 d = true) y.
Proof.
  intros Hxt Hyt Hxp Hyp Lxt Lyt Lxp Lyp Hn Hfin.
  rewrite (straighten_ok tt tp cx cy rest xt yt xp yp Hxt Hyt Hxp Hyp)
    by congruence.
  eexists. eexists. split; [reflexivity|].
  assert (Hall : Forall ffinite (xt ++ yt ++ xp ++ yp))
    by (eapply Forall_impl; [apply finite_sample | exact Hfin]).
  apply Forall_app in Hall. destruct Hall as [Fxt Hall].
  apply Forall_app in Hall. destruct Hall as [Fyt Hall].
  apply Forall_app in Hall. destruct Hall as [Fxp Fyp].
  destruct (cumsum_from_ascending (segments xt yt)
              (segments_fnonneg xt yt Fxt Fyt) (float_of_Z 0)
              (proj1 (float_of_Z_spec 0 (Z.le_refl 0))))
    as [Hlow Hsorted].
  split; [|split; [|split; [|split]]].
  - cbn [length]. rewrite length_cumsum_from, (length_segments xt yt n Lxt Lyt).
    lia.
  - reflexivity.
  - constructor; [exact Hsorted|].
    eapply Forall_impl; [|exact Hlow]. intros c [Hc _].
    apply fnonneg_leb_zero. exact Hc.
  - rewrite length_zip_with, !length_combine. lia.
  - eapply Forall_impl; [intros d Hd; apply fnonneg_leb_zero; exact Hd|].
    apply distances_fnonneg; apply Forall_combine; assumption.
Qed.

Lemma straighten_arc_length_witness :
  exists x y,
    straighten_trajectories truth_0123 synced_03 ["x"; "y"] = Ok (x, y)
    /\ length x = 4%nat
    /\ StronglySorted (fun a b => PrimFloat.leb a b = true) x
    /\ Forall (fun d => PrimFloat.leb 0 d = true) y.
Proof.
  destruct (straighten_arc_length truth_0123 synced_03 "x" "y" []
              (floats [0; 1; 2; 3]) (floats [0; 0; 0; 0])
              (floats [0; 1; 2; 3]) (floats [0; 1; 2; 3]) 4)
    as [x [y [Hxy [Hlen [_ [Hsorted [_ Hy]]]]]]];
    try reflexivity.
  - lia.
  - repeat (constructor; [split; reflexivity|]). constructor.
  - exists x, y. repeat split; assumption.
Defined.

(** *** Arguments of different types *)

(** C8, as stated, fails for [get_dice]: a mask against a list of masks
    fails the assertion, with an [AssertionError]. *)
Lemma get_dice_mismatch_asserts :
  Metrics.get_dice (F := float) (Metrics.PyArray Samples.mask_2x2)
                   (Metrics.PyList [Samples.mask_2x2])
  = Raise AssertionError
  /\ Metrics.get_dice (F := float) (Metrics.PyArray Samples.mask_2x2)
                      (Metrics.PyList [Samples.mask_2x2])
     <> Raise TypeError.
Proof. split; [reflexivity | discriminate]. Qed.

(** C8, amended: for arguments of different types [get_dice] fails its
    assertion and [rmse] raises a [TypeError], whatever the arguments
    hold. *)
Theorem mismatched_types_fail {F : Type} `{Arith F}
    (true pred : Metrics.pyobj) (true_data pred_data : data (F := F))
    (t_column : string) (coordinate_columns : list string) :
  Metrics.type_of true <> Metrics.type_of pred ->
  data_type_of true_data <> data_type_of pred_data ->
  Metrics.get_dice (F := F) true pred = Raise AssertionError
  /\ rmse true_data pred_data t_column coordinate_columns = Raise TypeError.
Proof.
  intros Hdice Hrmse. split.
  - unfold Metrics.get_dice.
    destruct true, pred; cbn in Hdice |- *; congruence.
  - unfold rmse.
    destruct true_data, pred_data; cbn in Hrmse |- *; congruence.
Qed.

Lemma mismatched_types_fail_witness :
  Metrics.get_dice (F := float) (Metrics.PyArray Samples.mask_2x2)
                   (Metrics.PyList [Samples.mask_2x2])
  = Raise AssertionError
  /\ rmse (Frame truth_0123) (Array (floats [0; 1])) "tmsp" ["x"; "y"]
     = Raise TypeError.
Proof.
  apply (mismatched_types_fail (F := float)); discriminate.
Defined.

End TrajectoryFacts.

(** ** More on the mask codec *)

Module MaskCodecMore.
Import Py PyFacts MaskCodec MaskRuns MaskCodecFacts RunFormat.

(** Encoding a decoded mask gives back the string that was decoded. *)
Theorem encode_decode_encode (v : Z) (mask : ndarray) :
  v <> 0 -> nd_wf mask -> two_valued v mask ->
  Z.of_nat (length (nd_data mask)) < int64_max ->
  exists s decoded,
    encode_rle mask = Ok s
    /\ decode_rle s (shape mask) = Ok decoded
    /\ encode_rle decoded = Ok s.
Proof.
  intros Hv Hwf Hmask Hsize.
  destruct (roundtrip_binarize v mask Hv Hwf Hmask Hsize) as [s [Henc Hdec]].
  exists s, (binarize mask). split; [exact Henc|]. split; [exact Hdec|].
  rewrite (encode_rle_binarize v mask Hv Hmask). exact Henc.
Qed.

Lemma encode_decode_encode_witness :
  exists s decoded,
    encode_rle Samples.mask_fg1 = Ok s
    /\ decode_rle s (shape Samples.mask_fg1) = Ok decoded
    /\ encode_rle decoded = Ok s.
Proof.
  apply (encode_decode_encode 1 Samples.mask_fg1).
  - discriminate.
  - reflexivity.
  - two_valued_by_cases.
  - reflexivity.
Defined.

(** *** The runs of an encoding *)

Lemma scan_nil (l : list Z) : forall (prev i : Z),
  scan prev i l = [] <-> Forall (fun x => x = prev) l.
Proof.
  induction l as [|x l IH]; intros prev i; cbn [scan].
  - split; constructor.
  - destruct (x =? prev) eqn:E; cbn [negb].
    + apply Z.eqb_eq in E. subst x. rewrite IH. split.
      * intros Hl. constructor; [reflexivity | exact Hl].
      * intros Hl. inversion Hl; assumption.
    + apply Z.eqb_neq in E. split; [discriminate|].
      intros Hl. inversion Hl; contradiction.
Qed.

Lemma Forall_last (l : list Z) (P : Z -> Prop) (d : Z) :
  P d -> Forall P l -> P (last l d).
Proof.
  intros Hd Hl. induction Hl as [|x l Hx Hl IH]; [exact Hd|].
  destruct l as [|y l]; [exact Hx | exact IH].
Qed.

(** A sequence that starts and ends with the same value does not change
    exactly once. *)
Lemma scan_not_single (l : list Z) : forall (prev i : Z),
  length (scan prev i l) = 1%nat -> last l prev <> prev.
Proof.
  induction l as [|x l IH]; intros prev i; cbn [scan]; [discriminate|].
  rewrite last_cons.
  destruct (x =? prev) eqn:E; cbn [negb].
  - apply Z.eqb_eq in E. subst x. apply IH.
  - apply Z.eqb_neq in E. cbn [length]. intros Hlen.
    assert (Hnil : scan x (i + 1) l = []).
    { destruct (scan x (i + 1) l); [reflexivity | discriminate]. }
    apply scan_nil in Hnil.
    assert (Hlast : last l x = x)
      by (apply (Forall_last l (fun y => y = x)); [reflexivity | exact Hnil]).
    congruence.
Qed.

Lemma interleave_length {A : Type} (evens odds : list A) :
  length evens = length odds ->
  length (interleave evens odds) = (2 * length evens)%nat.
Proof.
  revert odds. induction evens as [|e evens IH]; intros [|o odds] Hlen;
    try discriminate; [reflexivity|].
  cbn [interleave length]. rewrite IH by (injection Hlen; auto). lia.
Qed.

Lemma pairs_of_length (bs : list Z) :
  Nat.even (length bs) = true ->
  (2 * length (pairs_of bs))%nat = length bs.
Proof.
  induction bs as [| |a b bs IH] using pair_induction; intros Hev;
    [reflexivity | discriminate |].
  cbn [pairs_of length]. specialize (IH Hev). lia.
Qed.

(** What [encode_rle] does with the boundaries of any mask. *)
Lemma encode_rle_boundaries (mask : ndarray) :
  let bs := scan 0 1 (nd_data mask ++ [0]) in
  (Nat.even (length bs) = true -> encode_rle mask = Ok (rle_string bs))
  /\ (Nat.even (length bs) = false -> encode_rle mask = Raise ValueError).
Proof.
  intros bs. unfold encode_rle. rewrite boundaries_scan. fold bs.
  unfold subtract_starts. split; intros Hev.
  - rewrite (stride2_even_lengths bs Hev), Nat.eqb_refl.
    destruct (stride2_pairs bs Hev) as [-> ->].
    rewrite zip_with_map. reflexivity.
  - destruct (length_stride2 bs) as [L1 L2]. rewrite L1, L2.
    assert (Hodd : Nat.odd (length bs) = true)
      by (rewrite <- Nat.negb_even, Hev; reflexivity).
    apply Nat.odd_spec in Hodd. destruct Hodd as [m Hm]. rewrite Hm.
    replace (S (2 * m + 1))%nat with (2 * S m)%nat by lia.
    rewrite Nat.div2_double.
    replace (2 * m + 1)%nat with (S (2 * m)) by lia.
    rewrite Nat.div2_succ_double.
    destruct (S m =? m)%nat eqn:E1; [apply Nat.eqb_eq in E1; lia|].
    destruct (S m =? 1)%nat eqn:E2; [|reflexivity].
    apply Nat.eqb_eq in E2. assert (m = 0%nat) by lia. subst m.
    exfalso. apply (scan_not_single (nd_data mask ++ [0]) 0 1).
    + exact Hm.
    + apply last_last.
Qed.

Lemma rle_string_tokens (bs : list Z) (hi : Z) :
  increasing bs -> Forall (fun b => 1 <= b <= hi) bs ->
  split (rle_string bs)
  = map str_of_int
        (interleave (map fst (pairs_of bs))
                    (map (fun span => snd span - fst span) (pairs_of bs))).
Proof.
  intros Hinc Hb. unfold rle_string. apply split_join.
  pose proof (interleave_bounds hi _ (pairs_of_ordered 1 hi bs Hinc Hb)) as Hr.
  apply Forall_forall. intros t Ht. apply in_map_iff in Ht.
  destruct Ht as [x [<- Hx]]. apply str_of_int_token.
  rewrite Forall_forall in Hr. apply (Hr x Hx).
Qed.

Lemma scan_mask_bounds (p : list Z) :
  Forall (fun b => 1 <= b <= Z.of_nat (length p) + 1) (scan 0 1 (p ++ [0])).
Proof.
  eapply Forall_impl; [|apply (scan_bounds (p ++ [0]) 0 1)].
  intros b Hb. cbn beta in Hb. rewrite length_app in Hb. cbn [length] in Hb.
  lia.
Qed.

(** For every mask, of any pixel values, [encode_rle] raises a
    [ValueError] exactly when the padded pixels change value an odd number
    of times, and otherwise writes one token for each change. *)
Theorem encode_rle_token_count (mask : ndarray) :
  let changes := length (boundaries ([0] ++ nd_data mask ++ [0])) in
  (Nat.even changes = false -> encode_rle mask = Raise ValueError)
  /\ (Nat.even changes = true ->
      exists s, encode_rle mask = Ok s /\ length (split s) = changes).
Proof.
  intros changes. subst changes. rewrite boundaries_scan.
  destruct (encode_rle_boundaries mask) as [Heven Hodd].
  set (bs := scan 0 1 (nd_data mask ++ [0])) in *.
  split; [exact Hodd|].
  intros Hev. exists (rle_string bs). split; [apply Heven; exact Hev|].
  rewrite (rle_string_tokens bs (Z.of_nat (length (nd_data mask)) + 1)).
  - rewrite length_map, interleave_length by (rewrite !length_map; reflexivity).
    rewrite length_map. apply pairs_of_length. exact Hev.
  - apply scan_increasing.
  - apply scan_mask_bounds.
Qed.

Lemma encode_rle_token_count_witness :
  encode_rle mask_three_values = Raise ValueError
  /\ exists s, encode_rle Samples.mask_2x2 = Ok s
               /\ length (split s) = 2%nat.
Proof.
  split.
  - apply (proj1 (encode_rle_token_count mask_three_values)). reflexivity.
  - apply (proj2 (encode_rle_token_count Samples.mask_2x2)). reflexivity.
Defined.


Lemma join_nonempty (t : str) (toks : list str) :
  t <> [] -> join (lit " ") (t :: toks) <> [].
Proof.
  intros Ht. destruct toks as [|t' toks]; cbn [join]; [exact Ht|].
  destruct t; [congruence | discriminate].
Qed.

(** The encoding is the empty string exactly for the masks without
    foreground. *)
Theorem encode_rle_empty_string (mask : ndarray) :
  encode_rle mask = Ok [] <-> Forall (fun p => p = 0) (nd_data mask).
Proof.
  destruct (encode_rle_boundaries mask) as [Heven Hodd].
  set (bs := scan 0 1 (nd_data mask ++ [0])) in *.
  assert (Hzero : bs = [] <-> Forall (fun p => p = 0) (nd_data mask)).
  { unfold bs. rewrite scan_nil. split.
    - intros Hall. apply Forall_app in Hall. tauto.
    - intros Hall. apply Forall_app. split; [exact Hall|].
      repeat constructor. }
  split.
  - intros Henc. apply Hzero.
    destruct (Nat.even (length bs)) eqn:Hev;
      [|rewrite (Hodd eq_refl) in Henc; discriminate].
    rewrite (Heven eq_refl) in Henc. injection Henc as Hs.
    destruct bs as [|a [|b bs']]; [reflexivity | discriminate |].
    exfalso. unfold rle_string in Hs. cbn [pairs_of map interleave] in Hs.
    revert Hs. apply join_nonempty.
    unfold str_of_int. destruct (fst (a, b) <? 0); [discriminate|].
    apply digits_from_nonempty.
  - intros Hall. apply Hzero in Hall. rewrite (Heven ltac:(rewrite Hall; reflexivity)).
    rewrite Hall. reflexivity.
Qed.

(** *** The runs that an encoding lists *)

Lemma pairs_of_separated (bs : list Z) :
  increasing bs ->
  separated (map (fun span => (fst span, snd span - fst span)) (pairs_of bs)).
Proof.
  induction bs as [| |s e bs IH] using pair_induction; intros Hinc;
    try constructor.
  - inversion Hinc as [|? ? _ Hinc']; subst.
    inversion Hinc' as [|? ? He _]; subst.
    cbn [fst snd]. apply Forall_forall. intros r Hr.
    apply in_map_iff in Hr. destruct Hr as [sp [<- Hsp]]. cbn [fst].
    assert (Hin : In (fst sp) bs).
    { clear -Hsp. revert Hsp.
      induction bs as [| |a b bs IHb] using pair_induction; cbn [pairs_of];
        try contradiction.
      intros [<-|Hsp]; [left; reflexivity | right; right; apply IHb; exact Hsp]. }
    rewrite Forall_forall in He. specialize (He _ Hin). lia.
  - inversion Hinc as [|? ? _ Hinc']; subst.
    inversion Hinc' as [|? ? _ Hinc'']; subst.
    apply IH. exact Hinc''.
Qed.

Lemma flatten_pairs_interleave (ps : list (Z * Z)) (g : Z * Z -> Z) :
  interleave (map fst ps) (map g ps)
  = flatten_pairs (map (fun span => (fst span, g span)) ps).
Proof.
  unfold flatten_pairs. induction ps as [|p ps IH]; [reflexivity|].
  cbn [map interleave flat_map app fst snd]. rewrite IH. reflexivity.
Qed.

Lemma covered_in_runs (ps : list (Z * Z)) (k : Z) :
  in_runs (map (fun span => (fst span, snd span - fst span)) ps) k
  = covered ps k.
Proof.
  unfold in_runs, covered. induction ps as [|p ps IH]; [reflexivity|].
  cbn [map existsb fst snd]. rewrite IH.
  replace (fst p + (snd p - fst p)) with (snd p) by lia. reflexivity.
Qed.

(** The encoding of a two-valued mask lists (start, length) runs that are
    1-indexed and inside the grid, have at least one pixel each, ascend with
    background between them, and hold exactly the foreground pixels. *)
Theorem encode_rle_runs (v : Z) (mask : ndarray) :
  v <> 0 -> two_valued v mask ->
  Z.of_nat (length (nd_data mask)) < int64_max ->
  exists s runs,
    encode_rle mask = Ok s
    /\ asarray_int (split s) = Ok (flatten_pairs runs)
    /\ Forall (fun r => 1 <= fst r /\ 1 <= snd r
                        /\ fst r + snd r <= Z.of_nat (length (nd_data mask)) + 1)
              runs
    /\ separated runs
    /\ (forall k, (k < length (nd_data mask))%nat ->
          in_runs runs (Z.of_nat k + 1) = nz (nth k (nd_data mask) 0)).
Proof.
  intros Hv Hmask Hsize.
  set (p := nd_data mask) in *.
  set (bs := scan 0 1 (p ++ [0])).
  assert (Hinc : increasing bs) by apply scan_increasing.
  assert (Hb : Forall (fun b => 1 <= b <= Z.of_nat (length p) + 1) bs)
    by apply scan_mask_bounds.
  assert (Hev : Nat.even (length bs) = true) by (apply (scan_even v); assumption).
  pose proof (pairs_of_ordered 1 _ bs Hinc Hb) as Hps.
  exists (rle_string bs),
         (map (fun span => (fst span, snd span - fst span)) (pairs_of bs)).
  split; [apply (encode_rle_two_valued v); assumption|].
  split; [|split; [|split]].
  - rewrite (rle_string_tokens bs _ Hinc Hb).
    rewrite <- flatten_pairs_interleave. apply asarray_int_str.
    eapply Forall_impl; [|apply (interleave_bounds _ _ Hps)].
    intros x Hx. cbn beta in Hx. unfold int64_max in *. lia.
  - apply Forall_forall. intros r Hr. apply in_map_iff in Hr.
    destruct Hr as [sp [<- Hsp]]. rewrite Forall_forall in Hps.
    specialize (Hps sp Hsp). cbn [fst snd]. lia.
  - apply pairs_of_separated. exact Hinc.
  - intros k Hk. rewrite covered_in_runs, <- lit_at_covered by assumption.
    assert (Hp0 : Forall (fun x => x = 0 \/ x = v) (p ++ [0])).
    { apply Forall_app. split; [exact Hmask|].
      constructor; [left; reflexivity | constructor]. }
    assert (Hlit : lit_at false bs (Z.of_nat k + 1)
                   = nz (nth (Z.to_nat (Z.of_nat k + 1 - 1)) (p ++ [0]) 0)).
    { apply (lit_at_scan v (p ++ [0]) Hv Hp0 0 1 (Z.of_nat k + 1)
               (or_introl eq_refl)).
      rewrite length_app. cbn [length]. lia. }
    rewrite Hlit.
    replace (Z.to_nat (Z.of_nat k + 1 - 1)) with k by lia.
    rewrite app_nth1 by exact Hk. reflexivity.
Qed.

Lemma encode_rle_runs_witness :
  exists s runs,
    encode_rle Samples.mask_2x2 = Ok s
    /\ asarray_int (split s) = Ok (flatten_pairs runs)
    /\ separated runs.
Proof.
  destruct (encode_rle_runs 255 Samples.mask_2x2)
    as [s [runs [Henc [Hparse [_ [Hsep _]]]]]].
  - discriminate.
  - two_valued_by_cases.
  - reflexivity.
  - exists s, runs. repeat split; assumption.
Defined.


(** *** Decoding several runs *)










End MaskCodecMore.

(** ** More on the dice score *)

Module MetricsMore.
Import Py MaskCodec Num Metrics MaskCodecFacts MetricsFacts RunFormat.
Import Binary64 Binary64Facts.

Section AnyArithmetic.
Context {F : Type} `{Arith F}.

Lemma zip_with_andb_comm (a b : list bool) :
  zip_with andb a b = zip_with andb b a.
Proof.
  revert b. induction a as [|x a IH]; intros [|y b]; cbn [zip_with];
    try reflexivity.
  rewrite IH, andb_comm. reflexivity.
Qed.

Lemma broadcast_axis_comm (a b : nat) : broadcast_axis a b = broadcast_axis b a.
Proof.
  unfold broadcast_axis.
  destruct (a =? b)%nat eqn:Eab.
  - apply Nat.eqb_eq in Eab. subst b. rewrite Nat.eqb_refl. reflexivity.
  - rewrite Nat.eqb_sym in Eab. rewrite Eab. rewrite Nat.eqb_sym in Eab.
    apply Nat.eqb_neq in Eab.
    destruct (a =? 1)%nat eqn:Ea, (b =? 1)%nat eqn:Eb; try reflexivity.
    apply Nat.eqb_eq in Ea, Eb. congruence.
Qed.

Lemma logical_and_comm (t p : ndarray) : logical_and t p = logical_and p t.
Proof.
  unfold logical_and.
  rewrite (Nat.eqb_sym (nd_rows t)), (Nat.eqb_sym (nd_cols t)).
  destruct ((nd_rows p =? nd_rows t) && (nd_cols p =? nd_cols t))%nat.
  - rewrite zip_with_andb_comm. reflexivity.
  - rewrite (broadcast_axis_comm (nd_rows t)), (broadcast_axis_comm (nd_cols t)).
    destruct (broadcast_axis (nd_rows p) (nd_rows t)) as [rows|];
      [|reflexivity].
    destruct (broadcast_axis (nd_cols p) (nd_cols t)) as [cols|];
      [|reflexivity].
    f_equal. apply flat_map_ext. intros i. apply map_ext. intros j.
    apply andb_comm.
Qed.

(** The dice score does not depend on which mask is the ground truth and
    which is the prediction, in any arithmetic and whether it is a score or
    an error. *)
Theorem dice_symmetric (true pred : ndarray) :
  dice (F := F) true pred = dice pred true.
Proof.
  unfold dice. rewrite (logical_and_comm true pred).
  rewrite (Z.add_comm (count_true (astype_bool true))). reflexivity.
Qed.

Lemma astype_bool_relabel (g : Z -> Z) (mask : ndarray) :
  (forall x, g x = 0 <-> x = 0) ->
  astype_bool (relabel g mask) = astype_bool mask.
Proof.
  intros Hg. unfold astype_bool, relabel. cbn [nd_data]. rewrite map_map.
  apply map_ext. intros x. f_equal.
  destruct (x =? 0) eqn:Ex.
  - apply Z.eqb_eq in Ex. apply Z.eqb_eq. apply Hg. exact Ex.
  - apply Z.eqb_neq in Ex. apply Z.eqb_neq. intros Hgx. apply Ex, Hg. exact Hgx.
Qed.

(** The dice score only looks at which pixels are zero: any other values may
    mark the foreground, and need not be the same in the two masks. *)
Theorem dice_ignores_foreground_value (g1 g2 : Z -> Z) (true pred : ndarray) :
  (forall x, g1 x = 0 <-> x = 0) ->
  (forall x, g2 x = 0 <-> x = 0) ->
  dice (F := F) (relabel g1 true) (relabel g2 pred) = dice true pred.
Proof.
  intros Hg1 Hg2. unfold dice, logical_and.
  rewrite !astype_bool_relabel by assumption. reflexivity.
Qed.

Lemma dice_pairs_truncates (ts ps extra : list ndarray) :
  length ts = length ps ->
  dice_pairs (F := F) (ts ++ extra) ps = dice_pairs ts ps
  /\ dice_pairs (F := F) ts (ps ++ extra) = dice_pairs ts ps.
Proof.
  revert ps. induction ts as [|t ts IH]; intros [|p ps] Hlen;
    try discriminate.
  - split; [destruct extra | ]; reflexivity.
  - injection Hlen as Hlen. destruct (IH ps Hlen) as [IH1 IH2].
    cbn [app dice_pairs]. rewrite IH1, IH2. split; reflexivity.
Qed.

(** Of two lists of masks of different lengths [get_dice] scores the pairs
    up to the shorter length and ignores the rest, without an error. *)
Theorem get_dice_ignores_unpaired (ts ps extra : list ndarray) :
  length ts = length ps ->
  get_dice (F := F) (PyList (ts ++ extra)) (PyList ps)
  = get_dice (PyList ts) (PyList ps)
  /\ get_dice (F := F) (PyList ts) (PyList (ps ++ extra))
     = get_dice (PyList ts) (PyList ps).
Proof.
  intros Hlen. destruct (dice_pairs_truncates ts ps extra Hlen) as [H1 H2].
  unfold get_dice. cbn [type_of pytype_eqb negb]. rewrite H1, H2.
  split; reflexivity.
Qed.

End AnyArithmetic.

Lemma dice_symmetric_witness :
  dice (F := float) Samples.mask_2x2 Samples.mask_zero_2x2
  = dice Samples.mask_zero_2x2 Samples.mask_2x2.
Proof. apply (dice_symmetric (F := float)). Defined.

Lemma dice_ignores_foreground_value_witness :
  dice (F := float) (relabel (fun x => x * 255) Samples.mask_fg1)
       (relabel (fun x => x) Samples.mask_fg255)
  = dice Samples.mask_fg1 Samples.mask_fg255.
Proof.
  apply (dice_ignores_foreground_value (F := float)); intros x; lia.
Defined.

Lemma get_dice_ignores_unpaired_witness :
  get_dice (F := float)
           (PyList ([Samples.mask_2x2] ++ [Samples.mask_zero_2x2]))
           (PyList [Samples.mask_2x2])
  = get_dice (PyList [Samples.mask_2x2]) (PyList [Samples.mask_2x2])
  /\ get_dice (F := float) (PyList [Samples.mask_2x2])
              (PyList ([Samples.mask_2x2] ++ [Samples.mask_zero_2x2]))
     = get_dice (PyList [Samples.mask_2x2]) (PyList [Samples.mask_2x2]).
Proof. apply (get_dice_ignores_unpaired (F := float)). reflexivity. Defined.


Local Open Scope R_scope.

(** The conditions under which the counts of a pair of masks are binary64
    numbers: one shape, fewer than 2^52 pixels. *)
Lemma dice_unit_interval (t p : ndarray) :
  nd_rows t = nd_rows p -> nd_cols t = nd_cols p ->
  (Z.of_nat (length (nd_data t)) < 2 ^ 52)%Z ->
  (Z.of_nat (length (nd_data p)) < 2 ^ 52)%Z ->
  exists d, dice (F := float) t p = Ok d /\ fnonneg d /\ fval d <= 1.
Proof.
  intros Hr Hc Ht Hp. rewrite (dice_same_shape t p Hr Hc). eexists.
  split; [reflexivity|].
  destruct (count_true_and (astype_bool t) (astype_bool p)) as [Hit Hip].
  pose proof (count_true_nonneg (zip_with andb (astype_bool t) (astype_bool p)))
    as Hi.
  pose proof (count_true_length (astype_bool t)) as Lt.
  pose proof (count_true_length (astype_bool p)) as Lp.
  unfold astype_bool in Lt, Lp at 2. rewrite length_map in Lt, Lp.
  fold (astype_bool t) in Lt. fold (astype_bool p) in Lp.
  destruct (dice_quotient _ (count_true (astype_bool t)
                             + count_true (astype_bool p))
                          Hi ltac:(lia) ltac:(lia)) as [Nd [Vd _]].
  split; [exact Nd | exact Vd].
Qed.

Lemma dice_pairs_unit_interval (ts ps : list ndarray) :
  Forall2 (fun t p => nd_rows t = nd_rows p /\ nd_cols t = nd_cols p
                      /\ (Z.of_nat (length (nd_data t)) < 2 ^ 52)%Z
                      /\ (Z.of_nat (length (nd_data p)) < 2 ^ 52)%Z) ts ps ->
  exists ds,
    dice_pairs (F := float) ts ps = Ok ds
    /\ Forall2 (fun tp d => dice (F := float) (fst tp) (snd tp) = Ok d)
               (combine ts ps) ds
    /\ Forall (fun d => fnonneg d /\ fval d <= 1) ds.
Proof.
  induction 1 as [|t p ts ps [Hr [Hc [Ht Hp]]] Hrest IH].
  - exists []. repeat split; constructor.
  - destruct (dice_unit_interval t p Hr Hc Ht Hp) as [d [Hd Hrange]].
    destruct IH as [ds [Hds [Heach Hall]]].
    exists (d :: ds). cbn [dice_pairs combine]. rewrite Hd, Hds.
    split; [reflexivity|]. split; constructor; assumption.
Qed.

(** A running total of [n] scores that started at most at [j] is at most
    [j + n]: each addition rounds a number below the next integer. *)
Lemma sum_unit_interval (ds : list float) :
  Forall (fun d => fnonneg d /\ fval d <= 1) ds ->
  forall (acc : float) (j : Z),
    fnonneg acc -> fval acc <= IZR j -> (0 <= j)%Z ->
    (j + Z.of_nat (length ds) < 2 ^ 53)%Z ->
    fnonneg (fold_left PrimFloat.add ds acc)
    /\ fval (fold_left PrimFloat.add ds acc)
       <= IZR (j + Z.of_nat (length ds)).
Proof.
  induction 1 as [|d ds [Nd Vd] Hds IH]; intros acc j Na Va Hj Hn.
  - cbn [fold_left length Z.of_nat]. rewrite Z.add_0_r. split; assumption.
  - cbn [fold_left]. cbn [length] in Hn |- *.
    rewrite Nat2Z.inj_succ in Hn |- *.
    destruct (add_fnonneg acc d Na Nd) as [Ns [_ [_ Hup]]].
    destruct (float_of_Z_spec (j + 1) ltac:(lia)) as [Nj _].
    pose proof (float_of_Z_exact (j + 1) ltac:(lia)) as Vj.
    specialize (Hup (float_of_Z (j + 1)) Nj).
    rewrite Vj, plus_IZR in Hup. specialize (Hup ltac:(lra)).
    destruct (IH (acc + d)%float (j + 1)%Z Ns) as [H1 H2];
      [rewrite plus_IZR; exact Hup | lia | lia|].
    split; [exact H1|].
    replace (j + Z.succ (Z.of_nat (length ds)))%Z
      with (j + 1 + Z.of_nat (length ds))%Z by lia. exact H2.
Qed.

(** The mean dice score of two lists of as many masks, fewer than 2^53 of
    them, pairwise of one shape and of fewer than 2^52 pixels: every pair
    has a dice score, and the mean that [get_dice] returns lies in [0, 1]
    in binary64. *)
Theorem get_dice_mean (ts ps : list ndarray) :
  Forall2 (fun t p => nd_rows t = nd_rows p /\ nd_cols t = nd_cols p
                      /\ (Z.of_nat (length (nd_data t)) < 2 ^ 52)%Z
                      /\ (Z.of_nat (length (nd_data p)) < 2 ^ 52)%Z) ts ps ->
  ts <> [] -> (Z.of_nat (length ts) < 2 ^ 53)%Z ->
  exists ds m,
    Forall2 (fun tp d => dice (F := float) (fst tp) (snd tp) = Ok d)
            (combine ts ps) ds
    /\ length ds = length ts
    /\ get_dice (F := float) (PyList ts) (PyList ps) = Ok m
    /\ PrimFloat.leb 0 m = true
    /\ PrimFloat.leb m 1 = true.
Proof.
  intros Hshapes Hne Hmany.
  destruct (dice_pairs_unit_interval ts ps Hshapes) as [ds [Hds [Heach Hall]]].
  exists ds. eexists. split; [exact Heach|].
  assert (Hlen : length ds = length ts).
  { rewrite <- (Forall2_length Heach), length_combine,
      <- (Forall2_length Hshapes). apply Nat.min_id. }
  split; [exact Hlen|].
  split.
  { unfold get_dice. cbn [type_of pytype_eqb negb]. rewrite Hds. reflexivity. }
  assert (Hn : (1 <= Z.of_nat (length ds) < 2 ^ 53)%Z).
  { rewrite Hlen. destruct ts; [congruence | cbn [length] in *; lia]. }
  destruct (sum_unit_interval ds Hall 0%float 0%Z) as [Ns Vs];
    [exact I | change (fval 0%float) with 0; lra | lia | lia|].
  rewrite Z.add_0_l in Vs.
  destruct (float_of_Z_spec (Z.of_nat (length ds)) ltac:(lia)) as [Nn _].
  pose proof (float_of_Z_exact (Z.of_nat (length ds)) ltac:(lia)) as Vn.
  assert (Hpos : 0 < IZR (Z.of_nat (length ds))) by (apply IZR_lt; lia).
  assert (Htop : IZR (Z.of_nat (length ds)) < bpow 1024).
  { apply Rlt_trans with (bpow 53); [|apply bpow_lt; lia].
    rewrite bpow_IZR by lia. apply IZR_lt. lia. }
  destruct (div_le_one (fold_left PrimFloat.add ds 0%float)
                       (float_of_Z (Z.of_nat (length ds))) Ns Nn)
    as [Nm Vm]; try (rewrite Vn; lra); try lra.
  split; [apply fnonneg_leb_zero, Nm|].
  apply leb_fval; [exact Nm | reflexivity | rewrite fval_one; exact Vm].
Qed.

Lemma get_dice_mean_witness :
  exists m,
    get_dice (F := float) (PyList [Samples.mask_2x2])
             (PyList [Samples.mask_zero_2x2]) = Ok m
    /\ PrimFloat.leb 0 m = true /\ PrimFloat.leb m 1 = true.
Proof.
  destruct (get_dice_mean [Samples.mask_2x2] [Samples.mask_zero_2x2])
    as [ds [m [_ [_ Hval]]]].
  - constructor; [|constructor]. cbn. repeat split; lia.
  - discriminate.
  - cbn. lia.
  - exists m. exact Hval.
Defined.

(** *** The score of a mask against itself *)

(** [EPS] is between [2 ^ -34] and [2 ^ -33]. *)
Lemma EPS_bounds :
  bpow (-34) < fval (EPS (F := float)) < bpow (-33).
Proof.
  destruct EPS_positive as [Ne _].
  assert (Hv : forall e : Z, value (S754_finite false (2 ^ 52) (e - 52)) = bpow e).
  { intros e. cbn [value]. change (Z.pos (2 ^ 52)) with (2 ^ 52)%Z.
    rewrite <- bpow_IZR, <- bpow_add by lia. f_equal. lia. }
  split.
  - rewrite <- (Hv (-34)%Z).
    change (S754_finite false (2 ^ 52) (-34 - 52)) with (Prim2SF 0x1p-34%float).
    apply (ltb_fval 0x1p-34%float); [reflexivity | exact Ne|].
    vm_compute. reflexivity.
  - rewrite <- (Hv (-33)%Z).
    change (S754_finite false (2 ^ 52) (-33 - 52)) with (Prim2SF 0x1p-33%float).
    apply (ltb_fval _ 0x1p-33%float); [exact Ne | reflexivity|].
    vm_compute. reflexivity.
Qed.

(** Twice a count below [2 ^ 52] is multiplied without rounding. *)
Lemma dice_numerator (i : Z) :
  (0 <= i < 2 ^ 52)%Z ->
  fnonneg (float_of_Z 2 * float_of_Z i)
  /\ fval (float_of_Z 2 * float_of_Z i) = IZR (2 * i).
Proof.
  intros Hi.
  destruct (float_of_Z_spec 2 ltac:(lia)) as [N2 _].
  destruct (float_of_Z_spec i ltac:(lia)) as [Ni _].
  pose proof (float_of_Z_exact 2 ltac:(lia)) as V2.
  pose proof (float_of_Z_exact i ltac:(lia)) as Vi.
  assert (Htop : bpow 53 < bpow 1024) by (apply bpow_lt; lia).
  assert (Ti : IZR i < bpow 53) by (rewrite bpow_IZR by lia; apply IZR_lt; lia).
  assert (T2 : IZR 2 < bpow 53) by (rewrite bpow_IZR by lia; apply IZR_lt; lia).
  assert (Hf : exists f, valid_binary f = true /\ value f = IZR (2 * i)).
  { destruct (2 * i)%Z as [|q|q] eqn:E; try lia.
    - exists (S754_zero false). split; reflexivity.
    - apply int_representable. lia. }
  destruct Hf as [f [Vf Hf]]. rewrite mult_IZR, <- V2, <- Vi in Hf |- *.
  apply (mul_exact _ _ f); try assumption;
    apply fnonneg_finite; try assumption; lra.
Qed.

(** The sum of an even count [s] with [EPS]: from [2 ^ 20] on the sum is
    rounded to the count, below it to a greater binary64 number. *)
Lemma dice_denominator (s : Z) :
  (0 < s < 2 ^ 53 - 1)%Z ->
  let D := (float_of_Z s + EPS)%float in
  fnonneg D /\ fval D < bpow 1024
  /\ ((2 ^ 20 <= s)%Z -> fval D = IZR s)
  /\ ((s < 2 ^ 20)%Z ->
      IZR s + bpow (Z.log2 s - 52) <= fval D).
Proof.
  intros Hs D.
  destruct (float_of_Z_spec s ltac:(lia)) as [Ns _].
  pose proof (float_of_Z_exact s ltac:(lia)) as Vs.
  destruct (float_of_Z_spec (s + 1) ltac:(lia)) as [Ns1 _].
  pose proof (float_of_Z_exact (s + 1) ltac:(lia)) as Vs1.
  destruct EPS_positive as [Ne [Pe Le]].
  destruct EPS_bounds as [Elo Ehi].
  destruct (add_fnonneg (float_of_Z s) EPS Ns Ne) as [ND [D1 [_ D3]]].
  specialize (D3 (float_of_Z (s + 1)) Ns1).
  rewrite Vs1, plus_IZR in D3. rewrite Vs in D1, D3.
  specialize (D3 ltac:(lra)). fold D in ND, D1, D3.
  assert (Ts : IZR s + 1 < bpow 1024).
  { apply Rlt_trans with (bpow 53); [|apply bpow_lt; lia].
    rewrite bpow_IZR, <- plus_IZR by lia. apply IZR_lt. lia. }
  assert (TD : fval D < bpow 1024) by lra.
  assert (Hfin : forall sg, Prim2SF D <> S754_infinity sg).
  { intros sg Hsg. unfold fval in TD. rewrite Hsg in TD. cbn [value] in TD.
    lra. }
  split; [exact ND|]. split; [exact TD|].
  assert (H33 : bpow (-33) = 2 * bpow (-34))
    by (rewrite <- bpow_succ; reflexivity).
  assert (H32 : bpow (-32) = 2 * bpow (-33))
    by (rewrite <- bpow_succ; reflexivity).
  split.
  - intros H20.
    pose proof (add_nearest (float_of_Z s) EPS (Prim2SF (float_of_Z s))
                  Ns Ne (Prim2SF_valid _)) as Hn.
    fold D in Hn. fold (fval (float_of_Z s)) in Hn. rewrite Vs in Hn.
    replace (IZR s + fval EPS - IZR s) with (fval (EPS (F := float))) in Hn
      by ring.
    rewrite (Rabs_pos_eq (fval EPS)) in Hn by lra.
    assert (Hup : fval D <= IZR s + 2 * fval (EPS (F := float))).
    { revert Hn. unfold Rabs. destruct (Rcase_abs _); lra. }
    destruct (grid (Prim2SF D) (s * 2 ^ 32) (-32) (Prim2SF_valid D) Hfin
                ltac:(lia) ltac:(lia) ltac:(right; lia)) as [Ga _].
    rewrite mult_IZR, <- (bpow_IZR 32) in Ga by lia.
    assert (H1 : bpow 32 * bpow (-32) = 1)
      by (rewrite <- bpow_add; reflexivity).
    fold (fval D) in Ga.
    assert (fval D <= IZR s); [|lra].
    replace (IZR s) with (IZR s * bpow 32 * bpow (-32)) by (rewrite Rmult_assoc, H1; ring).
    apply Ga. 
    replace ((IZR s * bpow 32 + 1) * bpow (-32))
      with (IZR s + bpow (-32)) by (rewrite Rmult_plus_distr_r, Rmult_assoc, H1; ring).
    lra.
  - intros H20. set (e := Z.log2 s).
    destruct (Z.log2_spec s ltac:(lia)) as [Llo Lhi]. fold e in Llo, Lhi.
    assert (He : (0 <= e <= 19)%Z).
    { split; [apply Z.log2_nonneg|].
      destruct (Z.le_gt_cases e 19) as [|Hgt]; [assumption|exfalso].
      assert (2 ^ 20 <= 2 ^ e)%Z by (apply Z.pow_le_mono_r; lia). lia. }
    destruct (scaled_representable (Z.to_pos (s * 2 ^ 33 + 1)) (-33))
      as [f1 [V1 Hf1]]; [rewrite Z2Pos.id by lia; lia | lia |].
    rewrite Z2Pos.id, plus_IZR, mult_IZR, <- (bpow_IZR 33) in Hf1 by lia.
    assert (H1 : bpow 33 * bpow (-33) = 1)
      by (rewrite <- bpow_add; reflexivity).
    assert (Hf1' : value f1 = IZR s + bpow (-33)).
    { rewrite Hf1, Rmult_plus_distr_r, Rmult_assoc, H1. ring. }
    pose proof (add_nearest (float_of_Z s) EPS f1 Ns Ne V1) as Hn.
    fold D in Hn. rewrite Vs, Hf1' in Hn.
    assert (Hgt : IZR s < fval D).
    { revert Hn. unfold Rabs.
      destruct (Rcase_abs _), (Rcase_abs _); lra. }
    destruct (grid (Prim2SF D) (s * 2 ^ (52 - e)) (e - 52) (Prim2SF_valid D)
                Hfin ltac:(lia) ltac:(lia)) as [_ Gb].
    { right. replace (2 ^ 52)%Z with (2 ^ e * 2 ^ (52 - e))%Z
        by (rewrite <- Z.pow_add_r by lia; f_equal; lia).
      apply Z.mul_le_mono_nonneg_r; lia. }
    rewrite mult_IZR, <- (bpow_IZR (52 - e)) in Gb by lia.
    assert (H2 : bpow (52 - e) * bpow (e - 52) = 1).
    { rewrite <- bpow_add. replace (52 - e + (e - 52))%Z with 0%Z by lia.
      reflexivity. }
    fold (fval D) in Gb.
    replace ((IZR s * bpow (52 - e) + 1) * bpow (e - 52))
      with (IZR s + bpow (e - 52)) in Gb
      by (rewrite Rmult_plus_distr_r, Rmult_assoc, H2; ring).
    apply Gb. rewrite Rmult_assoc, H2. lra.
Qed.

(** The dice score of a mask against itself is exactly 1.0 in binary64 when
    the mask has [2 ^ 19] foreground pixels or more, where [EPS] is lost in
    the rounding of the denominator, and is below 1.0 when it has fewer. *)
Theorem dice_self_one_threshold (t : ndarray) :
  (Z.of_nat (length (nd_data t)) < 2 ^ 52)%Z ->
  exists d,
    dice (F := float) t t = Ok d
    /\ ((2 ^ 19 <= count_true (astype_bool t))%Z -> PrimFloat.eqb d 1 = true)
    /\ ((count_true (astype_bool t) < 2 ^ 19)%Z -> PrimFloat.ltb d 1 = true).
Proof.
  intros Ht. rewrite (dice_same_shape t t eq_refl eq_refl).
  rewrite zip_with_and_self. eexists. split; [reflexivity|].
  pose proof (count_true_nonneg (astype_bool t)) as Hk.
  pose proof (count_true_length (astype_bool t)) as Lt.
  unfold astype_bool in Lt at 2. rewrite length_map in Lt.
  fold (astype_bool t) in Lt.
  set (k := count_true (astype_bool t)) in *.
  change (div (mul (of_Z 2) (of_Z k)) (add (of_Z (k + k)) EPS))
    with (float_of_Z 2 * float_of_Z k / (float_of_Z (k + k) + EPS))%float.
  destruct (dice_numerator k ltac:(lia)) as [NN VN].
  replace (2 * k)%Z with (k + k)%Z in VN by lia.
  set (N := (float_of_Z 2 * float_of_Z k)%float) in *.
  destruct (Z.eq_dec k 0) as [K0 | K0].
  { split; [lia|]. intros _. subst N. rewrite K0. vm_compute. reflexivity. }
  destruct (dice_denominator (k + k) ltac:(lia)) as [ND [TD [Hbig Hsmall]]].
  set (D := (float_of_Z (k + k) + EPS)%float) in *.
  assert (Hs : 2 <= IZR (k + k)) by (apply IZR_le; lia).
  assert (D1 : IZR (k + k) <= fval D).
  { destruct (Z.le_gt_cases (2 ^ 20) (k + k)) as [H|H].
    - rewrite (Hbig H). lra.
    - specialize (Hsmall H). pose proof (bpow_pos (Z.log2 (k + k) - 52)). lra. }
  destruct (div_rounds N D NN ND) as [Nd Hr]; [rewrite VN; lra | lra |].
  split.
  - intros H19. apply eqb_fval; [exact Nd | reflexivity|]. rewrite fval_one.
    rewrite VN, (Hbig ltac:(lia)) in Hr.
    replace (IZR (k + k) / IZR (k + k)) with 1 in Hr by (field; lra).
    apply (rounds_exact _ _ (Prim2SF 1) Hr (Prim2SF_valid 1)).
    exact fval_one.
  - intros H19. specialize (Hsmall ltac:(lia)).
    set (e := Z.log2 (k + k)) in *.
    destruct (Z.log2_spec (k + k) ltac:(lia)) as [_ Lhi]. fold e in Lhi.
    assert (He : (0 <= e)%Z) by apply Z.log2_nonneg.
    assert (Hv : value (S754_finite false (2 ^ 53 - 1) (-53)) = 1 - bpow (-53)).
    { cbn [value]. change (Z.pos (2 ^ 53 - 1)) with (2 ^ 53 - 1)%Z.
      rewrite minus_IZR, <- bpow_IZR by lia.
      rewrite Rmult_minus_distr_r, <- bpow_add. change (bpow (53 + -53)) with 1.
      ring. }
    assert (Hle : fval (N / D) <= 1 - bpow (-53)).
    { rewrite <- Hv. apply (Hr (S754_finite false (2 ^ 53 - 1) (-53)) eq_refl).
      rewrite Hv, VN.
      apply (Rmult_le_reg_r (fval D)); [lra|].
      unfold Rdiv. rewrite Rmult_assoc, Rinv_l by lra.
      assert (Hu : IZR (k + k) + 1 <= bpow (e + 1)).
      { rewrite bpow_IZR, <- plus_IZR by lia. apply IZR_le.
        replace (Z.succ e) with (e + 1)%Z in Lhi by lia. lia. }
      assert (HE : bpow (e + 1) = bpow 53 * bpow (e - 52)).
      { rewrite <- bpow_add. f_equal. lia. }
      assert (H1 : bpow (-53) * bpow 53 = 1)
        by (rewrite <- bpow_add; reflexivity).
      assert (Hu1 : bpow (e - 52) <= 1).
      { change 1 with (bpow 0). apply bpow_le.
        destruct (Z.le_gt_cases e 52) as [|Hgt]; [lia|exfalso].
        assert (2 ^ 53 <= 2 ^ e)%Z by (apply Z.pow_le_mono_r; lia).
        destruct (Z.log2_spec (k + k) ltac:(lia)) as [Llo _]. fold e in Llo.
        lia. }
      pose proof (bpow_pos (e - 52)). pose proof (bpow_pos (-53)).
      pose proof (bpow_pos 53).
      set (u := bpow (e - 52)) in *. set (h := bpow (-53)) in *.
      assert (h < 1).
      { unfold h. change 1 with (bpow 0). apply bpow_lt. lia. }
      assert (h * (IZR (k + k) + u) <= u).
      { apply Rle_trans with (h * (bpow 53 * u)); [|rewrite <- Rmult_assoc, H1; lra].
        apply Rmult_le_compat_l; [lra|]. lra. }
      assert ((1 - h) * (IZR (k + k) + u) <= (1 - h) * fval D)
        by (apply Rmult_le_compat_l; lra).
      lra. }
    apply ltb_fval; [exact Nd | reflexivity|]. rewrite fval_one.
    pose proof (bpow_pos (-53)). lra.
Qed.

Lemma dice_self_one_threshold_witness :
  exists d,
    dice (F := float) Samples.mask_pixel Samples.mask_pixel = Ok d
    /\ PrimFloat.ltb d 1 = true.
Proof.
  destruct (dice_self_one_threshold Samples.mask_pixel) as [d [Hd [_ Hlt]]].
  - cbn. lia.
  - exists d. split; [exact Hd|]. apply Hlt. vm_compute. reflexivity.
Defined.

(** With an empty list of masks on either side there is no pair to score,
    and [get_dice] returns NaN, computed in binary64, instead of raising. *)
Theorem get_dice_no_pairs (masks : list ndarray) :
  get_dice (F := float) (PyList []) (PyList masks) = Ok nan
  /\ get_dice (F := float) (PyList masks) (PyList []) = Ok nan.
Proof.
  split; [reflexivity|]. destruct masks; reflexivity.
Qed.

End MetricsMore.

(** ** More on trajectories *)

Module TrajectoryMore.
Import Py PyFacts Num Trajectory TrajectoryMetrics TrajectoryFacts.
Import FrameContent.
Import MaskCodec (zip_with).

Section AnyArithmetic.
Context {F : Type} `{Arith F}.

Lemma interp_values (x xp fp vs : list F) :
  interp x xp fp = Ok vs -> vs = map (interp_at xp fp) x.
Proof.
  unfold interp. destruct (length xp =? 0)%nat; [discriminate|].
  destruct (negb (length fp =? length xp)%nat); [discriminate|].
  intros [= <-]. reflexivity.
Qed.

Lemma extend_columns_content (data : DataFrame (F := F)) (t : list F)
    (column_by : string) (t_inter : list F) (listed columns : list string) :
  (forall c, In c columns -> In c listed) ->
  forall acc d,
    extended_content data t column_by t_inter listed acc ->
    extend_columns data t column_by t_inter columns acc = Ok d ->
    extended_content data t column_by t_inter listed d.
Proof.
  induction columns as [|c0 columns IH]; intros Hsub acc d Hacc.
  - cbn [extend_columns]. intros [= <-]. exact Hacc.
  - cbn [extend_columns].
    destruct (loc_values data c0) as [arr|] eqn:Harr; cbn [bind];
      [|discriminate].
    unfold extend_arr.
    destruct (interp t_inter t arr) as [vs|] eqn:Hvs; cbn [bind fst snd];
      [|discriminate].
    apply interp_values in Hvs. subst vs.
    apply IH; [intros c Hc; apply Hsub; right; exact Hc|].
    intros c v Hget.
    destruct (String.eqb c c0) eqn:E.
    + apply String.eqb_eq in E. subst c. rewrite dict_get_set_same in Hget.
      injection Hget as <-. right. split; [apply Hsub; left; reflexivity|].
      exists arr. split; [exact Harr | reflexivity].
    + apply String.eqb_neq in E. rewrite dict_get_set_other in Hget by exact E.
      destruct (dict_mem acc column_by); [apply Hacc; exact Hget|].
      destruct (String.eqb c column_by) eqn:E'.
      * apply String.eqb_eq in E'. subst c.
        rewrite dict_get_set_same in Hget. injection Hget as <-.
        left. split; reflexivity.
      * apply String.eqb_neq in E'.
        rewrite dict_get_set_other in Hget by exact E'. apply Hacc. exact Hget.
Qed.

Lemma extend_data_result (data : DataFrame (F := F)) (column_by : string)
    (columns : list string) (t t_inter : list F) :
  loc_values data column_by = Ok t -> t <> [] ->
  (forall c, In c columns ->
     exists arr, loc_values data c = Ok arr /\ length arr = length t) ->
  ~ In column_by columns -> columns <> [] ->
  exists d,
    extend_data data column_by columns t_inter = Ok d
    /\ loc_values d column_by = Ok t_inter
    /\ (forall c arr, In c columns -> loc_values data c = Ok arr ->
          loc_values d c = Ok (map (interp_at t arr) t_inter))
    /\ (forall c, c <> column_by -> ~ In c columns ->
          loc_values d c = Raise KeyError).
Proof.
  intros Ht Hne Hcols Hby Hcolumns.
  destruct (extend_columns_ok data t column_by t_inter columns Hne Hby Hcols [])
    as [d [Hd [Hrows [Hgetby [Hin _]]]]]; [constructor | congruence |].
  assert (Hcontent : extended_content data t column_by t_inter columns d).
  { apply (extend_columns_content data t column_by t_inter columns columns
             (fun c Hc => Hc) [] d); [|exact Hd].
    intros c v Hget. discriminate Hget. }
  exists d. unfold extend_data. rewrite Ht. cbn [bind]. rewrite Hd. cbn [bind].
  unfold frame_of_dict. rewrite (all_rows_same_lengths _ _ Hrows).
  split; [reflexivity|]. split; [|split].
  - unfold loc_values. rewrite Hgetby; [reflexivity | right; exact Hcolumns].
  - intros c arr Hc Harr. destruct (Hin c Hc) as [v Hv].
    unfold loc_values at 1. rewrite Hv.
    destruct (Hcontent c v Hv) as [[-> _] | [_ [arr' [Harr' ->]]]];
      [contradiction|].
    congruence.
  - intros c Hc Hnot. unfold loc_values.
    destruct (dict_get d c) as [v|] eqn:Hv; [|reflexivity].
    destruct (Hcontent c v Hv) as [[-> _] | [Hc' _]]; contradiction.
Qed.

(** For a frame of at least one row that has the timestamp column and the
    listed columns, none of them the timestamp column, [extend_data] returns
    a frame of exactly the timestamp column, holding the timestamps asked
    for, and the listed columns, each interpolated on them; every other
    column of the input is dropped. *)
Theorem extend_data_columns (data : DataFrame (F := F)) (column_by : string)
    (columns : list string) (t_inter : list F) (n : nat) :
  has_columns data column_by columns n -> (1 <= n)%nat ->
  ~ In column_by columns -> columns <> [] ->
  exists t d,
    loc_values data column_by = Ok t
    /\ extend_data data column_by columns t_inter = Ok d
    /\ loc_values d column_by = Ok t_inter
    /\ (forall c arr, In c columns -> loc_values data c = Ok arr ->
          loc_values d c = Ok (map (interp_at t arr) t_inter))
    /\ (forall c, c <> column_by -> ~ In c columns ->
          loc_values d c = Raise KeyError).
Proof.
  intros [[t [Ht Hn]] Hcols] Hpos Hby Hcolumns.
  assert (Hne : t <> []) by (intros ->; cbn in Hn; lia).
  assert (Hcols' : forall c, In c columns ->
            exists arr, loc_values data c = Ok arr /\ length arr = length t).
  { intros c Hc. destruct (Hcols c Hc) as [arr [Harr Hlen]]. exists arr.
    split; [exact Harr | congruence]. }
  destruct (extend_data_result data column_by columns t t_inter
              Ht Hne Hcols' Hby Hcolumns) as [d Hd].
  exists t, d. split; [exact Ht | exact Hd].
Qed.

(** In a frame with at least one row, a missing timestamp column or a
    missing listed column makes [extend_data] raise [KeyError]. *)
Theorem extend_data_missing_column (data : DataFrame (F := F))
    (column_by : string) (columns : list string) (t_inter : list F)
    (n : nat) (c : string) :
  all_rows n data -> (1 <= n)%nat ->
  In c (column_by :: columns) -> dict_get data c = None ->
  extend_data data column_by columns t_inter = Raise KeyError.
Proof.
  intros Hrows Hn Hc Hmissing. unfold extend_data, loc_values at 1.
  destruct (dict_get data column_by) as [t|] eqn:Ht; [|reflexivity].
  cbn [bind].
  destruct Hc as [<-|Hc]; [congruence|].
  assert (Hlen : length t = n) by (apply (all_rows_get n data column_by); assumption).
  assert (Hloop : forall acc,
            extend_columns data t column_by t_inter columns acc = Raise KeyError).
  { clear Ht. induction columns as [|c0 columns IH]; intros acc; [contradiction|].
    cbn [extend_columns]. unfold loc_values at 1.
    destruct (dict_get data c0) as [arr|] eqn:Harr.
    - cbn [bind]. unfold extend_arr.
      rewrite (interp_ok t_inter t arr).
      + cbn [bind fst snd]. apply IH.
        destruct Hc as [->|Hc]; [congruence | exact Hc].
      + intros ->. cbn in Hlen. lia.
      + rewrite (all_rows_get n data c0 arr Hrows Harr). congruence.
    - reflexivity. }
  rewrite Hloop. reflexivity.
Qed.

End AnyArithmetic.

Import TrajectorySamples.
Local Open Scope string_scope.

Lemma extend_data_columns_witness :
  exists d,
    extend_data truth_0123 "tmsp" ["x"] (floats [0; 2]) = Ok d
    /\ loc_values d "tmsp" = Ok (floats [0; 2])
    /\ loc_values d "y" = Raise KeyError.
Proof.
  destruct (extend_data_columns truth_0123 "tmsp" ["x"] (floats [0; 2]) 4)
    as [t [d [_ [Hd [Ht [_ Hdrop]]]]]].
  - has_columns_by_lookup.
  - lia.
  - intros [E|[]]. discriminate E.
  - discriminate.
  - exists d. split; [exact Hd|]. split; [exact Ht|].
    apply Hdrop; [discriminate|]. intros [E|[]]. discriminate E.
Defined.

Lemma extend_data_missing_column_witness :
  extend_data truth_0123 "tmsp" ["x"; "z"] (floats [0; 2]) = Raise KeyError.
Proof.
  apply (extend_data_missing_column truth_0123 "tmsp" ["x"; "z"]
           (floats [0; 2]) 4 "z").
  - repeat constructor.
  - lia.
  - right. right. left. reflexivity.
  - reflexivity.
Defined.


(** *** Interpolation on the sample points, in exact arithmetic *)

Local Open Scope R_scope.













(** *** Scores in binary64 *)

Import Binary64 Binary64Facts.

Local Close Scope R_scope.

Lemma float_of_Z_not_negative (z : Z) :
  0 <= z -> fnot_negative (float_of_Z z).
Proof.
  intros Hz. right. unfold float_of_Z.
  destruct z as [|p|p]; try lia; cbn [binary_normalize].
  - rewrite Prim2SF_SF2Prim by reflexivity. reflexivity.
  - rewrite Prim2SF_SF2Prim by apply binary_round_rounds.
    apply binary_round_signed.
Qed.





Lemma sum_not_negative (l : list float) :
  Forall fnot_negative l -> fnot_negative (Num.sum l).
Proof.
  unfold Num.sum.
  assert (Hacc : forall acc, fnot_negative acc -> Forall fnot_negative l ->
            fnot_negative (fold_left add l acc)).
  { induction l as [|a l IH]; intros acc Hacc Hl; [exact Hacc|].
    inversion Hl as [|? ? Ha Hl']; subst. cbn [fold_left].
    apply IH; [|exact Hl']. apply add_not_negative; assumption. }
  apply Hacc. apply (float_of_Z_not_negative 0). lia.
Qed.




Lemma existsb_zeros (n : nat) :
  existsb (fun v : float => is_nan v || is_inf v) (repeat zero n) = false.
Proof. induction n as [|n IH]; [reflexivity | exact IH]. Qed.

(** What [rmse] returns for two frames of at least one sample each: the
    root of the mean of the squared distances, unless a distance is a NaN
    or infinite, which the check of [mean_squared_error] refuses. *)
Lemma rmse_frames (gt pred : DataFrame (F := float))
    (t_column cx cy : string) (n m : nat) :
  has_columns gt t_column [cx; cy] n -> (1 <= n)%nat ->
  has_columns pred t_column [cx; cy] m -> (1 <= m)%nat ->
  ~ In t_column [cx; cy] ->
  exists pred' xt yt xp yp,
    synchronize_trajectories gt pred t_column [cx; cy] = Ok (gt, pred')
    /\ loc_values gt cx = Ok xt /\ loc_values gt cy = Ok yt
    /\ loc_values pred' cx = Ok xp /\ loc_values pred' cy = Ok yp
    /\ length xt = n /\ length yt = n /\ length xp = n /\ length yp = n
    /\ rmse (Frame gt) (Frame pred) t_column [cx; cy]
       = let ds := zip_with
                     (fun p t => distance (fst p) (fst t) (snd p) (snd t))
                     (combine xp yp) (combine xt yt) in
         if existsb (fun v => is_nan v || is_inf v) ds
         then Raise ValueError
         else Ok (sqrt (Metrics.mean
                          (zip_with (fun t p => square (sub t p))
                                    (repeat zero n) ds))).
Proof.
  intros [[t_true [Hgt Hn]] Hgtc] Hpos [[tc [Hpred Hm]] Hcols] Hposm Hby.
  assert (Htc : tc <> []) by (intros ->; cbn in Hm; lia).
  assert (Hcols' : forall c, In c [cx; cy] ->
            exists arr, loc_values pred c = Ok arr /\ length arr = length tc).
  { intros c Hc. destruct (Hcols c Hc) as [v [Hv Hlen]]. exists v.
    split; [exact Hv | congruence]. }
  destruct (synchronize_ok gt pred t_column [cx; cy] t_true tc
              Hgt Hpred Htc Hcols' Hby) as [pred' [Hsync [_ [_ Hc]]]].
  destruct (Hc cx (or_introl eq_refl)) as [xp [Hxp Hlx]].
  destruct (Hc cy (or_intror (or_introl eq_refl))) as [yp [Hyp Hly]].
  destruct (Hgtc cx (or_introl eq_refl)) as [xt [Hxt Hlxt]].
  destruct (Hgtc cy (or_intror (or_introl eq_refl))) as [yt [Hyt Hlyt]].
  exists pred', xt, yt, xp, yp.
  repeat (split; [first [assumption | congruence]|]).
  unfold rmse. cbn [data_type_of data_type_eqb negb].
  rewrite Hsync. cbn [bind fst snd]. unfold column_name. cbn [nth_error bind].
  rewrite Hxt. cbn [bind]. rewrite Hyt. cbn [bind]. rewrite Hxp. cbn [bind].
  rewrite Hyp. cbn [bind fst snd]. cbv zeta.
  unfold mean_squared_error.
  rewrite repeat_length, length_zip_with, !length_combine.
  replace (length yp) with n by congruence.
  replace (Nat.min (Nat.min (length xp) n) (Nat.min (length xt) (length yt)))
    with n by lia.
  rewrite Nat.eqb_refl. cbn [negb].
  destruct (n =? 0)%nat eqn:E; [apply Nat.eqb_eq in E; lia|].
  rewrite existsb_app, existsb_zeros. cbn [orb].
  destruct (existsb _ _); reflexivity.
Qed.

Import Scores.

(** For two trajectories of at least one sample each [get_scores] returns
    in binary64 a dict of exactly two entries, the value of [rmse], which is
    not below zero, under "rmse" and the value of [mie] under "mie"; unless
    a distance between the synchronized trajectories is a NaN or infinite,
    when it raises the [ValueError] of [rmse]. *)
Theorem get_scores_entries (gt pred : DataFrame (F := float))
    (t_column cx cy : string) (n m : nat) :
  has_columns gt t_column [cx; cy] n -> (1 <= n)%nat ->
  has_columns pred t_column [cx; cy] m -> (1 <= m)%nat ->
  ~ In t_column [cx; cy] ->
  exists pred' xt yt xp yp e,
    synchronize_trajectories gt pred t_column [cx; cy] = Ok (gt, pred')
    /\ loc_values gt cx = Ok xt /\ loc_values gt cy = Ok yt
    /\ loc_values pred' cx = Ok xp /\ loc_values pred' cy = Ok yp
    /\ mie gt pred t_column [cx; cy] = Ok e
    /\ if existsb (fun v => is_nan v || is_inf v)
                  (zip_with (fun p t => distance (fst p) (fst t)
                                                 (snd p) (snd t))
                            (combine xp yp) (combine xt yt))
       then rmse (Frame gt) (Frame pred) t_column [cx; cy] = Raise ValueError
            /\ get_scores gt pred t_column [cx; cy] = Raise ValueError
       else exists r,
              rmse (Frame gt) (Frame pred) t_column [cx; cy] = Ok r
              /\ PrimFloat.ltb r 0 = false
              /\ get_scores gt pred t_column [cx; cy]
                 = Ok [("rmse", r); ("mie", e)]%string.
Proof.
  intros Hgt Hn Hpred Hm Hby.
  destruct (rmse_frames gt pred t_column cx cy n m Hgt Hn Hpred Hm Hby)
    as [pred' [xt [yt [xp [yp [Hs [Hxt [Hyt [Hxp [Hyp [_ [_ [_ [_ Hrmse]]]]]]]]]]]]]].
  destruct (mie_ok gt pred t_column cx cy xt yt n m Hgt Hpred
              ltac:(lia) Hby Hxt Hyt) as [y [_ Hmie]].
  exists pred', xt, yt, xp, yp. eexists.
  repeat (split; [first [eassumption | exact Hmie]|]).
  cbv zeta in Hrmse.
  destruct (existsb _ _).
  - split; [exact Hrmse|]. unfold get_scores. rewrite Hrmse. reflexivity.
  - eexists. split; [exact Hrmse|]. split.
    + apply not_negative_ltb, sqrt_not_negative.
      apply (div_not_negative _ (float_of_Z _)).
      * apply sum_not_negative.
        apply (Forall_zip_with (fun _ => True) (fun _ => True));
          [intros a b _ _; apply square_not_negative
          | apply Forall_forall; intros; exact I
          | apply Forall_forall; intros; exact I].
      * apply float_of_Z_not_negative. lia.
    + unfold get_scores. rewrite Hrmse, Hmie. reflexivity.
Qed.

Lemma get_scores_entries_witness :
  exists r e,
    get_scores truth_0123 pred_03 "tmsp" ["x"; "y"]%string
    = Ok [("rmse", r); ("mie", e)]%string
    /\ PrimFloat.ltb r 0 = false.
Proof.
  destruct (get_scores_entries truth_0123 pred_03 "tmsp" "x" "y" 4 2)
    as [pred' [xt [yt [xp [yp [e [Hs [Hxt [Hyt [Hxp [Hyp [_ H]]]]]]]]]]]].
  - exact truth_0123_columns.
  - lia.
  - exact pred_03_columns.
  - lia.
  - exact tmsp_not_coordinate.
  - vm_compute in Hs. injection Hs as <-.
    vm_compute in Hxt, Hyt, Hxp, Hyp.
    injection Hxt as <-. injection Hyt as <-.
    injection Hxp as <-. injection Hyp as <-.
    change (existsb _ _) with false in H. cbv iota in H.
    destruct H as [r [_ [Hr Hget]]]. exists r, e. split; assumption.
Defined.

End TrajectoryMore.


(** ** More about the tagger and the lemmatizer *)

Module MorphFacts.
Import Py Morph.
Local Open Scope string_scope.

Lemma intersection_spec (s t : list string) (g : string) :
  In g (intersection s t) <-> In g s /\ In g t.
Proof.
  unfold intersection. rewrite filter_In, existsb_exists. split.
  - intros [Hs [x [Hx E]]]. apply String.eqb_eq in E. subst x. auto.
  - intros [Hs Ht]. split; [exact Hs|]. exists g. split; [exact Ht|].
    apply String.eqb_refl.
Qed.

(** Every grammeme of [_opencorpora_ners] is a key of the map, with one of
    the three notation tags as its value. *)
Lemma getitem_ner (g : string) :
  In g _opencorpora_ners ->
  exists c, getitem _map_to_PLO_notation (Some g) = Ok (Some c)
            /\ In (Some g, Some c) _map_to_PLO_notation
            /\ In c ["PER"; "LOC"; "ORG"].
Proof.
  intros Hg. cbn in Hg.
  repeat (destruct Hg as [<- | Hg];
          [eexists; split; [reflexivity | split; cbn; tauto] |]).
  contradiction.
Qed.

Lemma mapM_bind_ok {A B C : Type} (f : A -> result B) (g : B -> C)
    (l : list A) :
  mapM (fun a => bind (f a) (fun b => Ok (g b))) l
  = bind (mapM f l) (fun bs => Ok (map g bs)).
Proof.
  induction l as [|a l IH]; [reflexivity|].
  cbn [mapM]. destruct (f a) as [b|e]; [|reflexivity].
  cbn [bind]. rewrite IH. destruct (mapM f l); reflexivity.
Qed.

Lemma mapM_ext {A B : Type} (f g : A -> result B) (l : list A) :
  (forall a, f a = g a) -> mapM f l = mapM g l.
Proof.
  intros E. induction l as [|a l IH]; [reflexivity|].
  cbn [mapM]. rewrite E, IH. reflexivity.
Qed.

Lemma comprehension_ext {A : Type} (f g : value -> result A) (xs : value) :
  (forall a, f a = g a) -> comprehension f xs = comprehension g xs.
Proof.
  intros E. destruct xs; cbn [comprehension];
    [apply mapM_ext; exact E | reflexivity | apply mapM_ext; exact E].
Qed.

Lemma comprehension_bind_ok {A B : Type} (f : value -> result A)
    (g : A -> B) (xs : value) :
  comprehension (fun a => bind (f a) (fun b => Ok (g b))) xs
  = bind (comprehension f xs) (fun bs => Ok (map g bs)).
Proof.
  destruct xs; cbn [comprehension];
    [apply mapM_bind_ok | reflexivity | apply mapM_bind_ok].
Qed.

Lemma mapM_Forall2 {A B : Type} (f : A -> result B) (R : A -> B -> Prop)
    (l : list A) :
  (forall a, In a l -> exists b, f a = Ok b /\ R a b) ->
  exists bs, mapM f l = Ok bs /\ Forall2 R l bs.
Proof.
  induction l as [|a l IH]; intros H.
  - exists []. split; [reflexivity | constructor].
  - destruct (H a (or_introl eq_refl)) as [b [Eb Rb]].
    destruct IH as [bs [Ebs Rbs]]; [intros x Hx; apply H; right; exact Hx|].
    exists (b :: bs). cbn [mapM]. rewrite Eb, Ebs. split; [reflexivity|].
    constructor; assumption.
Qed.

Lemma mapM_map {A B C : Type} (f : B -> result C) (g : A -> B) (l : list A) :
  mapM f (map g l) = mapM (fun a => f (g a)) l.
Proof.
  induction l as [|a l IH]; [reflexivity|].
  cbn [map mapM]. rewrite IH. reflexivity.
Qed.

Section AnyEngine.
Variable parse : text -> list Parse.
Variable list_of_set : list string -> list string.

Lemma transform_token_ok (s : text) (first : Parse) (rest : list Parse) :
  (forall l, Permutation (list_of_set l) l) ->
  parse s = first :: rest ->
  exists ner,
    transform_token parse list_of_set (VStr s)
    = Ok (mk_Tagged (word first) (normal_form first) (POS first) ner)
    /\ (ner = None <->
        forall g, In g (grammemes first) -> ~ In g _opencorpora_ners)
    /\ (forall c, ner = Some c ->
        In c ["PER"; "LOC"; "ORG"]
        /\ exists g, In g (grammemes first) /\ In g _opencorpora_ners
                     /\ In (Some g, Some c) _map_to_PLO_notation).
Proof.
  intros Hset Hparse. cbn [transform_token]. rewrite Hparse.
  destruct (intersection _opencorpora_ners (grammemes first)) as [|g0 gs] eqn:EI.
  - exists None. split; [reflexivity|]. split; [|discriminate].
    split; [|reflexivity]. intros _ g Hg Hn.
    assert (Hin : In g (intersection _opencorpora_ners (grammemes first)))
      by (apply intersection_spec; auto).
    rewrite EI in Hin. contradiction.
  - pose proof (Hset (g0 :: gs)) as Hperm.
    destruct (list_of_set (g0 :: gs)) as [|g l] eqn:EL.
    + apply Permutation_nil in Hperm. discriminate.
    + assert (Hin : In g (intersection _opencorpora_ners (grammemes first))).
      { rewrite EI. apply (Permutation_in g Hperm). left. reflexivity. }
      apply intersection_spec in Hin. destruct Hin as [Hn Hg].
      destruct (getitem_ner g Hn) as [c [Eget [Hmap Hc]]].
      exists (Some c). cbn [bind]. rewrite Eget. cbn [bind].
      split; [reflexivity|]. split.
      * split; [discriminate|]. intros Hnone. exfalso. exact (Hnone g Hg Hn).
      * intros c' [= <-]. split; [exact Hc|]. exists g. auto.
Qed.

Lemma lemma_of_token_tagger (token : value) :
  lemma_of_token parse list_of_set token
  = bind (transform_token parse list_of_set token)
         (fun t => Ok (tagged_normal_form t)).
Proof. destruct token; reflexivity. Qed.

Lemma lemmas_of_string_tagger (v : value) :
  lemmas_of_string parse list_of_set v
  = bind (transform_string parse list_of_set v)
         (fun ts => Ok (map tagged_normal_form ts)).
Proof.
  assert (H : forall xs,
             comprehension (lemma_of_token parse list_of_set) xs
             = bind (comprehension (transform_token parse list_of_set) xs)
                    (fun ts => Ok (map tagged_normal_form ts))).
  { intros xs. rewrite <- comprehension_bind_ok.
    apply comprehension_ext. exact lemma_of_token_tagger. }
  destruct v; [reflexivity | apply H | apply H].
Qed.

(** X19: the lemmatizer returns the normal forms of the tagger, sentence by
    sentence and token by token, and raises what the tagger raises: for every
    argument [transform_string] and [transform] of the lemmatizer are those
    of the tagger followed by the projection on ["normal_form"]. *)
Theorem lemmatizer_follows_tagger (v : value) :
  lemmas_of_string parse list_of_set v
  = bind (transform_string parse list_of_set v)
         (fun ts => Ok (map tagged_normal_form ts))
  /\ lemmas_of_collection parse list_of_set v
     = bind (transform parse list_of_set v)
            (fun tss => Ok (map (map tagged_normal_form) tss)).
Proof.
  split; [apply lemmas_of_string_tagger|].
  unfold lemmas_of_collection, transform.
  rewrite <- comprehension_bind_ok.
  apply comprehension_ext. exact lemmas_of_string_tagger.
Qed.

(** X20: a collection that holds a plain [str] among its elements (a list
    of sentences that were not tokenized) is rejected by [transform] of the
    tagger and of the lemmatizer, whatever the other elements are; when the
    [str] comes first the exception is [TypeError]. *)
Theorem transform_rejects_plain_strings (l : list value) (s : text)
    (Hin : In (VStr s) l) :
  is_ok (transform parse list_of_set (VList l)) = false
  /\ is_ok (lemmas_of_collection parse list_of_set (VList l)) = false
  /\ (forall l', l = VStr s :: l' ->
      transform parse list_of_set (VList l) = Raise TypeError
      /\ lemmas_of_collection parse list_of_set (VList l) = Raise TypeError).
Proof.
  split; [|split].
  - unfold transform. cbn [comprehension].
    apply (PyFacts.mapM_raises _ l (VStr s) Hin). reflexivity.
  - unfold lemmas_of_collection. cbn [comprehension].
    apply (PyFacts.mapM_raises _ l (VStr s) Hin). reflexivity.
  - intros l' ->. split; reflexivity.
Qed.

Lemma transform_string_ok (tokens : list text) :
  (forall l, Permutation (list_of_set l) l) ->
  (forall s, In s tokens -> parse s <> []) ->
  exists ts,
    transform_string parse list_of_set (VList (map VStr tokens)) = Ok ts
    /\ Forall2 (fun s t => exists first rest,
                  parse s = first :: rest /\ tagged_from first t) tokens ts.
Proof.
  intros Hset Hparse. cbn [transform_string comprehension].
  rewrite mapM_map. apply mapM_Forall2. intros s Hs.
  destruct (parse s) as [|first rest] eqn:E; [exfalso; exact (Hparse s Hs E)|].
  destruct (transform_token_ok s first rest Hset E) as [ner [Et _]].
  eexists. split; [exact Et|]. exists first, rest.
  split; [reflexivity|]. repeat split.
Qed.

End AnyEngine.

(** X18: for a token with at least one parse [transform_token] raises
    nothing, the lookup in [_map_to_PLO_notation] included, whatever the
    order in which the set of NER grammemes is listed.  The word, the normal
    form and the part of speech are those of the first parse; the NER tag is
    [None] exactly when the first parse has no grammeme of
    [_opencorpora_ners], and otherwise it is PER, LOC or ORG, the notation of
    one of the NER grammemes of the first parse. *)
Theorem transform_token_tags (parse : text -> list Parse)
    (list_of_set : list string -> list string)
    (s : text) (first : Parse) (rest : list Parse)
    (Hset : forall l, Permutation (list_of_set l) l)
    (Hparse : parse s = first :: rest) :
  exists t,
    transform_token parse list_of_set (VStr s) = Ok t
    /\ tagged_from first t
    /\ (tagged_ner_tag t = None <->
        forall g, In g (grammemes first) -> ~ In g _opencorpora_ners)
    /\ (forall c, tagged_ner_tag t = Some c ->
        In c ["PER"; "LOC"; "ORG"]
        /\ exists g, In g (grammemes first) /\ In g _opencorpora_ners
                     /\ In (Some g, Some c) _map_to_PLO_notation).
Proof.
  destruct (transform_token_ok parse list_of_set s first rest Hset Hparse)
    as [ner [Et [Hnone Hsome]]].
  eexists. split; [exact Et|]. split; [repeat split|].
  cbn [tagged_ner_tag]. split; [exact Hnone | exact Hsome].
Qed.

Lemma transform_token_tags_witness :
  exists t,
    transform_token parse_as_name (fun l => l) (VStr [1040; 1085; 1085; 1072]%N)
    = Ok t
    /\ tagged_ner_tag t = Some "PER".
Proof.
  destruct (transform_token_tags parse_as_name (fun l => l)
              [1040; 1085; 1085; 1072]%N
              (mk_Parse [1040; 1085; 1085; 1072]%N [1040; 1085; 1085; 1072]%N
                        (Some "NOUN")
                        ["NOUN"; "anim"; "masc"; "Name"; "sing"; "nomn"])
              [] (fun l => Permutation_refl l) eq_refl)
    as [t [Et _]].
  exists t. split; [exact Et|].
  cbn in Et. injection Et as <-. reflexivity.
Defined.

(** X21: when the analyzer has at least one parse for every token,
    [transform] of the tagger raises nothing on a collection of tokenized
    sentences and keeps its shape: one list per sentence and in it one entry
    per token, in order, holding the word, the normal form and the part of
    speech of the first parse of that token; the lemmatizer returns the
    normal forms in the same shape. *)
Theorem transform_keeps_shape (parse : text -> list Parse)
    (list_of_set : list string -> list string)
    (sentences : list (list text))
    (Hset : forall l, Permutation (list_of_set l) l)
    (Hparse : forall s, parse s <> []) :
  exists tss,
    transform parse list_of_set (tokenized sentences) = Ok tss
    /\ lemmas_of_collection parse list_of_set (tokenized sentences)
       = Ok (map (map tagged_normal_form) tss)
    /\ Forall2 (Forall2 (fun s t => exists first rest,
                           parse s = first :: rest /\ tagged_from first t))
               sentences tss.
Proof.
  assert (H : exists tss,
             transform parse list_of_set (tokenized sentences) = Ok tss
             /\ Forall2 (Forall2 (fun s t => exists first rest,
                                    parse s = first :: rest
                                    /\ tagged_from first t))
                        sentences tss).
  { unfold transform, tokenized. cbn [comprehension]. rewrite mapM_map.
    apply mapM_Forall2. intros tokens _.
    apply transform_string_ok; [exact Hset | intros s _; apply Hparse]. }
  destruct H as [tss [Et Hshape]]. exists tss.
  split; [exact Et|]. split; [|exact Hshape].
  unfold lemmas_of_collection.
  rewrite (comprehension_ext _ _ _ (lemmas_of_string_tagger parse list_of_set)).
  rewrite comprehension_bind_ok.
  unfold transform in Et. rewrite Et. reflexivity.
Qed.

Lemma transform_keeps_shape_witness :
  exists tss,
    transform parse_as_name (fun l => l) (tokenized two_sentences) = Ok tss
    /\ map (@length Tagged) tss = [2%nat; 1%nat].
Proof.
  destruct (transform_keeps_shape parse_as_name (fun l => l) two_sentences
              (fun l => Permutation_refl l)
              ltac:(intros s; discriminate))
    as [tss [Et _]].
  exists tss. split; [exact Et|].
  cbn in Et. injection Et as <-. reflexivity.
Defined.

Lemma transform_rejects_plain_strings_witness :
  is_ok (transform parse_as_name (fun l => l)
           (VList [VList [VStr [1040%N]]; VStr [1048%N]])) = false.
Proof.
  exact (proj1 (transform_rejects_plain_strings parse_as_name (fun l => l)
                  [VList [VStr [1040%N]]; VStr [1048%N]] [1048%N]
                  (or_intror (or_introl eq_refl)))).
Defined.

End MorphFacts.
